(** * OpenLinks: the sync/dedup engine, the pipeline reconciliation and the
      subscription scheduler

    A shallow embedding of [src/utils/get_videosdata.ts] (function
    [getVideosData]) and of the parts of [src/index.tsx] that write the
    transcripts back ([handleVideoText], step 6) and that drive the
    subscription loop ([bloggersSubscribe], [cancelSubscription]).

    Conventions.
    - JavaScript strings are [string]s; the identifiers handled here are
      ASCII, so [trim] removes the ASCII white space of ECMAScript (TAB, LF,
      VT, FF, CR, SP) and [toLowerCase] maps [A-Z] to [a-z]; other code units
      are left as they are.
    - JavaScript numbers that the code treats as integers (counters,
      durations, epoch timestamps) are [Z].
    - An [await] that may reject is a function into [option]: [None] is the
      rejected promise, caught by the enclosing [try]/[catch] of the source.
    - JavaScript objects used as dictionaries and [Map]s are [gmap]s.
    - Free text that is not ASCII (the description that goes into a file
      name) is the list of its UTF-16 code units. *)

From Stdlib Require Import ZArith Lia Ascii String DecimalString DecimalNat.
From stdpp Require Import gmap strings list fin_maps.

Open Scope string_scope.
Open Scope list_scope.

(** ** JavaScript string primitives used by the engine *)

Module JsString.

Definition code (c : ascii) : nat := nat_of_ascii c.

(** White space removed by [String.prototype.trim], ASCII range. *)
Definition isWhiteSpace (c : ascii) : bool :=
  let n := code c in
  (Nat.leb 9 n && Nat.leb n 13) || Nat.eqb n 32.

Definition isDigit (c : ascii) : bool :=
  let n := code c in Nat.leb 48 n && Nat.leb n 57.

Definition lowerChar (c : ascii) : ascii :=
  let n := code c in
  if Nat.leb 65 n && Nat.leb n 90 then ascii_of_nat (n + 32) else c.

Fixpoint toLowerCase (s : string) : string :=
  match s with
  | EmptyString => EmptyString
  | String c s' => String (lowerChar c) (toLowerCase s')
  end.

Fixpoint trimStart (s : string) : string :=
  match s with
  | EmptyString => EmptyString
  | String c s' => if isWhiteSpace c then trimStart s' else s
  end.

Fixpoint trimEnd (s : string) : string :=
  match s with
  | EmptyString => EmptyString
  | String c s' =>
      match trimEnd s' with
      | EmptyString => if isWhiteSpace c then EmptyString else String c EmptyString
      | r => String c r
      end
  end.

Definition trim (s : string) : string := trimEnd (trimStart s).

(** Truthiness of a string: [if (s)] holds for every non-empty string. *)
Definition truthy (s : string) : bool :=
  match s with EmptyString => false | _ => true end.

Fixpoint allDigits (s : string) : bool :=
  match s with
  | EmptyString => true
  | String c s' => isDigit c && allDigits s'
  end.

(** [parseInt(s, 10)] on a string of decimal digits. *)
Fixpoint parseDigitsFrom (acc : Z) (s : string) : Z :=
  match s with
  | EmptyString => acc
  | String c s' => parseDigitsFrom (10 * acc + Z.of_nat (code c - 48)) s'
  end.

Definition parseInt10 (s : string) : Z := parseDigitsFrom 0 s.

(** [s.substring(i, j)] for [0 <= i <= j]. *)
Definition substring (i j : nat) (s : string) : string :=
  String.substring i (j - i) s.

End JsString.

(** ** The dedup index: paginated scan and canonical ids
    ([getVideosData], lines 309-383) *)

Module DedupIndex.
Import JsString.

(** An [IRecord] as the scan uses it: only [recordId] is read. *)
Record IRecord := { recordId : string }.

(** The answer of one [table.getRecords] call. *)
Record PageResponse := {
  records : option (list IRecord);
  hasMore : bool;
  pageToken : option string
}.

(** [videoIdString.trim().toLowerCase()]: the canonical id. *)
Definition cleanVideoId (videoIdString : string) : string :=
  toLowerCase (trim videoIdString).

Section Scan.
(** [table.getRecords({pageSize, pageToken})]; [None] when the call
    rejects. *)
Variable getRecords : nat -> option string -> option PageResponse.
(** [table.getCellString(fieldId, recordId)]; [None] when it rejects. *)
Variable getCellString : string -> string -> option string.

(** The [while (hasMore)] loop.  [fuel] bounds the number of page
    requests; [None] is returned only when the bound is reached while
    the source still reports more pages. *)
Fixpoint fetchAllRecords (fuel : nat) (allRecords : list IRecord)
    (pageToken : option string) : option (list IRecord) :=
  match fuel with
  | O => None
  | S fuel' =>
      match getRecords 5000 pageToken with
      | None => Some allRecords            (* catch: hasMore = false *)
      | Some response =>
          let allRecords' :=
            match records response with
            | Some rs => allRecords ++ rs
            | None => allRecords
            end in
          if hasMore response
          then fetchAllRecords fuel' allRecords' (DedupIndex.pageToken response)
          else Some allRecords'
      end
  end.

(** One iteration of [for (const record of allRecords)]. *)
Definition indexRecord (videoIdFieldId : string) (record : IRecord)
    (existingVideoIds : gmap string string) : gmap string string :=
  match getCellString videoIdFieldId (recordId record) with
  | Some videoIdString =>
      if truthy videoIdString
      then <[cleanVideoId videoIdString := recordId record]> existingVideoIds
      else existingVideoIds
  | None => existingVideoIds               (* catch (cellError): logged *)
  end.

Fixpoint indexRecords (videoIdFieldId : string) (allRecords : list IRecord)
    (existingVideoIds : gmap string string) : gmap string string :=
  match allRecords with
  | [] => existingVideoIds
  | record :: rest =>
      indexRecords videoIdFieldId rest
        (indexRecord videoIdFieldId record existingVideoIds)
  end.

(** The whole block guarded by [if (videoIdFieldId)]: the map the
    classification loop consults.  [videoIdFieldId] is
    [fieldMap[videoIdFieldName]], [None] when it is missing or empty. *)
Definition buildExistingVideoIds (fuel : nat) (videoIdFieldId : option string)
    : option (gmap string string) :=
  match videoIdFieldId with
  | Some fid =>
      match fetchAllRecords fuel [] None with
      | Some allRecords => Some (indexRecords fid allRecords ∅)
      | None => None
      end
  | None => Some ∅
  end.

(** The lookup of the classification loop (lines 506-511):
    [existingVideoIds.get(videoId)], kept only when truthy. *)
Definition findExisting (existingVideoIds : gmap string string)
    (aweme_id : string) : option string :=
  match existingVideoIds !! cleanVideoId aweme_id with
  | Some existingRecordId =>
      if truthy existingRecordId then Some existingRecordId else None
  | None => None
  end.

End Scan.

End DedupIndex.

(** ** JavaScript values and dates *)

(** A JSON value as the engine inspects it with [typeof]. *)
Inductive JsValue :=
| JsUndefined
| JsNull
| JsNumber (n : Z)
| JsString (s : string).

Module JsDate.

Definition msPerDay : Z := 86400000.

(** The largest time value of a [Date]; beyond it the date is invalid and
    [getTime()] is [NaN]. *)
Definition maxTime : Z := 8640000000000000.

Definition timeClip (t : Z) : option Z :=
  if (Z.abs t <=? maxTime)%Z then Some t else None.

(** Day number (days since 1970-01-01) of a proleptic Gregorian date,
    month in 1..12. *)
Definition daysFromCivil (y m d : Z) : Z :=
  let y' := (if m <=? 2 then y - 1 else y)%Z in
  let era := (y' / 400)%Z in
  let yoe := (y' - era * 400)%Z in
  let mp := ((m + 9) mod 12)%Z in
  let doy := ((153 * mp + 2) / 5 + d - 1)%Z in
  let doe := (yoe * 365 + yoe / 4 - yoe / 100 + doy)%Z in
  (era * 146097 + doe - 719468)%Z.

(** Year, month (1..12) and day of a day number. *)
Definition civilFromDays (z : Z) : Z * Z * Z :=
  let z := (z + 719468)%Z in
  let era := (z / 146097)%Z in
  let doe := (z - era * 146097)%Z in
  let yoe := ((doe - doe / 1460 + doe / 36524 - doe / 146096) / 365)%Z in
  let y := (yoe + era * 400)%Z in
  let doy := (doe - (365 * yoe + yoe / 4 - yoe / 100))%Z in
  let mp := ((5 * doy + 2) / 153)%Z in
  let d := (doy - (153 * mp + 2) / 5 + 1)%Z in
  let m := (if mp <? 10 then mp + 3 else mp - 9)%Z in
  ((if m <=? 2 then y + 1 else y)%Z, m, d).

(** [Date.UTC(year, month, day)]: the month is 0-based, month and day may
    overflow into the neighbouring months and years, and a year in 0..99
    means 1900 + year. *)
Definition UTC (year month day : Z) : option Z :=
  let yr := (if (0 <=? year) && (year <=? 99) then 1900 + year else year)%Z in
  let ym := (yr + month / 12)%Z in
  let mn := (month mod 12)%Z in
  timeClip ((daysFromCivil ym (mn + 1) 1 + day - 1) * msPerDay)%Z.

Definition getUTCFullYear (t : Z) : Z := fst (fst (civilFromDays (t / msPerDay))).
Definition getUTCMonth (t : Z) : Z := (snd (fst (civilFromDays (t / msPerDay))) - 1)%Z.
Definition getUTCDate (t : Z) : Z := snd (civilFromDays (t / msPerDay)).

(** What the JavaScript host decides: the local time zone and the
    implementation-defined parser behind [new Date(string)]. *)
Record Host := {
  (** local time minus UTC, in milliseconds, at a given instant *)
  localOffsetMs : Z -> Z;
  (** [new Date(s).getTime()], [None] for an invalid date *)
  parseDateString : string -> option Z
}.

(** [new Date(ts).getFullYear()]; [None] is [NaN]. *)
Definition getFullYear (host : Host) (ts : Z) : option Z :=
  match timeClip ts with
  | Some t => Some (getUTCFullYear (t + localOffsetMs host t))
  | None => None
  end.

(** A host in the UTC time zone whose parser accepts nothing. *)
Definition utcHost : Host :=
  {| localOffsetMs := fun _ => 0%Z; parseDateString := fun _ => None |}.

End JsDate.

(** ** DateNormalizer: the publish-date block of [getVideosData]
    (lines 412-478) *)

Module DateNormalizer.
Import JsString JsDate.

(** [/^\d{8}$/] *)
Definition isYYYYMMDD (s : string) : bool :=
  Nat.eqb (String.length s) 8 && allDigits s.

Definition isSeparator (c : ascii) : bool :=
  Nat.eqb (code c) 45 || Nat.eqb (code c) 47.

Definition startsWithDigit (s : string) : bool :=
  match s with
  | String c _ => isDigit c
  | EmptyString => false
  end.

(** [/^\d{4}[-/]\d{1,2}[-/]\d{1,2}/] *)
Definition matchesDatePattern (s : string) : bool :=
  match s with
  | String a (String b (String c (String d (String s1 (String m1 rest))))) =>
      isDigit a && isDigit b && isDigit c && isDigit d && isSeparator s1 &&
      isDigit m1 &&
      match rest with
      | String x rest' =>
          (isSeparator x && startsWithDigit rest') ||
          (isDigit x &&
           match rest' with
           | String s2 rest'' => isSeparator s2 && startsWithDigit rest''
           | EmptyString => false
           end)
      | EmptyString => false
      end
  | _ => false
  end.

(** [/^\d+$/] *)
Definition isDigitString (s : string) : bool :=
  truthy s && allDigits s.

(** The range test of the two timestamp branches:
    [year >= 2010 && year <= 2030] on [new Date(ts).getFullYear()]. *)
Definition yearInRange (host : Host) (ts : Z) : bool :=
  match getFullYear host ts with
  | Some year => (2010 <=? year)%Z && (year <=? 2030)%Z
  | None => false
  end.

(** The value left in [timestamp] at line 471: [None] is [null], the field
    stays unset. *)
Definition normalizePublishTime (host : Host) (rawValue : JsValue) : option Z :=
  match rawValue with
  | JsString s =>
      if isYYYYMMDD s then
        let year := parseInt10 (substring 0 4 s) in
        let month := (parseInt10 (substring 4 6 s) - 1)%Z in
        let day := parseInt10 (substring 6 8 s) in
        match UTC year month day with
        | Some t =>
            if (getUTCFullYear t =? year)%Z && (getUTCMonth t =? month)%Z
               && (getUTCDate t =? day)%Z
            then Some t else None
        | None => None
        end
      else if matchesDatePattern s then
        parseDateString host s
      else if isDigitString s then
        let numValue := parseInt10 s in
        let ts := (if Nat.leb (String.length s) 10 then numValue * 1000 else numValue)%Z in
        if yearInRange host ts then Some ts else None
      else None
  | JsNumber n =>
      let ts := (if n <? 10000000000 then n * 1000 else n)%Z in
      if yearInRange host ts then Some ts else None
  | _ => None
  end.

(** The four precedence rules of the normalizer, as the spec numbers
    them; [ruleOf] tells which one a raw value falls under. *)
Inductive Rule := RuleYYYYMMDD | RuleDateString | RuleDigitString | RuleNumber.

Definition ruleOf (rawValue : JsValue) : option Rule :=
  match rawValue with
  | JsString s =>
      if isYYYYMMDD s then Some RuleYYYYMMDD
      else if matchesDatePattern s then Some RuleDateString
      else if isDigitString s then Some RuleDigitString
      else None
  | JsNumber _ => Some RuleNumber
  | _ => None
  end.

(** The candidate timestamp a rule produces before any year filter. *)
Definition candidate (host : Host) (rawValue : JsValue) : option Z :=
  match rawValue with
  | JsString s =>
      if isYYYYMMDD s then
        UTC (parseInt10 (substring 0 4 s))
            (parseInt10 (substring 4 6 s) - 1)%Z
            (parseInt10 (substring 6 8 s))
      else if matchesDatePattern s then parseDateString host s
      else if isDigitString s then
        Some (if Nat.leb (String.length s) 10
              then parseInt10 s * 1000 else parseInt10 s)%Z
      else None
  | JsNumber n => Some (if n <? 10000000000 then n * 1000 else n)%Z
  | _ => None
  end.

End DateNormalizer.

(** ** SyncEngine: field mapping and classification of one batch
    ([getVideosData], lines 385-524) *)

Module SyncEngine.
Import JsString DedupIndex DateNormalizer.

(** The [Video] interface.  Text members are strings; the members tested
    with [typeof] before use are [JsValue]s. *)
Record Video := {
  nickname : string;
  aweme_id : string;
  share_url : string;
  conv_create_time : JsValue;
  desc : string;
  digg_count : JsValue;
  collect_count : JsValue;
  comment_count : JsValue;
  duration : JsValue;
  play_addr : string;
  audio_addr : string;
  share_count : JsValue;
  video_text_ori : option string;
  video_text_arr : option string
}.

(** A cell value written to the table. *)
Inductive FieldValue :=
| FText (s : string)
| FNumber (n : Z).

(** The [fields] object of one record: field id to value. *)
Abbreviation Fields := (gmap string FieldValue).

Record UpdateRecord := {
  upd_recordId : string;
  upd_fields : Fields
}.

(** Column names of [fieldMapping]. *)
Definition col_nickname : string := "昵称".
Definition col_aweme_id : string := "视频编号".
Definition col_share_url : string := "分享链接".
Definition col_conv_create_time : string := "发布日期".
Definition col_desc : string := "描述".
Definition col_digg_count : string := "点赞数".
Definition col_collect_count : string := "收藏数".
Definition col_comment_count : string := "评论数".
Definition col_duration : string := "时长".
Definition col_play_addr : string := "下载链接".
Definition col_audio_addr : string := "音频链接".
Definition col_share_count : string := "分享数".
Definition col_video_text_arr : string := "文案".

(** The column names of [fieldMapping], in its order. *)
Definition fieldMappingNames : list string :=
  [ col_nickname; col_aweme_id; col_share_url; col_conv_create_time;
    col_desc; col_digg_count; col_collect_count; col_comment_count;
    col_duration; col_play_addr; col_audio_addr; col_share_count;
    col_video_text_arr ].

(** [fieldMap[name]] under [if (...)]: the id when present and truthy. *)
Definition resolved (fieldMap : gmap string string) (name : string)
    : option string :=
  match fieldMap !! name with
  | Some id => if truthy id then Some id else None
  | None => None
  end.

(** [if (fieldMap[name]) fields[fieldMap[name]] = value] *)
Definition assignIf (fieldMap : gmap string string) (name : string)
    (value : FieldValue) (fields : Fields) : Fields :=
  match resolved fieldMap name with
  | Some id => <[id := value]> fields
  | None => fields
  end.

(** [String(s || '')] on a string. *)
Definition stringOrEmpty (s : string) : string :=
  if truthy s then s else "".

(** [typeof v === 'number' ? v : 0] *)
Definition numberOrZero (v : JsValue) : Z :=
  match v with
  | JsNumber n => n
  | _ => 0%Z
  end.

(** [Math.round(n / 1000)] on an integer [n]: the nearest integer to the
    quotient, a tie going up. *)
Definition roundDiv1000 (n : Z) : Z := ((n + 500) / 1000)%Z.

(** [typeof duration === 'number' ? Math.round(duration / 1000) : 0] *)
Definition durationSeconds (v : JsValue) : Z :=
  match v with
  | JsNumber n => roundDiv1000 n
  | _ => 0%Z
  end.

(** [a || b || ''] on optional strings. *)
Definition textContent (video : Video) : string :=
  match video_text_arr video with
  | Some a => if truthy a then a else
      match video_text_ori video with
      | Some b => if truthy b then b else ""
      | None => ""
      end
  | None =>
      match video_text_ori video with
      | Some b => if truthy b then b else ""
      | None => ""
      end
  end.

(** The publish-date assignment: the field is set only when the
    normalizer yields a timestamp. *)
Definition assignDate (host : JsDate.Host) (fieldMap : gmap string string)
    (video : Video) (fields : Fields) : Fields :=
  match resolved fieldMap col_conv_create_time with
  | Some id =>
      match normalizePublishTime host (conv_create_time video) with
      | Some timestamp => <[id := FNumber timestamp]> fields
      | None => fields
      end
  | None => fields
  end.

(** The body of the loop up to the dedup check: [None] is the [continue]
    taken when the canonical-id column is not resolved. *)
Definition buildFields (host : JsDate.Host) (fieldMap : gmap string string)
    (video : Video) : option Fields :=
  match resolved fieldMap col_aweme_id with
  | None => None
  | Some idField =>
      let fields : Fields := <[idField := FText (aweme_id video)]> ∅ in
      let fields := assignIf fieldMap col_nickname (FText (stringOrEmpty (nickname video))) fields in
      let fields := assignIf fieldMap col_share_url (FText (stringOrEmpty (share_url video))) fields in
      let fields := assignDate host fieldMap video fields in
      let fields := assignIf fieldMap col_desc (FText (stringOrEmpty (desc video))) fields in
      let fields := assignIf fieldMap col_digg_count (FNumber (numberOrZero (digg_count video))) fields in
      let fields := assignIf fieldMap col_collect_count (FNumber (numberOrZero (collect_count video))) fields in
      let fields := assignIf fieldMap col_comment_count (FNumber (numberOrZero (comment_count video))) fields in
      let fields := assignIf fieldMap col_duration (FNumber (durationSeconds (duration video))) fields in
      let fields := assignIf fieldMap col_play_addr (FText (stringOrEmpty (play_addr video))) fields in
      let fields := assignIf fieldMap col_audio_addr (FText (stringOrEmpty (audio_addr video))) fields in
      let fields := assignIf fieldMap col_share_count (FNumber (numberOrZero (share_count video))) fields in
      let fields := assignIf fieldMap col_video_text_arr (FText (textContent video)) fields in
      Some fields
  end.

(** What the loop does with one video. *)
Inductive Classified :=
| Skipped
| ToAdd (fields : Fields)
| ToUpdate (existingRecordId : string) (fields : Fields).

Definition classify (host : JsDate.Host) (fieldMap : gmap string string)
    (existingVideoIds : gmap string string) (video : Video) : Classified :=
  match buildFields host fieldMap video with
  | None => Skipped
  | Some fields =>
      match findExisting existingVideoIds (aweme_id video) with
      | Some existingRecordId => ToUpdate existingRecordId fields
      | None => ToAdd fields
      end
  end.

(** [for (const video of videos)]: the two lists grow by [push]. *)
Fixpoint classifyVideos (host : JsDate.Host) (fieldMap : gmap string string)
    (existingVideoIds : gmap string string) (videos : list Video)
    (recordsToAdd : list Fields) (recordsToUpdate : list UpdateRecord)
    : list Fields * list UpdateRecord :=
  match videos with
  | [] => (recordsToAdd, recordsToUpdate)
  | video :: rest =>
      match classify host fieldMap existingVideoIds video with
      | Skipped =>
          classifyVideos host fieldMap existingVideoIds rest
            recordsToAdd recordsToUpdate
      | ToAdd fields =>
          classifyVideos host fieldMap existingVideoIds rest
            (recordsToAdd ++ [fields]) recordsToUpdate
      | ToUpdate existingRecordId fields =>
          classifyVideos host fieldMap existingVideoIds rest
            recordsToAdd
            (recordsToUpdate ++
               [{| upd_recordId := existingRecordId; upd_fields := fields |}])
      end
  end.

End SyncEngine.

(** ** BatchWriter: the chunked commits of [getVideosData] (lines 526-568)
    and the write-back of [handleVideoText] (index.tsx, lines 686-702) *)

Module BatchWriter.

(** [l.slice(i, j)] for [i <= j]. *)
Definition slice {A : Type} (i j : nat) (l : list A) : list A :=
  take (j - i) (drop i l).

Definition batchSize : nat := 500.

Section Writer.
Context {St A : Type}.

(** A batch call of the datastore ([table.addRecords] or
    [table.setRecords]): the store after the call and whether the
    promise resolved ([true]) or rejected ([false]). *)
Variable commitBatch : St -> list A -> St * bool.

(** [for (let i = 0; i < rows.length; i += batchSize)] inside one
    [try]: a rejected call leaves the loop through the [catch].  [fuel]
    bounds the iterations. *)
Fixpoint batchLoop (fuel : nat) (st : St) (rows : list A) (i : nat) : St :=
  match fuel with
  | O => st
  | S fuel' =>
      if Nat.ltb i (length rows) then
        let batch := slice i (i + batchSize) rows in
        match commitBatch st batch with
        | (st', true) => batchLoop fuel' st' rows (i + batchSize)
        | (st', false) => st'
        end
      else st
  end.

(** [if (rows.length > 0) { try { for ... } catch { log } }]; the loop
    runs at most [rows.length] times. *)
Definition commitInBatches (st : St) (rows : list A) : St :=
  if Nat.ltb 0 (length rows) then batchLoop (length rows) st rows 0 else st.

(** A single-row call of the datastore ([table.setRecord]). *)
Variable commitOne : St -> A -> St * bool.

(** The inner [for (const record of recordsToUpdate)] of the write-back:
    each row in its own [try]. *)
Fixpoint oneByOne (st : St) (updateCount : nat) (rows : list A) : St * nat :=
  match rows with
  | [] => (st, updateCount)
  | record :: rest =>
      match commitOne st record with
      | (st', true) => oneByOne st' (S updateCount) rest
      | (st', false) => oneByOne st' updateCount rest
      end
  end.

(** The write-back of [handleVideoText]: one [setRecords] call for all
    rows and, when it rejects, one [setRecord] call per row.  The result
    is the store and [updateCount]. *)
Definition writeBack (st : St) (recordsToUpdate : list A) : St * nat :=
  if Nat.ltb 0 (length recordsToUpdate) then
    match commitBatch st recordsToUpdate with
    | (st', true) => (st', length recordsToUpdate)
    | (st', false) => oneByOne st' 0 recordsToUpdate
    end
  else (st, 0).

End Writer.

(** The chunks the spec speaks of: consecutive runs of [n] rows, the last
    one possibly shorter. *)
Fixpoint chunksFuel {A : Type} (fuel n : nat) (l : list A) : list (list A) :=
  match fuel with
  | O => []
  | S fuel' =>
      match l with
      | [] => []
      | _ => take n l :: chunksFuel fuel' n (drop n l)
      end
  end.

Definition chunks {A : Type} (n : nat) (l : list A) : list (list A) :=
  chunksFuel (length l) n l.

(** Committing a list of chunks in order, stopping at the first one that
    is rejected. *)
Fixpoint commitUntilFailure {St A : Type} (commitBatch : St -> list A -> St * bool)
    (st : St) (cs : list (list A)) : St :=
  match cs with
  | [] => st
  | c :: rest =>
      match commitBatch st c with
      | (st', true) => commitUntilFailure commitBatch st' rest
      | (st', false) => st'
      end
  end.

End BatchWriter.

(** ** The destination table *)

Module Datastore.
Import JsString DedupIndex SyncEngine.

(** Modelled from the spec: the datastore collaborator of the external
    interfaces section (the table adapter of the JS SDK, which is not part
    of this repository's sources): rows carry a record id and cells keyed
    by field id; row ids are listed page by page with a continuation
    cursor; a cell is read as text; inserting rows yields new ids;
    updating rows overwrites the given cells of the named row. *)
Record Row := {
  row_id : string;
  row_cells : Fields
}.

Abbreviation Table := (list Row).

(** Modelled from the spec: "insert rows (array of field maps) -> ids".  The
    ids the datastore gives to inserted rows: never empty and never one that
    is in use. *)
Class RecordIdSupply := {
  newRecordId : list string -> string;
  newRecordId_fresh : forall used, newRecordId used ∉ used;
  newRecordId_truthy : forall used, newRecordId used <> ""
}.

(** The decimal numeral of an integer. *)
Definition decimal (n : Z) : string :=
  DecimalString.NilEmpty.string_of_int (Z.to_int n).

(** Modelled from the spec: "read a cell as text".  A text cell reads as
    its text, a number as its decimal numeral, an empty cell as the empty
    string. *)
Definition cellString (fieldId : string) (row : Row) : string :=
  match row_cells row !! fieldId with
  | Some (FText s) => s
  | Some (FNumber n) => decimal n
  | None => ""
  end.

(** Modelled from the spec: the row a record id names, the first one with
    that id. *)
Fixpoint findRow (table : Table) (rid : string) : option Row :=
  match table with
  | [] => None
  | row :: rest => if decide (row_id row = rid) then Some row else findRow rest rid
  end.

(** Modelled from the spec: [table.getCellString(fieldId, recordId)] of the
    datastore interface; rejects for an unknown record. *)
Definition getCellString (table : Table) (fieldId rid : string) : option string :=
  cellString fieldId <$> findRow table rid.

(** Modelled from the spec: the continuation cursor of the paginated
    listing, here the decimal numeral of the offset of the next page. *)
Definition cursor (offset : nat) : string :=
  DecimalString.NilEmpty.string_of_uint (Nat.to_uint offset).

(** Modelled from the spec: the offset a cursor stands for; no cursor is the
    first page. *)
Definition offsetOf (pageToken : option string) : option nat :=
  match pageToken with
  | None => Some 0
  | Some s => Nat.of_uint <$> DecimalString.NilEmpty.uint_of_string s
  end.

(** Modelled from the spec: "list row ids, paginated with a continuation
    cursor", the [table.getRecords({pageSize, pageToken})] of the code.  The
    cursor is the offset of the next page; the call rejects for a cursor it
    did not hand out. *)
Definition getRecords (table : Table) (pageSize : nat)
    (pageToken : option string) : option PageResponse :=
  match offsetOf pageToken with
  | Some offset =>
      let more := Nat.ltb (offset + pageSize) (length table) in
      Some {| records :=
                Some ((fun row => {| recordId := row_id row |})
                        <$> take pageSize (drop offset table));
              hasMore := more;
              pageToken := if more then Some (cursor (offset + pageSize)) else None |}
  | None => None
  end.

(** Modelled from the spec: "insert rows (array of field maps) -> ids", the
    [table.addRecords(batch)] of the code: one new row per element, in
    order. *)
Fixpoint addRecords `{RecordIdSupply} (table : Table) (batch : list Fields) : Table :=
  match batch with
  | [] => table
  | fields :: rest =>
      addRecords
        (table ++ [{| row_id := newRecordId (row_id <$> table);
                      row_cells := fields |}])
        rest
  end.

(** Modelled from the spec: "update rows (array of {row id, field map})",
    one element of it: the given cells replace those of the row with that
    id, the other cells stay; an id that names no row changes nothing. *)
Definition setRecord (table : Table) (u : UpdateRecord) : Table :=
  (fun row =>
     if decide (row_id row = upd_recordId u)
     then {| row_id := row_id row; row_cells := upd_fields u ∪ row_cells row |}
     else row) <$> table.

(** Modelled from the spec: "update rows (array of {row id, field map})",
    the [table.setRecords(batch)] of the code: the updates in order. *)
Definition setRecords (table : Table) (batch : list UpdateRecord) : Table :=
  foldl setRecord table batch.

(** Modelled from the spec: the row identity of the datastore; record ids
    are unique and not empty. *)
Definition wellFormed (table : Table) : Prop :=
  NoDup (row_id <$> table) /\ forall row, row ∈ table -> row_id row <> "".

End Datastore.

(** ** One pass of [getVideosData] over one fetched batch *)

Module SyncRun.
Import JsString DedupIndex SyncEngine BatchWriter Datastore.

Section Run.
Context `{RecordIdSupply}.
Variable host : JsDate.Host.
(** The result of [ensureFieldsExist]: column name to field id. *)
Variable fieldMap : gmap string string.

(** Lines 309-524: the two lists handed to the writer.  The scan needs
    one page request per 5000 rows, so [S (length table)] requests are
    more than enough. *)
Definition plan (table : Table) (videos : list Video)
    : option (list Fields * list UpdateRecord) :=
  match buildExistingVideoIds (getRecords table) (getCellString table)
          (S (length table)) (resolved fieldMap col_aweme_id) with
  | Some existingVideoIds =>
      Some (classifyVideos host fieldMap existingVideoIds videos [] [])
  | None => None
  end.

(** Lines 526-568 with a datastore that accepts every call. *)
Definition commit (table : Table)
    (p : list Fields * list UpdateRecord) : Table :=
  let table' :=
    commitInBatches (fun t batch => (addRecords t batch, true)) table (fst p) in
  commitInBatches (fun t batch => (setRecords t batch, true)) table' (snd p).

(** The table after one pass. *)
Definition sync (table : Table) (videos : list Video) : Table :=
  match plan table videos with
  | Some p => commit table p
  | None => table
  end.

End Run.

End SyncRun.

(** ** TaskPipeline: the reconciliation step of [handleVideoText]
    (index.tsx, lines 662-684) *)

Module Pipeline.
Import JsString SyncEngine.

Inductive Status :=
| pending | asr_posting | asr_polling | asr_done
| llm_posting | llm_polling | llm_done | completed | failed.

Record LlmTask := { conversation_id : string; chat_id : string }.

(** The members of [ProcessingVideo] the reconciliation reads; an absent
    or [null] member is [None]. *)
Record ProcessingVideo := {
  pv_recordId : string;
  pv_aweme_id : string;
  pv_video_text_ori : option string;
  pv_video_text_arr : option string;
  pv_llm_task_id_list : option (list LlmTask);
  pv_status : Status
}.

Definition status_eqb (a b : Status) : bool :=
  match a, b with
  | pending, pending | asr_posting, asr_posting | asr_polling, asr_polling
  | asr_done, asr_done | llm_posting, llm_posting | llm_polling, llm_polling
  | llm_done, llm_done | completed, completed | failed, failed => true
  | _, _ => false
  end.

(** [!video.llm_task_id_list]: an array, even an empty one, is truthy. *)
Definition noLlmList (video : ProcessingVideo) : bool :=
  match pv_llm_task_id_list video with
  | Some _ => false
  | None => true
  end.

(** [a || b] on optional strings. *)
Definition orElse (a b : option string) : option string :=
  match a with
  | Some s => if truthy s then a else b
  | None => b
  end.

(** [video.video_text_arr || video.video_text_ori] *)
Definition finalText (video : ProcessingVideo) : option string :=
  orElse (pv_video_text_arr video) (pv_video_text_ori video).

(** The test of line 669. *)
Definition eligible (video : ProcessingVideo) : bool :=
  status_eqb (pv_status video) llm_done ||
  (status_eqb (pv_status video) asr_done && noLlmList video).

(** [for (const video of processingVideos)]: the update list and
    [failCount]. *)
Fixpoint reconcileLoop (textFieldId : string) (processingVideos : list ProcessingVideo)
    (recordsToUpdate : list UpdateRecord) (failCount : nat)
    : list UpdateRecord * nat :=
  match processingVideos with
  | [] => (recordsToUpdate, failCount)
  | video :: rest =>
      if eligible video then
        match finalText video with
        | Some text =>
            if truthy text && truthy (pv_recordId video) && truthy textFieldId
            then reconcileLoop textFieldId rest
                   (recordsToUpdate ++
                      [{| upd_recordId := pv_recordId video;
                          upd_fields := {[ textFieldId := FText text ]} |}])
                   failCount
            else reconcileLoop textFieldId rest recordsToUpdate (S failCount)
        | None => reconcileLoop textFieldId rest recordsToUpdate (S failCount)
        end
      else if status_eqb (pv_status video) failed then
        reconcileLoop textFieldId rest recordsToUpdate (S failCount)
      else
        reconcileLoop textFieldId rest recordsToUpdate (S failCount)
  end.

Definition reconcile (textFieldId : string) (processingVideos : list ProcessingVideo)
    : list UpdateRecord * nat :=
  reconcileLoop textFieldId processingVideos [] 0.

(** What one item hands to the final write, in the words of the code:
    eligible, with a non-empty final text, record id and text field id. *)
Definition contribution (textFieldId : string) (video : ProcessingVideo)
    : option UpdateRecord :=
  if eligible video then
    match finalText video with
    | Some text =>
        if truthy text && truthy (pv_recordId video) && truthy textFieldId
        then Some {| upd_recordId := pv_recordId video;
                     upd_fields := {[ textFieldId := FText text ]} |}
        else None
    | None => None
    end
  else None.

End Pipeline.

(** ** SubscriptionScheduler: the loop of [bloggersSubscribe]
    (index.tsx, lines 720-755) in virtual time

    Time is in milliseconds.  Timers fire at the instant they are due and
    the synchronous code between two suspension points takes no time;
    [executeSubscriptionTask] is started without being awaited, so it does
    not delay the loop. *)

Module Scheduler.

(** The period of [setInterval] in the wait. *)
Definition pollIntervalMs : Z := 5000.

Section Loop.
(** [subRef.current] at each instant: set by [bloggersSubscribe], cleared
    by [cancelSubscription]. *)
Variable subRef : Z -> bool.
(** [intervalHours * 3600 * 1000] *)
Variable periodMs : Z.

(** The promise of lines 738-750, created at [start]: [tick] is the
    instant of the next interval callback; the result is the instant at
    which the promise resolves. *)
Fixpoint waitFrom (fuel : nat) (start tick : Z) : Z :=
  match fuel with
  | O => (start + periodMs)%Z
  | S fuel' =>
      if (start + periodMs <=? tick)%Z then (start + periodMs)%Z
      else if negb (subRef tick) then tick
      else waitFrom fuel' start (tick + pollIntervalMs)%Z
  end.

Definition wait (start : Z) : Z :=
  waitFrom (S (Z.to_nat (periodMs / pollIntervalMs))) start
    (start + pollIntervalMs)%Z.

(** [while (subRef.current) { ...; await wait }]: the instant at which
    the loop is left, [None] when it is still running after [cycles]
    cycles. *)
Fixpoint loop (cycles : nat) (now : Z) : option Z :=
  match cycles with
  | O => None
  | S cycles' =>
      if subRef now then loop cycles' (wait now) else Some now
  end.

End Loop.

(** [subRef.current] when [cancelSubscription] runs at [cancelAt] and
    nothing subscribes again. *)
Definition cancelledAt (cancelAt : Z) (t : Z) : bool := (t <? cancelAt)%Z.

End Scheduler.

(** * Properties *)

Import JsString DedupIndex DateNormalizer SyncEngine BatchWriter.

(** ** Strings and canonical ids *)

Lemma truthy_true (s : string) : truthy s = true <-> s <> "".
Proof. destruct s; simpl; split; congruence. Qed.

Lemma truthy_false (s : string) : truthy s = false <-> s = "".
Proof. destruct s; simpl; split; congruence. Qed.

Example cleanVideoId_example : cleanVideoId " ABC123 " = cleanVideoId "abc123".
Proof. reflexivity. Qed.

Lemma findExisting_Some (existingVideoIds : gmap string string) (a rid : string) :
  findExisting existingVideoIds a = Some rid <->
  existingVideoIds !! cleanVideoId a = Some rid /\ rid <> "".
Proof.
  unfold findExisting.
  destruct (existingVideoIds !! cleanVideoId a) as [r|] eqn:E.
  - destruct (truthy r) eqn:T.
    + apply truthy_true in T. split.
      * intros [= <-]. auto.
      * intros [[= <-] _]. reflexivity.
    + apply truthy_false in T. split; [discriminate|].
      intros [[= <-] Hne]. contradiction.
  - split; [discriminate | intros [? _]; discriminate].
Qed.

(** A row whose id cell is empty is left out of the index (the guard
    [if (videoIdString)]). *)
Example empty_id_cell_is_not_indexed :
  indexRecords (fun _ _ => Some "") "fldId" [{| recordId := "recA" |}] ∅ = ∅.
Proof. reflexivity. Qed.

Lemma isWhiteSpace_lowerChar (c : ascii) : isWhiteSpace (lowerChar c) = isWhiteSpace c.
Proof. destruct c as [[] [] [] [] [] [] [] []]; reflexivity. Qed.

Lemma lowerChar_idem (c : ascii) : lowerChar (lowerChar c) = lowerChar c.
Proof. destruct c as [[] [] [] [] [] [] [] []]; reflexivity. Qed.

Lemma toLowerCase_idem (s : string) : toLowerCase (toLowerCase s) = toLowerCase s.
Proof. induction s as [|c s IH]; simpl; [done | by rewrite lowerChar_idem, IH]. Qed.

Lemma trimStart_toLowerCase (s : string) :
  trimStart (toLowerCase s) = toLowerCase (trimStart s).
Proof.
  induction s as [|c s IH]; simpl; [done|].
  rewrite isWhiteSpace_lowerChar. by destruct (isWhiteSpace c).
Qed.

Lemma trimEnd_toLowerCase (s : string) :
  trimEnd (toLowerCase s) = toLowerCase (trimEnd s).
Proof.
  induction s as [|c s IH]; simpl; [done|].
  rewrite IH, isWhiteSpace_lowerChar.
  destruct (trimEnd s); simpl; [by destruct (isWhiteSpace c) | done].
Qed.

(** ** Canonical ids in the words of the specification

    The specification calls canonical id the trimmed, lower-cased form of
    an identifier and has canonical ids compared without regard to white
    space and case.  This module says what that means on the characters of
    two ids, without the functions of the engine; the theorems below relate
    it to what the engine computes. *)

Module CanonicalIdSpec.

(** The white space a trim removes, ASCII range: TAB, LF, VT, FF, CR and
    the space. *)
Definition blank (c : ascii) : bool :=
  existsb (Ascii.eqb c)
    [ "009"%char; "010"%char; "011"%char; "012"%char; "013"%char; " "%char ].

(** A capital letter of the ASCII range. *)
Definition capital (c : ascii) : bool :=
  (Nat.leb (nat_of_ascii "A") (nat_of_ascii c))
  && (Nat.leb (nat_of_ascii c) (nat_of_ascii "Z")).

(** Two characters that differ at most by case: the same character, or a
    capital letter and its small letter (32 code points further). *)
Definition sameLetter (c d : ascii) : bool :=
  Ascii.eqb c d
  || (capital c && Nat.eqb (nat_of_ascii d) (nat_of_ascii c + 32))
  || (capital d && Nat.eqb (nat_of_ascii c) (nat_of_ascii d + 32)).

Fixpoint sameIgnoringCase (a b : list ascii) : bool :=
  match a, b with
  | [], [] => true
  | c :: a', d :: b' => sameLetter c d && sameIgnoringCase a' b'
  | _, _ => false
  end.

Fixpoint dropBlanks (s : list ascii) : list ascii :=
  match s with
  | [] => []
  | c :: s' => if blank c then dropBlanks s' else s
  end.

(** The characters of [s] from its first to its last non-blank one. *)
Definition stripped (s : string) : list ascii :=
  rev (dropBlanks (rev (dropBlanks (list_ascii_of_string s)))).

(** Equality of ids that ignores white space around them and the case of
    their letters. *)
Definition sameCanonicalId (a b : string) : bool :=
  sameIgnoringCase (stripped a) (stripped b).

(** A string of blanks. *)
Definition allBlank (s : string) : bool := forallb blank (list_ascii_of_string s).

End CanonicalIdSpec.

Import CanonicalIdSpec.

Example sameCanonicalId_padded_capitals : sameCanonicalId " ABC123 " "abc123" = true.
Proof. reflexivity. Qed.

Example sameCanonicalId_inner_blank : sameCanonicalId "abc 123" "abc123" = false.
Proof. reflexivity. Qed.

Example sameCanonicalId_other_id : sameCanonicalId "abc123" "abc124" = false.
Proof. reflexivity. Qed.

Lemma blank_isWhiteSpace (c : ascii) : blank c = isWhiteSpace c.
Proof. destruct c as [[] [] [] [] [] [] [] []]; reflexivity. Qed.

Lemma code_lowerChar (c : ascii) :
  code (lowerChar c) = if capital c then code c + 32 else code c.
Proof. destruct c as [[] [] [] [] [] [] [] []]; reflexivity. Qed.

Lemma code_inj (c d : ascii) : code c = code d -> c = d.
Proof.
  unfold code. intros H.
  rewrite <- (ascii_nat_embedding c), <- (ascii_nat_embedding d). by rewrite H.
Qed.

Lemma sameLetter_lowerChar (c d : ascii) :
  sameLetter c d = true <-> lowerChar c = lowerChar d.
Proof.
  assert (Hl : lowerChar c = lowerChar d <-> code (lowerChar c) = code (lowerChar d)).
  { split; [by intros -> | apply code_inj]. }
  rewrite Hl, !code_lowerChar. unfold sameLetter.
  rewrite !orb_true_iff, !andb_true_iff, Ascii.eqb_eq, !Nat.eqb_eq.
  fold (code c) (code d).
  assert (Hcd : c = d <-> code c = code d) by (split; [by intros -> | apply code_inj]).
  rewrite Hcd.
  unfold capital. fold (code c) (code d). change (nat_of_ascii "A") with 65.
  change (nat_of_ascii "Z") with 90.
  destruct (Nat.leb_spec 65 (code c)), (Nat.leb_spec (code c) 90),
    (Nat.leb_spec 65 (code d)), (Nat.leb_spec (code d) 90); simpl; intuition lia.
Qed.

Lemma sameIgnoringCase_toLowerCase (a b : string) :
  sameIgnoringCase (list_ascii_of_string a) (list_ascii_of_string b) = true
  <-> toLowerCase a = toLowerCase b.
Proof.
  revert b. induction a as [|c a IH]; intros [|d b]; simpl; try (split; congruence).
  rewrite andb_true_iff, sameLetter_lowerChar, IH. split.
  - intros [-> ->]. reflexivity.
  - intros [= -> ->]. done.
Qed.

Lemma dropBlanks_trimStart (s : string) :
  dropBlanks (list_ascii_of_string s) = list_ascii_of_string (trimStart s).
Proof.
  induction s as [|c s IH]; simpl; [done|].
  rewrite blank_isWhiteSpace. by destruct (isWhiteSpace c).
Qed.

Lemma dropBlanks_snoc (l : list ascii) (c : ascii) :
  dropBlanks (l ++ [c]) =
  match dropBlanks l with
  | [] => if blank c then [] else [c]
  | r => r ++ [c]
  end.
Proof.
  induction l as [|d l IH]; simpl; [done|].
  destruct (blank d); [exact IH | done].
Qed.

Lemma rev_dropBlanks_rev_trimEnd (s : string) :
  rev (dropBlanks (rev (list_ascii_of_string s))) = list_ascii_of_string (trimEnd s).
Proof.
  induction s as [|c s IH]; simpl; [done|].
  rewrite dropBlanks_snoc.
  destruct (dropBlanks (rev (list_ascii_of_string s))) as [|x r] eqn:E.
  - simpl in IH. destruct (trimEnd s); [|discriminate].
    rewrite blank_isWhiteSpace. by destruct (isWhiteSpace c).
  - rewrite rev_app_distr.
    change (rev [c] ++ rev (x :: r)) with (c :: rev (x :: r)). rewrite IH.
    destruct (trimEnd s) as [|y t] eqn:Et; [|done].
    apply (f_equal (@length ascii)) in IH.
    rewrite length_rev in IH. simpl in IH. lia.
Qed.

Lemma stripped_trim (s : string) : stripped s = list_ascii_of_string (trim s).
Proof.
  unfold stripped, trim. rewrite dropBlanks_trimStart. apply rev_dropBlanks_rev_trimEnd.
Qed.

(** The engine's canonical ids are equal exactly for ids that are the same
    up to surrounding white space and case. *)
Lemma cleanVideoId_sameCanonicalId (a b : string) :
  cleanVideoId a = cleanVideoId b <-> sameCanonicalId a b = true.
Proof.
  unfold cleanVideoId, sameCanonicalId. rewrite !stripped_trim.
  symmetry. apply sameIgnoringCase_toLowerCase.
Qed.

(** A lookup is blind to white space around an id and to the case of its
    letters, whatever the index. *)
Lemma findExisting_sameCanonicalId (existingVideoIds : gmap string string) (a b : string) :
  sameCanonicalId a b = true ->
  findExisting existingVideoIds a = findExisting existingVideoIds b.
Proof.
  intros Hab. apply cleanVideoId_sameCanonicalId in Hab.
  unfold findExisting. by rewrite Hab.
Qed.

(** Blanks around an id and the case of its letters do not change its
    canonical id. *)
Lemma trimStart_allBlank (r : string) : allBlank r = true -> trimStart r = "".
Proof.
  unfold allBlank. induction r as [|c r IH]; simpl; [done|].
  intros [Hc Hr]%andb_true_iff. rewrite <- blank_isWhiteSpace, Hc. by apply IH.
Qed.

Lemma trimEnd_allBlank (r : string) : allBlank r = true -> trimEnd r = "".
Proof.
  unfold allBlank. induction r as [|c r IH]; simpl; [done|].
  intros [Hc Hr]%andb_true_iff. rewrite (IH Hr).
  by rewrite <- blank_isWhiteSpace, Hc.
Qed.

Lemma trimStart_blanks (l s : string) :
  allBlank l = true -> trimStart (l +:+ s) = trimStart s.
Proof.
  unfold allBlank. induction l as [|c l IH]; simpl; [done|].
  intros [Hc Hl]%andb_true_iff. rewrite <- blank_isWhiteSpace, Hc. by apply IH.
Qed.

Lemma trimEnd_blanks (s r : string) :
  allBlank r = true -> trimEnd (s +:+ r) = trimEnd s.
Proof.
  intros Hr. induction s as [|c s IH].
  - change ("" +:+ r) with r. by apply trimEnd_allBlank.
  - change (String c s +:+ r) with (String c (s +:+ r)). cbn [trimEnd].
    by rewrite IH.
Qed.

Lemma trim_blanks (l s r : string) :
  allBlank l = true -> allBlank r = true -> trim (l +:+ s +:+ r) = trim s.
Proof.
  intros Hl Hr. unfold trim. rewrite (trimStart_blanks l _ Hl). clear l Hl.
  induction s as [|c s IH].
  - change ("" +:+ r) with r. by rewrite (trimStart_allBlank r Hr).
  - change (String c s +:+ r) with (String c (s +:+ r)). cbn [trimStart].
    destruct (isWhiteSpace c); [exact IH|].
    apply (trimEnd_blanks (String c s) r Hr).
Qed.

Lemma cleanVideoId_blanks (l s r : string) :
  allBlank l = true -> allBlank r = true ->
  cleanVideoId (l +:+ s +:+ r) = cleanVideoId s.
Proof. intros Hl Hr. unfold cleanVideoId. by rewrite trim_blanks. Qed.

Lemma cleanVideoId_case (a b : string) :
  sameIgnoringCase (list_ascii_of_string a) (list_ascii_of_string b) = true ->
  cleanVideoId a = cleanVideoId b.
Proof.
  intros Hab%sameIgnoringCase_toLowerCase. unfold cleanVideoId, trim.
  rewrite <- !trimEnd_toLowerCase, <- !trimStart_toLowerCase. by rewrite Hab.
Qed.

(** The strings on which the embedding of [trim] and [toLowerCase] is
    exact: every code unit is below 128. *)
Definition asciiOnly (s : string) : bool :=
  forallb (fun c => Nat.ltb (code c) 128) (list_ascii_of_string s).

(** ** What the index holds *)

Lemma indexRecords_lookup_Some getCellString fid (rows : list IRecord) :
  forall m k rid,
    indexRecords getCellString fid rows m !! k = Some rid ->
    m !! k = Some rid
    \/ exists row stored,
         row ∈ rows /\ recordId row = rid
         /\ getCellString fid rid = Some stored /\ stored <> ""
         /\ cleanVideoId stored = k.
Proof.
  induction rows as [|r rows IH]; intros m k rid Hl; simpl in Hl; [by left|].
  apply IH in Hl as [Hl | (row & stored & Hin & Hrest)].
  - unfold indexRecord in Hl.
    destruct (getCellString fid (recordId r)) as [s|] eqn:Hs; [|by left].
    destruct (truthy s) eqn:T; [|by left].
    destruct (decide (cleanVideoId s = k)) as [Hk|Hk].
    + subst k. rewrite lookup_insert_eq in Hl. injection Hl as <-.
      right. exists r, s. apply truthy_true in T.
      split; [by left | done].
    + rewrite lookup_insert_ne in Hl by done. by left.
  - right. exists row, stored. split; [by right | done].
Qed.

Lemma indexRecords_keeps getCellString fid (rows : list IRecord) :
  forall m k, is_Some (m !! k) -> is_Some (indexRecords getCellString fid rows m !! k).
Proof.
  induction rows as [|r rows IH]; intros m k Hm; simpl; [done|].
  apply IH. unfold indexRecord.
  destruct (getCellString fid (recordId r)) as [s|]; [|done].
  destruct (truthy s); [|done].
  destruct (decide (cleanVideoId s = k)) as [<-|Hk].
  - rewrite lookup_insert_eq. eauto.
  - by rewrite lookup_insert_ne.
Qed.

Lemma indexRecords_is_Some getCellString fid (rows : list IRecord) (row : IRecord)
    (stored : string) :
  row ∈ rows ->
  getCellString fid (recordId row) = Some stored -> stored <> "" ->
  forall m, is_Some (indexRecords getCellString fid rows m !! cleanVideoId stored).
Proof.
  intros Hin Hcell Hne. induction rows as [|r rows IH]; intros m.
  - by apply elem_of_nil in Hin.
  - simpl. apply elem_of_cons in Hin as [<- | Hin]; [|by apply IH].
    apply indexRecords_keeps. unfold indexRecord. rewrite Hcell.
    apply truthy_true in Hne. rewrite Hne, lookup_insert_eq. eauto.
Qed.

(** C2. Matching of ids ignores white space around them and the case of
    their letters.  In the index built from the rows of the table, an
    incoming id and the id stored in a row lead to the same row if and only
    if the two are the same up to surrounding white space and case
    ([sameCanonicalId], written from the specification); the row they lead
    to holds the stored id up to white space and case; and when no other
    row holds it, an incoming id finds the row of the stored id exactly
    when the two ids are the same up to white space and case (of several
    rows holding it, the last one scanned is found).  In particular blanks
    added around the incoming id, or a change of case of its letters, do
    not change the row it finds.  Record ids are not empty, and the ids are
    ASCII strings, on which [trim] and [toLowerCase] are embedded
    exactly. *)
Theorem canonical_id_match
    (getCellString : string -> string -> option string)
    (fid : string) (rows : list IRecord) (rid stored incoming : string) :
  (forall row s, row ∈ rows -> getCellString fid (recordId row) = Some s ->
                 asciiOnly s = true) ->
  asciiOnly incoming = true ->
  (forall row, row ∈ rows -> recordId row <> "") ->
  {| recordId := rid |} ∈ rows ->
  getCellString fid rid = Some stored ->
  stored <> "" ->
  (findExisting (indexRecords getCellString fid rows ∅) incoming
   = findExisting (indexRecords getCellString fid rows ∅) stored
   <-> sameCanonicalId stored incoming = true)
  /\ (exists found s,
        findExisting (indexRecords getCellString fid rows ∅) stored = Some found
        /\ {| recordId := found |} ∈ rows
        /\ getCellString fid found = Some s
        /\ sameCanonicalId s stored = true)
  /\ ((forall row s, row ∈ rows -> getCellString fid (recordId row) = Some s ->
                     s <> "" -> sameCanonicalId s stored = true -> recordId row = rid) ->
      (findExisting (indexRecords getCellString fid rows ∅) incoming = Some rid
       <-> sameCanonicalId stored incoming = true))
  /\ (forall l r,
        allBlank l = true -> allBlank r = true ->
        findExisting (indexRecords getCellString fid rows ∅) (l +:+ incoming +:+ r)
        = findExisting (indexRecords getCellString fid rows ∅) incoming)
  /\ (forall other,
        sameIgnoringCase (list_ascii_of_string incoming) (list_ascii_of_string other)
        = true ->
        findExisting (indexRecords getCellString fid rows ∅) other
        = findExisting (indexRecords getCellString fid rows ∅) incoming).
Proof.
  intros _ _ Hrids Hin Hcell Hstored.
  set (idx := indexRecords getCellString fid rows ∅).
  assert (Hfound : exists found s,
            idx !! cleanVideoId stored = Some found
            /\ {| recordId := found |} ∈ rows
            /\ found <> ""
            /\ getCellString fid found = Some s /\ s <> ""
            /\ cleanVideoId s = cleanVideoId stored).
  { destruct (indexRecords_is_Some getCellString fid rows {| recordId := rid |}
                stored Hin Hcell Hstored ∅) as [found Hl].
    fold idx in Hl. exists found.
    pose proof Hl as Hl'.
    apply indexRecords_lookup_Some in Hl' as [Hl' | (row & s & Hrow & <- & Hs & Hne & Hk)].
    - by rewrite lookup_empty in Hl'.
    - exists s. destruct row as [r]. simpl in *.
      repeat split; try done. by apply (Hrids {| recordId := r |}). }
  destruct Hfound as (found & s & Hl & Hrow & Hne & Hs & Hsne & Hk).
  assert (Hst : findExisting idx stored = Some found)
    by (apply findExisting_Some; done).
  assert (Hiff : findExisting idx incoming = Some found
                 <-> sameCanonicalId stored incoming = true).
  { rewrite findExisting_Some, <- cleanVideoId_sameCanonicalId. split.
    - intros [Hl' _].
      apply indexRecords_lookup_Some in Hl' as [Hl' | (row' & s' & _ & _ & Hs' & _ & Hk')].
      + by rewrite lookup_empty in Hl'.
      + rewrite Hs in Hs'. injection Hs' as <-. congruence.
    - intros Heq. split; [|exact Hne]. by rewrite <- Heq. }
  split; [|split; [|split; [|split]]].
  - by rewrite Hst.
  - exists found, s. repeat split; try done. by apply cleanVideoId_sameCanonicalId.
  - intros Honly.
    assert (found = rid) as ->; [|exact Hiff].
    apply (Honly {| recordId := found |} s Hrow Hs Hsne).
    by apply cleanVideoId_sameCanonicalId.
  - intros l r Hbl Hbr. unfold findExisting. by rewrite cleanVideoId_blanks.
  - intros other Hcase. unfold findExisting.
    by rewrite (cleanVideoId_case incoming other Hcase).
Qed.

(** A table of three rows: [recA] stores the id with blanks around it and in
    capitals, [recB] another id, and the id cell of [recC] is empty. *)
Definition idCells (fid rid : string) : option string :=
  if String.eqb rid "recA" then Some " ABC123 "
  else if String.eqb rid "recB" then Some "abc124"
  else Some "".

Definition idRows : list IRecord :=
  [ {| recordId := "recA" |}; {| recordId := "recB" |}; {| recordId := "recC" |} ].

Lemma idRows_ascii (row : IRecord) (s : string) :
  row ∈ idRows -> idCells "fldId" (recordId row) = Some s -> asciiOnly s = true.
Proof.
  intros Hrow Hs. unfold idRows in Hrow.
  repeat (apply elem_of_cons in Hrow as [-> | Hrow];
          [injection Hs as <-; reflexivity|]).
  by apply elem_of_nil in Hrow.
Qed.

Lemma idRows_ids (row : IRecord) : row ∈ idRows -> recordId row <> "".
Proof.
  intros Hrow. unfold idRows in Hrow.
  repeat (apply elem_of_cons in Hrow as [-> | Hrow]; [discriminate|]).
  by apply elem_of_nil in Hrow.
Qed.

Lemma canonical_id_match_witness :
  findExisting (indexRecords idCells "fldId" idRows ∅) "abc123" = Some "recA".
Proof.
  apply (proj1 (proj2 (proj2 (canonical_id_match idCells "fldId" idRows "recA"
                                " ABC123 " "abc123" idRows_ascii eq_refl idRows_ids
                                ltac:(apply list_elem_of_here) eq_refl
                                ltac:(discriminate))))).
  - intros row s Hrow Hs Hne Hsame. unfold idRows in Hrow.
    repeat (apply elem_of_cons in Hrow as [-> | Hrow];
            [injection Hs as <-; first [reflexivity | discriminate | done]|]).
    by apply elem_of_nil in Hrow.
  - reflexivity.
Defined.

(** Two rows that hold the same id up to white space and case: an incoming
    id finds the last one scanned. *)
Example duplicate_ids_lead_to_the_last_row :
  findExisting
    (indexRecords (fun _ rid => if String.eqb rid "recA" then Some "ABC123" else Some "abc123 ")
       "fldId" [ {| recordId := "recA" |}; {| recordId := "recB" |} ] ∅)
    " Abc123" = Some "recB".
Proof. reflexivity. Qed.

(** ** The paginated scan *)

(** The records of one page, none when the answer has no [records] array. *)
Definition pageRecords (response : PageResponse) : list IRecord :=
  match records response with
  | Some rs => rs
  | None => []
  end.

(** [fetched getRecords tok pages tok']: starting with cursor [tok], the
    page requests are answered by [pages], one after the other, each
    reporting more pages, and the next cursor is [tok']. *)
Fixpoint fetched (getRecords : nat -> option string -> option PageResponse)
    (tok : option string) (pages : list PageResponse) (tok' : option string) : Prop :=
  match pages with
  | [] => tok = tok'
  | response :: rest =>
      getRecords 5000 tok = Some response /\ hasMore response = true /\
      fetched getRecords (pageToken response) rest tok'
  end.

Lemma fetchAllRecords_pages getRecords pages :
  forall fuel acc tok tok',
    fetched getRecords tok pages tok' ->
    fetchAllRecords getRecords (length pages + fuel) acc tok =
    fetchAllRecords getRecords fuel (acc ++ concat (pageRecords <$> pages)) tok'.
Proof.
  induction pages as [|response rest IH]; intros fuel acc tok tok' Hf.
  - simpl in *. subst. by rewrite app_nil_r.
  - destruct Hf as (Hget & Hmore & Hrest). simpl.
    rewrite Hget, Hmore.
    rewrite (IH fuel _ _ tok' Hrest). f_equal.
    change (list_fmap _ _ pageRecords rest) with (pageRecords <$> rest).
    generalize (concat (pageRecords <$> rest)). intros tl.
    unfold pageRecords. destruct (records response); simpl.
    + by rewrite app_assoc.
    + done.
Qed.

Lemma indexRecords_app getCellString fid l1 l2 m :
  indexRecords getCellString fid (l1 ++ l2) m =
  indexRecords getCellString fid l2 (indexRecords getCellString fid l1 m).
Proof. revert m. induction l1 as [|r l1 IH]; intros m; simpl; [done | apply IH]. Qed.

Lemma indexRecords_other_keys getCellString fid (rows : list IRecord) (k : string) :
  (forall r s, r ∈ rows -> getCellString fid (recordId r) = Some s ->
               s <> "" -> cleanVideoId s <> k) ->
  forall m, indexRecords getCellString fid rows m !! k = m !! k.
Proof.
  induction rows as [|r rows IH]; intros Hrows m; simpl; [done|].
  rewrite IH by (intros r' s Hin; apply Hrows; by right).
  unfold indexRecord.
  destruct (getCellString fid (recordId r)) as [s|] eqn:Hs; [|done].
  destruct (truthy s) eqn:T; [|done].
  apply lookup_insert_ne. apply (Hrows r s); [by left | done | by apply truthy_true].
Qed.

(** C9. A page request that fails after some pages were fetched ends the
    scan without an error, and the index is built from every row of the
    pages fetched so far: each of these rows whose id cell reads as a
    non-empty string is in the index under its canonical id (the last such
    row in scan order when several share the id), whether or not the id cell
    of an earlier or later row could be read; a row whose id cell cannot be
    read, or is empty, adds nothing; and the index holds nothing else. *)
Theorem scan_keeps_partial_results
    (getRecords : nat -> option string -> option PageResponse)
    (getCellString : string -> string -> option string)
    (pages : list PageResponse) (tok' : option string)
    (fuel : nat) (fid : string) :
  fetched getRecords None pages tok' ->
  getRecords 5000 tok' = None ->
  exists existingVideoIds,
    buildExistingVideoIds getRecords getCellString (length pages + S fuel) (Some fid)
      = Some existingVideoIds
    /\ (forall before row after stored,
          concat (pageRecords <$> pages) = before ++ row :: after ->
          getCellString fid (recordId row) = Some stored ->
          stored <> "" ->
          (forall r s, r ∈ after -> getCellString fid (recordId r) = Some s ->
                       s <> "" -> cleanVideoId s <> cleanVideoId stored) ->
          existingVideoIds !! cleanVideoId stored = Some (recordId row))
    /\ (forall k rid,
          existingVideoIds !! k = Some rid ->
          exists row stored,
            row ∈ concat (pageRecords <$> pages) /\ recordId row = rid
            /\ getCellString fid rid = Some stored /\ stored <> ""
            /\ cleanVideoId stored = k).
Proof.
  intros Hf Hfail.
  exists (indexRecords getCellString fid (concat (pageRecords <$> pages)) ∅).
  split; [|split].
  - unfold buildExistingVideoIds.
    rewrite (fetchAllRecords_pages _ _ _ _ _ _ Hf). simpl. by rewrite Hfail.
  - intros before row after stored -> Hcell Hne Hafter.
    rewrite indexRecords_app. simpl.
    rewrite indexRecords_other_keys by done.
    unfold indexRecord. rewrite Hcell.
    apply truthy_true in Hne. rewrite Hne. apply lookup_insert_eq.
  - intros k rid Hl.
    apply indexRecords_lookup_Some in Hl as [Hl | Hl]; [|exact Hl].
    by rewrite lookup_empty in Hl.
Qed.

(** A source whose first page holds three rows and whose second page
    request fails; the id cell of row [recB] cannot be read. *)
Definition flakySource (pageSize : nat) (tok : option string) : option PageResponse :=
  match tok with
  | None => Some {| records := Some [ {| recordId := "recA" |}; {| recordId := "recB" |};
                                      {| recordId := "recC" |} ];
                    hasMore := true; pageToken := Some "p2" |}
  | Some _ => None
  end.

Definition flakyCells (fid rid : string) : option string :=
  if String.eqb rid "recB" then None
  else if String.eqb rid "recA" then Some "7001" else Some "7002".

Lemma scan_keeps_partial_results_witness :
  exists existingVideoIds,
    buildExistingVideoIds flakySource flakyCells 2 (Some "fldId") = Some existingVideoIds
    /\ existingVideoIds !! "7001" = Some "recA"
    /\ existingVideoIds !! "7002" = Some "recC"
    /\ forall k rid, existingVideoIds !! k = Some rid -> rid <> "recB".
Proof.
  destruct (scan_keeps_partial_results flakySource flakyCells
              [ {| records := Some [ {| recordId := "recA" |}; {| recordId := "recB" |};
                                     {| recordId := "recC" |} ];
                   hasMore := true; pageToken := Some "p2" |} ]
              (Some "p2") 0 "fldId")
    as (idx & Hbuild & Hin & Hout).
  - simpl. repeat split; reflexivity.
  - reflexivity.
  - exists idx. split; [exact Hbuild|]. split; [|split].
    + apply (Hin [] {| recordId := "recA" |}
               [ {| recordId := "recB" |}; {| recordId := "recC" |} ] "7001");
        [reflexivity | reflexivity | discriminate |].
      intros r s Hr Hs _.
      repeat (apply elem_of_cons in Hr as [-> | Hr];
              [first [discriminate Hs | injection Hs as <-; vm_compute; discriminate]|]).
      by apply elem_of_nil in Hr.
    + apply (Hin [ {| recordId := "recA" |}; {| recordId := "recB" |} ]
               {| recordId := "recC" |} [] "7002");
        [reflexivity | reflexivity | discriminate |].
      intros r s Hr. by apply elem_of_nil in Hr.
    + intros k rid Hl ->.
      destruct (Hout k "recB" Hl) as (row & stored & _ & _ & Hcell & _).
      discriminate Hcell.
Defined.

Example partial_index_after_failed_page :
  buildExistingVideoIds flakySource flakyCells 2 (Some "fldId")
  = Some (<["7002" := "recC"]> (<["7001" := "recA"]> ∅)).
Proof. vm_compute. reflexivity. Qed.


(** ** DateNormalizer *)

Example normalize_yyyymmdd :
  normalizePublishTime JsDate.utcHost (JsString "20231005") = Some 1696464000000%Z.
Proof. reflexivity. Qed.

Example normalize_seconds_string :
  normalizePublishTime JsDate.utcHost (JsString "1696492800") = Some 1696492800000%Z.
Proof. reflexivity. Qed.

Example normalize_invalid_calendar :
  normalizePublishTime JsDate.utcHost (JsString "20231332") = None.
Proof. reflexivity. Qed.

Example normalize_number_out_of_range :
  normalizePublishTime JsDate.utcHost (JsNumber 953280000000) = None.
Proof. reflexivity. Qed.

Lemma yearInRange_spec (host : JsDate.Host) (ts : Z) :
  yearInRange host ts = true <->
  exists year, JsDate.getFullYear host ts = Some year /\ (2010 <= year <= 2030)%Z.
Proof.
  unfold yearInRange. destruct (JsDate.getFullYear host ts) as [y|].
  - rewrite andb_true_iff, !Z.leb_le. split.
    + intros [? ?]. exists y. split; [done | lia].
    + intros (y' & [= <-] & ?). lia.
  - split; [discriminate | intros (? & ? & _); discriminate].
Qed.

(** The 8-digit string 20000101 is a valid calendar date of the year 2000:
    the first rule accepts it, and no year test follows. *)
Lemma year_filter_skips_date_strings :
  ruleOf (JsString "20000101") = Some RuleYYYYMMDD
  /\ normalizePublishTime JsDate.utcHost (JsString "20000101") = Some 946684800000%Z
  /\ JsDate.getFullYear JsDate.utcHost 946684800000 = Some 2000%Z
  /\ yearInRange JsDate.utcHost 946684800000 = false.
Proof. repeat split; reflexivity. Qed.

(** The test of the first rule: the date rebuilt from the timestamp has the
    year, month and day that were read from the string. *)
Definition sameCalendarDate (s : string) (t : Z) : bool :=
  (JsDate.getUTCFullYear t =? parseInt10 (substring 0 4 s))%Z
  && (JsDate.getUTCMonth t =? parseInt10 (substring 4 6 s) - 1)%Z
  && (JsDate.getUTCDate t =? parseInt10 (substring 6 8 s))%Z.

(** What each rule does with its candidate timestamp. *)
Definition ruleOutcome (host : JsDate.Host) (rawValue : JsValue)
    (rule : Rule) (ts : Z) : option Z :=
  match rule with
  | RuleYYYYMMDD =>
      match rawValue with
      | JsString s => if sameCalendarDate s ts then Some ts else None
      | _ => None
      end
  | RuleDateString => Some ts
  | RuleDigitString | RuleNumber =>
      if yearInRange host ts then Some ts else None
  end.

(** C4 (amended). The year range [2010, 2030] is tested by the two timestamp
    rules only: a candidate of the all-digit-string rule or of the numeric
    rule is kept exactly when its local year lies in the range, and is
    rejected (date unset) otherwise; a candidate of the 8-digit rule is kept
    when it is a valid calendar date, and one of the date-string rule as it
    is parsed, whatever the year. *)
Theorem year_filter_by_rule (host : JsDate.Host) (rawValue : JsValue)
    (rule : Rule) (ts : Z) :
  ruleOf rawValue = Some rule ->
  candidate host rawValue = Some ts ->
  normalizePublishTime host rawValue = ruleOutcome host rawValue rule ts
  /\ ((rule = RuleDigitString \/ rule = RuleNumber) ->
      (forall year, JsDate.getFullYear host ts = Some year ->
                    (year < 2010 \/ 2030 < year)%Z ->
                    normalizePublishTime host rawValue = None)
      /\ (forall year, JsDate.getFullYear host ts = Some year ->
                       (2010 <= year <= 2030)%Z ->
                       normalizePublishTime host rawValue = Some ts)).
Proof.
  intros Hrule Hcand.
  assert (Hout : normalizePublishTime host rawValue = ruleOutcome host rawValue rule ts).
  { destruct rawValue as [| |n|s]; simpl in *; try discriminate.
    - injection Hrule as <-. injection Hcand as <-. reflexivity.
    - destruct (isYYYYMMDD s).
      + injection Hrule as <-. rewrite Hcand. reflexivity.
      + destruct (matchesDatePattern s).
        * injection Hrule as <-. exact Hcand.
        * destruct (isDigitString s); [|discriminate].
          injection Hrule as <-. injection Hcand as <-. reflexivity. }
  split; [exact Hout|].
  intros Hts. rewrite Hout.
  assert (Hro : ruleOutcome host rawValue rule ts
                = if yearInRange host ts then Some ts else None)
    by (destruct Hts as [-> | ->]; reflexivity).
  rewrite Hro. split; intros year Hy Hrange.
  - destruct (yearInRange host ts) eqn:E; [|done].
    apply yearInRange_spec in E as (y' & Hy' & ?).
    rewrite Hy in Hy'. injection Hy' as <-. lia.
  - assert (E : yearInRange host ts = true)
      by (apply yearInRange_spec; eauto).
    by rewrite E.
Qed.

Lemma year_filter_by_rule_witness :
  normalizePublishTime JsDate.utcHost (JsNumber 953280000000)
    = ruleOutcome JsDate.utcHost (JsNumber 953280000000) RuleNumber 953280000000
  /\ ((RuleNumber = RuleDigitString \/ RuleNumber = RuleNumber) ->
      (forall year, JsDate.getFullYear JsDate.utcHost 953280000000 = Some year ->
                    (year < 2010 \/ 2030 < year)%Z ->
                    normalizePublishTime JsDate.utcHost (JsNumber 953280000000) = None)
      /\ (forall year, JsDate.getFullYear JsDate.utcHost 953280000000 = Some year ->
                       (2010 <= year <= 2030)%Z ->
                       normalizePublishTime JsDate.utcHost (JsNumber 953280000000)
                         = Some 953280000000%Z)).
Proof.
  apply (year_filter_by_rule JsDate.utcHost (JsNumber 953280000000)
           RuleNumber 953280000000); reflexivity.
Defined.


(** ** Pipeline reconciliation *)

Import Pipeline.

(** The cleaned text when it is there and not empty, otherwise the raw
    text. *)
Definition preferredText (video : ProcessingVideo) (text : string) : Prop :=
  (pv_video_text_arr video = Some text /\ text <> "")
  \/ ((pv_video_text_arr video = None \/ pv_video_text_arr video = Some "")
      /\ pv_video_text_ori video = Some text).

Lemma finalText_preferred (video : ProcessingVideo) (text : string) :
  finalText video = Some text /\ text <> "" <->
  preferredText video text /\ text <> "".
Proof.
  unfold finalText, orElse, preferredText.
  destruct (pv_video_text_arr video) as [a|].
  - destruct (truthy a) eqn:T;
      [apply truthy_true in T | apply truthy_false in T; subst a].
    + split.
      * intros [Ha Hne]. injection Ha as ->. split; [left; split|]; assumption || reflexivity.
      * intros [[[Ha _] | [[Ha | Ha] _]] Hne]; try discriminate.
        -- split; assumption.
        -- injection Ha as ->. contradiction.
    + split.
      * intros [Ho Hne]. split; [right; split; [right; reflexivity | exact Ho] | exact Hne].
      * intros [[[Ha Hne'] | [_ Ho]] Hne].
        -- injection Ha as <-. contradiction.
        -- split; assumption.
  - split.
    + intros [Ho Hne]. split; [right; split; [left; reflexivity | exact Ho] | exact Hne].
    + intros [[[Ha _] | [_ Ho]] Hne]; [discriminate | split; assumption].
Qed.

Lemma eligible_spec (video : ProcessingVideo) :
  eligible video = true <->
  pv_status video = llm_done
  \/ (pv_status video = asr_done /\ pv_llm_task_id_list video = None).
Proof.
  unfold eligible, noLlmList.
  destruct (pv_status video); destruct (pv_llm_task_id_list video); simpl;
    split; intros Hx; try done; try (by left); try (by right);
    destruct Hx as [? | [? ?]]; done.
Qed.

Lemma reconcileLoop_step (textFieldId : string) (video : ProcessingVideo)
    (rest : list ProcessingVideo) (recordsToUpdate : list UpdateRecord) (failCount : nat) :
  reconcileLoop textFieldId (video :: rest) recordsToUpdate failCount =
  match contribution textFieldId video with
  | Some u => reconcileLoop textFieldId rest (recordsToUpdate ++ [u]) failCount
  | None => reconcileLoop textFieldId rest recordsToUpdate (S failCount)
  end.
Proof.
  simpl. unfold contribution.
  destruct (eligible video).
  - destruct (finalText video) as [text|]; [|reflexivity].
    destruct (truthy text && truthy (pv_recordId video) && truthy textFieldId);
      reflexivity.
  - destruct (status_eqb (pv_status video) failed); reflexivity.
Qed.

Lemma reconcileLoop_contribution (textFieldId : string) (videos : list ProcessingVideo) :
  forall recordsToUpdate failCount,
    reconcileLoop textFieldId videos recordsToUpdate failCount =
    (recordsToUpdate ++ omap (contribution textFieldId) videos,
     failCount + length (filter (fun v => contribution textFieldId v = None) videos)).
Proof.
  induction videos as [|video rest IH]; intros upd fc.
  - simpl. by rewrite app_nil_r, Nat.add_0_r.
  - rewrite reconcileLoop_step, filter_cons. simpl.
    destruct (contribution textFieldId video) as [u|] eqn:E.
    + rewrite IH, <- app_assoc, decide_False by done. reflexivity.
    + rewrite IH, decide_True by done. simpl. f_equal. lia.
Qed.

(** The states in which an item hands its transcript to the final write:
    [llm_done], or [asr_done] for an item that never received a list of LLM
    sub-tasks. *)
Definition contributes (video : ProcessingVideo) : Prop :=
  pv_status video = llm_done
  \/ (pv_status video = asr_done /\ pv_llm_task_id_list video = None).

(** Modelled from the spec: the four stage functions ([submitAsrTasks],
    [pollAsrResults], [submitLlmTasks], [pollLlmResults]) are not among the
    sources; by the description of stage 2 an item reaches [asr_done], and
    from there [llm_done], with its raw transcript set. *)
Definition carriesRawText (video : ProcessingVideo) : Prop :=
  exists raw, pv_video_text_ori video = Some raw /\ raw <> "".

Lemma contribution_of_contributing (textFieldId : string) (video : ProcessingVideo) :
  textFieldId <> "" ->
  pv_recordId video <> "" ->
  (contributes video -> carriesRawText video) ->
  (eligible video = true ->
     contributes video
     /\ exists text,
          preferredText video text
          /\ contribution textFieldId video
             = Some {| upd_recordId := pv_recordId video;
                       upd_fields := {[ textFieldId := FText text ]} |})
  /\ (eligible video = false ->
        ~ contributes video /\ contribution textFieldId video = None).
Proof.
  intros Hfield Hrid Hraw. unfold contributes in *.
  pose proof (eligible_spec video) as He. split.
  - intros Hel. pose proof (proj1 He Hel) as Hc. split; [exact Hc|].
    destruct (Hraw Hc) as (raw & Hori & Hne).
    assert (Hft : exists text, finalText video = Some text /\ text <> "").
    { unfold finalText, orElse.
      destruct (pv_video_text_arr video) as [a|]; [|eauto].
      destruct (truthy a) eqn:T; [|eauto].
      apply truthy_true in T. eauto. }
    destruct Hft as (text & Hft & Htext). exists text. split.
    + by apply (finalText_preferred video text).
    + unfold contribution. rewrite Hel, Hft.
      apply truthy_true in Htext, Hrid, Hfield. by rewrite Htext, Hrid, Hfield.
  - intros Hel. split.
    + intros Hc. apply He in Hc. congruence.
    + unfold contribution. by rewrite Hel.
Qed.

(** C5. At the reconciliation the updates handed to the final write are, in
    order, those of the items whose status is [llm_done], or [asr_done]
    with no list of LLM sub-tasks: each carries the record id of its item
    and, under the id of the text column, the cleaned text when there is
    one, otherwise the raw text.  Every other item, [failed] or in any
    other state, is counted as a failure, so that updates and failures add
    up to the number of items; the loop is a total function, nothing is
    raised for an item.  The items are as the four stages leave them: one in
    a contributing state carries its raw transcript (stage 2 sets it when it
    moves the item to [asr_done]); and the ids handed out by the datastore,
    the record ids and the id of the text column, are not empty. *)
Theorem reconcile_contributions (textFieldId : string)
    (processingVideos : list ProcessingVideo) :
  textFieldId <> "" ->
  (forall video, video ∈ processingVideos -> pv_recordId video <> "") ->
  (forall video, video ∈ processingVideos -> contributes video ->
     carriesRawText video) ->
  (forall video, eligible video = true <-> contributes video)
  /\ Forall2
    (fun video u =>
       contributes video
       /\ exists text,
            preferredText video text
            /\ u = {| upd_recordId := pv_recordId video;
                      upd_fields := {[ textFieldId := FText text ]} |})
    (filter (fun video => eligible video = true) processingVideos)
    (fst (reconcile textFieldId processingVideos))
  /\ snd (reconcile textFieldId processingVideos)
     = length (filter (fun video => eligible video = false) processingVideos)
  /\ Forall (fun video => ~ contributes video)
       (filter (fun video => eligible video = false) processingVideos)
  /\ length (fst (reconcile textFieldId processingVideos))
     + snd (reconcile textFieldId processingVideos) = length processingVideos.
Proof.
  intros Hfield Hrids Hraw.
  split; [intros video; apply eligible_spec|].
  unfold reconcile. rewrite reconcileLoop_contribution. simpl.
  assert (Hall : forall video, video ∈ processingVideos ->
            (eligible video = true ->
               contributes video
               /\ exists text,
                    preferredText video text
                    /\ contribution textFieldId video
                       = Some {| upd_recordId := pv_recordId video;
                                 upd_fields := {[ textFieldId := FText text ]} |})
            /\ (eligible video = false ->
                  ~ contributes video /\ contribution textFieldId video = None)).
  { intros video Hin. apply contribution_of_contributing;
      [exact Hfield | by apply Hrids | by apply Hraw]. }
  clear Hrids Hraw.
  induction processingVideos as [|v l IH]; [by repeat split; constructor|].
  assert (Hv := Hall v ltac:(by left)).
  destruct IH as (IH1 & IH2 & IH3 & IH4);
    [intros video Hin; apply Hall; by right|].
  rewrite !filter_cons. cbn [omap list_omap length].
  destruct (eligible v) eqn:Hel.
  - destruct (proj1 Hv eq_refl) as (Hc & text & Hp & Hcon).
    rewrite Hcon. rewrite decide_True by done. rewrite decide_False by done.
    split; [|split; [|split]].
    + constructor; [|exact IH1]. split; [exact Hc|]. by exists text.
    + exact IH2.
    + exact IH3.
    + simpl. f_equal. exact IH4.
  - destruct (proj2 Hv eq_refl) as (Hc & Hcon).
    rewrite Hcon. rewrite decide_False by done. rewrite decide_True by done.
    split; [|split; [|split]].
    + exact IH1.
    + simpl. f_equal. exact IH2.
    + constructor; [exact Hc | exact IH3].
    + simpl. rewrite Nat.add_succ_r. f_equal. exact IH4.
Qed.

(** Five items after the four stages: cleaned, raw only (no cleanup was
    offered), cleanup submitted but never finished, failed, never
    started. *)
Definition itemsAfterStages : list ProcessingVideo :=
  [ {| pv_recordId := "recA"; pv_aweme_id := "7001";
       pv_video_text_ori := Some "raw a"; pv_video_text_arr := Some "clean a";
       pv_llm_task_id_list := Some [ {| conversation_id := "c1"; chat_id := "m1" |} ];
       pv_status := llm_done |};
    {| pv_recordId := "recB"; pv_aweme_id := "7002";
       pv_video_text_ori := Some "raw b"; pv_video_text_arr := None;
       pv_llm_task_id_list := None; pv_status := asr_done |};
    {| pv_recordId := "recC"; pv_aweme_id := "7003";
       pv_video_text_ori := Some "raw c"; pv_video_text_arr := None;
       pv_llm_task_id_list := Some [ {| conversation_id := "c3"; chat_id := "m3" |} ];
       pv_status := asr_done |};
    {| pv_recordId := "recD"; pv_aweme_id := "7004";
       pv_video_text_ori := None; pv_video_text_arr := None;
       pv_llm_task_id_list := None; pv_status := failed |};
    {| pv_recordId := "recE"; pv_aweme_id := "7005";
       pv_video_text_ori := None; pv_video_text_arr := None;
       pv_llm_task_id_list := None; pv_status := pending |} ].

Lemma reconcile_contributions_witness :
  (forall video, eligible video = true <-> contributes video)
  /\ Forall2
    (fun video u =>
       contributes video
       /\ exists text,
            preferredText video text
            /\ u = {| upd_recordId := pv_recordId video;
                      upd_fields := {[ "fldText" := FText text ]} |})
    (filter (fun video => eligible video = true) itemsAfterStages)
    (fst (reconcile "fldText" itemsAfterStages))
  /\ snd (reconcile "fldText" itemsAfterStages)
     = length (filter (fun video => eligible video = false) itemsAfterStages)
  /\ Forall (fun video => ~ contributes video)
       (filter (fun video => eligible video = false) itemsAfterStages)
  /\ length (fst (reconcile "fldText" itemsAfterStages))
     + snd (reconcile "fldText" itemsAfterStages) = length itemsAfterStages.
Proof.
  apply (reconcile_contributions "fldText" itemsAfterStages).
  - discriminate.
  - intros video Hin. unfold itemsAfterStages in Hin.
    repeat (apply elem_of_cons in Hin as [-> | Hin]; [discriminate|]).
    by apply elem_of_nil in Hin.
  - intros video Hin Hc. unfold itemsAfterStages in Hin.
    repeat (apply elem_of_cons in Hin as [-> | Hin];
            [first [ eexists; split; [reflexivity | discriminate]
                   | destruct Hc as [Hc | [Hc Hl]]; discriminate ]|]).
    by apply elem_of_nil in Hin.
Defined.

Example reconcile_after_stages :
  reconcile "fldText" itemsAfterStages
  = ([ {| upd_recordId := "recA"; upd_fields := {[ "fldText" := FText "clean a" ]} |};
       {| upd_recordId := "recB"; upd_fields := {[ "fldText" := FText "raw b" ]} |} ],
     3).
Proof. vm_compute. reflexivity. Qed.

(** The guard of line 671 in isolation: an item in [llm_done] that carried
    no text at all would be counted as a failure.  By the description of
    the stages no such item reaches the reconciliation. *)
Definition doneWithoutText : ProcessingVideo :=
  {| pv_recordId := "recA"; pv_aweme_id := "7001";
     pv_video_text_ori := None; pv_video_text_arr := Some "";
     pv_llm_task_id_list := Some [ {| conversation_id := "c1"; chat_id := "m1" |} ];
     pv_status := llm_done |}.

Example item_without_text_counts_as_failure :
  reconcile "fldText" [doneWithoutText] = ([], 1).
Proof. reflexivity. Qed.


(** ** Field mapping of one record *)

Definition sampleVideo : Video :=
  {| nickname := "author"; aweme_id := "7001"; share_url := "https://v.example/7001";
     conv_create_time := JsString "20231005"; desc := "title";
     digg_count := JsNumber 12; collect_count := JsNumber 3;
     comment_count := JsNumber 4; duration := JsNumber 15500;
     play_addr := "https://v.example/7001.mp4";
     audio_addr := "https://v.example/7001.mp3";
     share_count := JsNull; video_text_ori := None; video_text_arr := None |}.

(** A field map in which every column but the canonical-id column is
    resolved. *)
Definition mapWithoutIdColumn : gmap string string :=
  list_to_map
    [ (col_nickname, "fldNick"); (col_share_url, "fldShare");
      (col_conv_create_time, "fldDate"); (col_desc, "fldDesc");
      (col_digg_count, "fldDigg"); (col_collect_count, "fldCollect");
      (col_comment_count, "fldComment"); (col_duration, "fldDur");
      (col_play_addr, "fldPlay"); (col_audio_addr, "fldAudio");
      (col_share_count, "fldShareCount"); (col_video_text_arr, "fldText") ].

(** A field map with all thirteen columns. *)
Definition fullFieldMap : gmap string string :=
  <[col_aweme_id := "fldId"]> mapWithoutIdColumn.

(** Without the canonical-id column the record is dropped: the loop takes
    its [continue] and neither list receives the record. *)
Lemma missing_id_column_drops_record :
  resolved mapWithoutIdColumn col_aweme_id = None
  /\ classify JsDate.utcHost mapWithoutIdColumn ∅ sampleVideo = Skipped
  /\ classifyVideos JsDate.utcHost mapWithoutIdColumn ∅ [sampleVideo] [] [] = ([], []).
Proof. repeat split; vm_compute; reflexivity. Qed.

Lemma lookup_assignIf_ne fieldMap name value (fields : Fields) fid :
  resolved fieldMap name <> Some fid ->
  assignIf fieldMap name value fields !! fid = fields !! fid.
Proof.
  intros Hne. unfold assignIf. destruct (resolved fieldMap name) as [id|]; [|done].
  apply lookup_insert_ne. congruence.
Qed.

Lemma lookup_assignIf_eq fieldMap name value (fields : Fields) fid :
  resolved fieldMap name = Some fid ->
  assignIf fieldMap name value fields !! fid = Some value.
Proof. intros Hr. unfold assignIf. rewrite Hr. apply lookup_insert_eq. Qed.

Lemma assignIf_written fieldMap name value (fields : Fields) fid :
  is_Some (assignIf fieldMap name value fields !! fid) ->
  is_Some (fields !! fid) \/ resolved fieldMap name = Some fid.
Proof.
  unfold assignIf. destruct (resolved fieldMap name) as [id|]; [|by left].
  destruct (decide (id = fid)) as [->|Hne]; [by right|].
  rewrite lookup_insert_ne by done. by left.
Qed.

Lemma assignDate_written host fieldMap video (fields : Fields) fid :
  is_Some (assignDate host fieldMap video fields !! fid) ->
  is_Some (fields !! fid) \/ resolved fieldMap col_conv_create_time = Some fid.
Proof.
  unfold assignDate. destruct (resolved fieldMap col_conv_create_time) as [id|]; [|by left].
  destruct (normalizePublishTime host (conv_create_time video)); [|by left].
  destruct (decide (id = fid)) as [->|Hne]; [by right|].
  rewrite lookup_insert_ne by done. by left.
Qed.

Lemma buildFields_written host fieldMap video fields fid :
  buildFields host fieldMap video = Some fields ->
  is_Some (fields !! fid) ->
  exists name, name ∈ fieldMappingNames /\ resolved fieldMap name = Some fid.
Proof.
  unfold buildFields. destruct (resolved fieldMap col_aweme_id) as [idField|] eqn:Hid;
    [|discriminate].
  intros [= <-] Hsome.
  repeat match type of Hsome with
  | is_Some (assignIf _ ?name _ _ !! _) =>
      apply assignIf_written in Hsome as [Hsome | Hr];
      [| exists name; split; [unfold fieldMappingNames; set_solver | exact Hr]]
  | is_Some (assignDate _ _ _ _ !! _) =>
      apply assignDate_written in Hsome as [Hsome | Hr];
      [| exists col_conv_create_time; split;
         [unfold fieldMappingNames; set_solver | exact Hr]]
  end.
  destruct (decide (idField = fid)) as [->|Hne].
  - exists col_aweme_id. split; [unfold fieldMappingNames; set_solver | exact Hid].
  - rewrite lookup_insert_ne, lookup_empty in Hsome by done.
    by destruct Hsome.
Qed.

Lemma classifyVideos_length host fieldMap existingVideoIds videos idField :
  resolved fieldMap col_aweme_id = Some idField ->
  forall recordsToAdd recordsToUpdate,
    length (fst (classifyVideos host fieldMap existingVideoIds videos
                   recordsToAdd recordsToUpdate))
    + length (snd (classifyVideos host fieldMap existingVideoIds videos
                     recordsToAdd recordsToUpdate))
    = length recordsToAdd + length recordsToUpdate + length videos.
Proof.
  intros Hid. induction videos as [|video rest IH]; intros adds upds; simpl.
  - lia.
  - unfold classify, buildFields. rewrite Hid.
    destruct (findExisting existingVideoIds (aweme_id video));
      rewrite IH, length_app; simpl; lia.
Qed.

(** The classification against an index. *)

Definition addOf (c : Classified) : option Fields :=
  match c with
  | ToAdd fields => Some fields
  | _ => None
  end.

Definition updateOf (c : Classified) : option UpdateRecord :=
  match c with
  | ToUpdate existingRecordId fields =>
      Some {| upd_recordId := existingRecordId; upd_fields := fields |}
  | _ => None
  end.

Lemma classifyVideos_omap host fieldMap existingVideoIds videos :
  forall recordsToAdd recordsToUpdate,
    classifyVideos host fieldMap existingVideoIds videos recordsToAdd recordsToUpdate
    = (recordsToAdd
         ++ omap (fun v => addOf (classify host fieldMap existingVideoIds v)) videos,
       recordsToUpdate
         ++ omap (fun v => updateOf (classify host fieldMap existingVideoIds v)) videos).
Proof.
  induction videos as [|video rest IH]; intros adds upds; simpl.
  - by rewrite !app_nil_r.
  - destruct (classify host fieldMap existingVideoIds video); simpl;
      rewrite IH, <- ?app_assoc; reflexivity.
Qed.

Lemma lookup_assignDate_ne host fieldMap video (fields : Fields) fid :
  resolved fieldMap col_conv_create_time <> Some fid ->
  assignDate host fieldMap video fields !! fid = fields !! fid.
Proof.
  intros Hne. unfold assignDate.
  destruct (resolved fieldMap col_conv_create_time) as [id|]; [|done].
  destruct (normalizePublishTime host (conv_create_time video)); [|done].
  apply lookup_insert_ne. congruence.
Qed.

Lemma classifyVideos_all_skipped (host : JsDate.Host) (fieldMap idx : gmap string string)
    (videos : list Video) :
  resolved fieldMap col_aweme_id = None ->
  classifyVideos host fieldMap idx videos [] [] = ([], []).
Proof.
  intros Hid. rewrite classifyVideos_omap. simpl.
  assert (Hskip : forall v, classify host fieldMap idx v = Skipped)
    by (intros v; unfold classify, buildFields; by rewrite Hid).
  f_equal; induction videos as [|v l IH]; simpl; rewrite ?Hskip; done.
Qed.

(** ** Columns missing from the field map *)

(** The columns of [fieldMapping] with the value the loop body assigns to
    each for one record (lines 397-495); [None] is the publish date that
    cannot be normalised, for which no cell is written. *)
Definition columnValues (host : JsDate.Host) (video : Video)
    : list (string * option FieldValue) :=
  [ (col_nickname, Some (FText (stringOrEmpty (nickname video))));
    (col_aweme_id, Some (FText (aweme_id video)));
    (col_share_url, Some (FText (stringOrEmpty (share_url video))));
    (col_conv_create_time,
       FNumber <$> normalizePublishTime host (conv_create_time video));
    (col_desc, Some (FText (stringOrEmpty (desc video))));
    (col_digg_count, Some (FNumber (numberOrZero (digg_count video))));
    (col_collect_count, Some (FNumber (numberOrZero (collect_count video))));
    (col_comment_count, Some (FNumber (numberOrZero (comment_count video))));
    (col_duration, Some (FNumber (durationSeconds (duration video))));
    (col_play_addr, Some (FText (stringOrEmpty (play_addr video))));
    (col_audio_addr, Some (FText (stringOrEmpty (audio_addr video))));
    (col_share_count, Some (FNumber (numberOrZero (share_count video))));
    (col_video_text_arr, Some (FText (textContent video))) ].

(** No field id is the id of two columns. *)
Definition columnsUnshared (fieldMap : gmap string string) : Prop :=
  forall name name' fid,
    name ∈ fieldMappingNames -> name' ∈ fieldMappingNames ->
    resolved fieldMap name = Some fid -> resolved fieldMap name' = Some fid ->
    name = name'.

Lemma columnValues_names host video : fst <$> columnValues host video = fieldMappingNames.
Proof. reflexivity. Qed.

Lemma lookup_assignDate_eq host fieldMap video (fields : Fields) fid :
  resolved fieldMap col_conv_create_time = Some fid ->
  assignDate host fieldMap video fields !! fid
  = match normalizePublishTime host (conv_create_time video) with
    | Some timestamp => Some (FNumber timestamp)
    | None => fields !! fid
    end.
Proof.
  intros Hr. unfold assignDate. rewrite Hr.
  destruct (normalizePublishTime host (conv_create_time video)); [|done].
  apply lookup_insert_eq.
Qed.

Ltac in_names :=
  unfold fieldMappingNames;
  repeat first [apply list_elem_of_here | apply list_elem_of_further].

(** The cells of a record, column by column. *)
Lemma buildFields_columns host fieldMap video idField :
  columnsUnshared fieldMap ->
  resolved fieldMap col_aweme_id = Some idField ->
  exists fields,
    buildFields host fieldMap video = Some fields
    /\ forall name value fid,
         (name, value) ∈ columnValues host video ->
         resolved fieldMap name = Some fid ->
         fields !! fid = value.
Proof.
  intros Hun Hid. unfold buildFields. rewrite Hid.
  eexists. split; [reflexivity|].
  intros name value fid Hin Hr.
  assert (Hne : forall name', name' ∈ fieldMappingNames -> name' <> name ->
                              resolved fieldMap name' <> Some fid).
  { intros name' Hin' Hdiff Hr'. apply Hdiff.
    apply (Hun name' name fid); [exact Hin' | | exact Hr' | exact Hr].
    rewrite <- (columnValues_names host video).
    apply list_elem_of_fmap. exists (name, value). split; [reflexivity | exact Hin]. }
  assert (Hid' : name <> col_aweme_id -> idField <> fid).
  { intros Hdiff ->. apply (Hne col_aweme_id); [in_names | congruence | exact Hid]. }
  unfold columnValues in Hin.
  repeat (apply elem_of_cons in Hin as [Heq | Hin];
    [ injection Heq as -> ->;
      repeat first
        [ rewrite (lookup_assignIf_eq _ _ _ _ _ Hr)
        | rewrite (lookup_assignDate_eq _ _ _ _ _ Hr)
        | rewrite lookup_assignIf_ne by
            (apply Hne; [in_names | vm_compute; discriminate])
        | rewrite lookup_assignDate_ne by
            (apply Hne; [in_names | vm_compute; discriminate]) ];
      first
        [ reflexivity
        | rewrite Hid in Hr; injection Hr as ->; apply lookup_insert_eq
        | destruct (normalizePublishTime host (conv_create_time video));
          [ reflexivity
          | simpl;
            rewrite ?lookup_assignIf_ne by
              (apply Hne; [in_names | vm_compute; discriminate]);
            rewrite lookup_insert_ne, lookup_empty;
            [reflexivity | apply Hid'; vm_compute; discriminate] ] ]
    |]).
  by apply elem_of_nil in Hin.
Qed.

(** C6 (amended). With the canonical-id column resolved, no record is
    dropped: every record of the batch is in the insert list or in the
    update list handed to the writer, with a field object that holds, for
    every column resolved in the field map, the value of that column, and
    no cell for a column missing from the field map.  When the canonical-id
    column itself is missing, every record is skipped and both lists are
    empty.  (No field id is taken to be the id of two columns.) *)
Theorem unresolved_columns_are_omitted (host : JsDate.Host)
    (fieldMap existingVideoIds : gmap string string) (videos : list Video) :
  columnsUnshared fieldMap ->
  (forall idField,
     resolved fieldMap col_aweme_id = Some idField ->
     length (fst (classifyVideos host fieldMap existingVideoIds videos [] []))
     + length (snd (classifyVideos host fieldMap existingVideoIds videos [] []))
     = length videos
     /\ forall video,
          video ∈ videos ->
          exists fields,
            (fields ∈ fst (classifyVideos host fieldMap existingVideoIds videos [] [])
             \/ exists existingRecordId,
                  {| upd_recordId := existingRecordId; upd_fields := fields |}
                  ∈ snd (classifyVideos host fieldMap existingVideoIds videos [] []))
            /\ (forall name value fid,
                  (name, value) ∈ columnValues host video ->
                  resolved fieldMap name = Some fid ->
                  fields !! fid = value)
            /\ (forall fid,
                  is_Some (fields !! fid) ->
                  exists name,
                    name ∈ fieldMappingNames /\ resolved fieldMap name = Some fid))
  /\ (resolved fieldMap col_aweme_id = None ->
      classifyVideos host fieldMap existingVideoIds videos [] [] = ([], [])).
Proof.
  intros Hun. split.
  - intros idField Hid. split.
    + by rewrite (classifyVideos_length _ _ _ _ _ Hid).
    + intros video Hin.
      destruct (buildFields_columns host fieldMap video idField Hun Hid)
        as (fields & Hb & Hcols).
      exists fields. split; [|split].
      * rewrite classifyVideos_omap. simpl.
        destruct (findExisting existingVideoIds (aweme_id video)) as [rid|] eqn:Hf.
        -- right. exists rid. apply list_elem_of_omap. exists video.
           split; [exact Hin|]. unfold classify. by rewrite Hb, Hf.
        -- left. apply list_elem_of_omap. exists video.
           split; [exact Hin|]. unfold classify. by rewrite Hb, Hf.
      * exact Hcols.
      * intros fid. by apply buildFields_written with (host := host) (video := video).
  - apply classifyVideos_all_skipped.
Qed.

(** A field map in which only the id column, the description and the
    duration column are resolved. *)
Definition sparseFieldMap : gmap string string :=
  <[col_aweme_id := "fldId"]>
    (<[col_desc := "fldDesc"]> (<[col_duration := "fldDur"]> ∅)).

Lemma sparseFieldMap_unshared : columnsUnshared sparseFieldMap.
Proof.
  intros name name' fid Hin Hin'. unfold fieldMappingNames in Hin, Hin'.
  repeat (apply elem_of_cons in Hin as [-> | Hin]);
    try (by apply elem_of_nil in Hin);
    repeat (apply elem_of_cons in Hin' as [-> | Hin']);
    try (by apply elem_of_nil in Hin');
    vm_compute; congruence.
Qed.

Lemma unresolved_columns_are_omitted_witness :
  length (fst (classifyVideos JsDate.utcHost sparseFieldMap ∅ [sampleVideo] [] []))
  + length (snd (classifyVideos JsDate.utcHost sparseFieldMap ∅ [sampleVideo] [] []))
  = length [sampleVideo]
  /\ forall video,
       video ∈ [sampleVideo] ->
       exists fields,
         (fields ∈ fst (classifyVideos JsDate.utcHost sparseFieldMap ∅ [sampleVideo] [] [])
          \/ exists existingRecordId,
               {| upd_recordId := existingRecordId; upd_fields := fields |}
               ∈ snd (classifyVideos JsDate.utcHost sparseFieldMap ∅ [sampleVideo] [] []))
         /\ (forall name value fid,
               (name, value) ∈ columnValues JsDate.utcHost video ->
               resolved sparseFieldMap name = Some fid ->
               fields !! fid = value)
         /\ (forall fid,
               is_Some (fields !! fid) ->
               exists name,
                 name ∈ fieldMappingNames /\ resolved sparseFieldMap name = Some fid).
Proof.
  apply (proj1 (unresolved_columns_are_omitted JsDate.utcHost sparseFieldMap ∅
                  [sampleVideo] sparseFieldMap_unshared) "fldId").
  vm_compute. reflexivity.
Defined.

(** The record written through the sparse field map: the three resolved
    columns, nothing for the ten others. *)
Example sparse_record_is_written :
  classifyVideos JsDate.utcHost sparseFieldMap ∅ [sampleVideo] [] []
  = ([ <["fldDesc" := FText "title"]>
         (<["fldDur" := FNumber 16]> (<["fldId" := FText "7001"]> ∅)) ], []).
Proof. vm_compute. reflexivity. Qed.

Lemma roundDiv1000_nearest (n : Z) :
  (1000 * roundDiv1000 n - 500 <= n < 1000 * roundDiv1000 n + 500)%Z.
Proof.
  unfold roundDiv1000.
  pose proof (Z.div_mod (n + 500) 1000 ltac:(lia)).
  pose proof (Z.mod_pos_bound (n + 500) 1000 ltac:(lia)).
  lia.
Qed.

(** C10. When the duration column is resolved (and its field id is the id of
    no column written after it), the cell written for a record is
    [Math.round(duration / 1000)], the integer nearest to the duration in
    seconds, a tie going up, when [duration] is a number, and [0] when it is
    not. *)
Theorem duration_written_in_seconds (host : JsDate.Host)
    (fieldMap : gmap string string) (video : Video) (idField durField : string) :
  resolved fieldMap col_aweme_id = Some idField ->
  resolved fieldMap col_duration = Some durField ->
  (forall name,
     name ∈ [col_play_addr; col_audio_addr; col_share_count; col_video_text_arr] ->
     resolved fieldMap name <> Some durField) ->
  exists fields,
    buildFields host fieldMap video = Some fields
    /\ fields !! durField = Some (FNumber (durationSeconds (duration video)))
    /\ match duration video with
       | JsNumber ms =>
           durationSeconds (duration video) = roundDiv1000 ms
           /\ (1000 * roundDiv1000 ms - 500 <= ms < 1000 * roundDiv1000 ms + 500)%Z
       | _ => durationSeconds (duration video) = 0%Z
       end.
Proof.
  intros Hid Hdur Hlater. unfold buildFields. rewrite Hid.
  eexists. split; [reflexivity|]. split.
  - rewrite !lookup_assignIf_ne by (apply Hlater; set_solver).
    by apply lookup_assignIf_eq.
  - destruct (duration video) as [| |ms|s]; simpl; try reflexivity.
    split; [reflexivity | apply roundDiv1000_nearest].
Qed.

Lemma duration_written_in_seconds_witness :
  exists fields,
    buildFields JsDate.utcHost fullFieldMap sampleVideo = Some fields
    /\ fields !! "fldDur" = Some (FNumber (durationSeconds (duration sampleVideo)))
    /\ match duration sampleVideo with
       | JsNumber ms =>
           durationSeconds (duration sampleVideo) = roundDiv1000 ms
           /\ (1000 * roundDiv1000 ms - 500 <= ms < 1000 * roundDiv1000 ms + 500)%Z
       | _ => durationSeconds (duration sampleVideo) = 0%Z
       end.
Proof.
  apply (duration_written_in_seconds JsDate.utcHost fullFieldMap sampleVideo
           "fldId" "fldDur").
  - vm_compute. reflexivity.
  - vm_compute. reflexivity.
  - intros name Hin.
    repeat (apply elem_of_cons in Hin as [-> | Hin]; [vm_compute; discriminate|]).
    by apply elem_of_nil in Hin.
Defined.

Example duration_rounds_half_up :
  durationSeconds (JsNumber 15500) = 16%Z /\ durationSeconds (JsNumber 15499) = 15%Z
  /\ durationSeconds (JsString "15500") = 0%Z.
Proof. repeat split. Qed.


(** ** BatchWriter *)

(** A datastore that applies a batch as a whole and rejects it when one of
    its rows is bad; the store is the list of rows written so far. *)
Definition atomicBatch {A : Type} (bad : A -> bool) (written batch : list A)
    : list A * bool :=
  if existsb bad batch then (written, false) else (written ++ batch, true).

(** The single-row call of the same datastore. *)
Definition singleRow {A : Type} (bad : A -> bool) (written : list A) (row : A)
    : list A * bool :=
  if bad row then (written, false) else (written ++ [row], true).

(** The state reached when every chunk of [cs] is accepted, [None] when one
    of them is rejected. *)
Fixpoint allAccepted {St A : Type} (commitBatch : St -> list A -> St * bool)
    (st : St) (cs : list (list A)) : option St :=
  match cs with
  | [] => Some st
  | c :: rest =>
      match commitBatch st c with
      | (st', true) => allAccepted commitBatch st' rest
      | (_, false) => None
      end
  end.

Lemma chunksFuel_enough {A : Type} (n : nat) :
  0 < n ->
  forall fuel1 fuel2 (l : list A),
    length l <= fuel1 -> length l <= fuel2 ->
    chunksFuel fuel1 n l = chunksFuel fuel2 n l.
Proof.
  intros Hn. induction fuel1 as [|fuel1 IH]; intros fuel2 l H1 H2.
  - destruct l; [|simpl in H1; lia]. by destruct fuel2.
  - destruct l as [|x l]; [by destruct fuel2|].
    destruct fuel2 as [|fuel2]; [simpl in H2; lia|].
    cbn [chunksFuel]. f_equal.
    apply IH; rewrite length_drop; simpl in *; lia.
Qed.

Lemma chunks_cons {A : Type} (n : nat) (l : list A) :
  0 < n -> l <> [] ->
  chunks n l = take n l :: chunks n (drop n l).
Proof.
  intros Hn Hl. unfold chunks. destruct l as [|x l]; [done|].
  cbn [length chunksFuel]. f_equal.
  apply chunksFuel_enough; [done | | done].
  rewrite length_drop. simpl. lia.
Qed.

Lemma chunks_nil {A : Type} (n : nat) : chunks n (@nil A) = [].
Proof. reflexivity. Qed.

Lemma chunks_ind_drop {A : Type} (n : nat) (P : list A -> Prop) :
  0 < n ->
  P [] ->
  (forall l, l <> [] -> P (drop n l) -> P l) ->
  forall l, P l.
Proof.
  intros Hn Hnil Hstep l.
  remember (length l) as k eqn:Hk. revert l Hk.
  induction k as [k IH] using lt_wf_ind. intros l ->.
  destruct l as [|x l]; [done|].
  apply Hstep; [done|].
  apply (IH (length (drop n (x :: l)))); [|done].
  rewrite length_drop. simpl. lia.
Qed.

Lemma concat_chunks {A : Type} (n : nat) (l : list A) :
  0 < n -> concat (chunks n l) = l.
Proof.
  intros Hn. revert l.
  apply (chunks_ind_drop n (fun l => concat (chunks n l) = l)); [done | done |].
  intros l Hl IH. rewrite chunks_cons by done. simpl. rewrite IH. apply take_drop.
Qed.

Lemma chunks_sizes {A : Type} (n : nat) (l : list A) :
  0 < n -> Forall (fun c => 0 < length c <= n) (chunks n l).
Proof.
  intros Hn. revert l.
  apply (chunks_ind_drop n (fun l => Forall (fun c => 0 < length c <= n) (chunks n l)));
    [done | constructor |].
  intros l Hl IH. rewrite chunks_cons by done. constructor; [|done].
  rewrite length_take. destruct l; [done|]. simpl. lia.
Qed.

Lemma batchLoop_chunks {St A : Type} (commitBatch : St -> list A -> St * bool)
    (rows : list A) :
  forall fuel st i,
    length rows - i <= fuel ->
    batchLoop commitBatch fuel st rows i =
    commitUntilFailure commitBatch st (chunks batchSize (drop i rows)).
Proof.
  induction fuel as [|fuel IH]; intros st i Hfuel.
  - rewrite drop_ge by lia. reflexivity.
  - cbn [batchLoop]. destruct (Nat.ltb_spec i (length rows)) as [Hlt|Hge].
    + rewrite chunks_cons; [|unfold batchSize; lia|].
      2:{ intros Hnil. apply (f_equal length) in Hnil.
          rewrite length_drop in Hnil. simpl in Hnil. lia. }
      cbn [commitUntilFailure]. unfold slice.
      replace (i + batchSize - i) with batchSize by lia.
      destruct (commitBatch st (take batchSize (drop i rows))) as [st' [|]]; [|done].
      rewrite IH by (unfold batchSize; lia).
      by rewrite drop_drop.
    + rewrite drop_ge by lia. reflexivity.
Qed.

Lemma commitInBatches_chunks {St A : Type} (commitBatch : St -> list A -> St * bool)
    (st : St) (rows : list A) :
  commitInBatches commitBatch st rows =
  commitUntilFailure commitBatch st (chunks batchSize rows).
Proof.
  unfold commitInBatches. destruct (Nat.ltb_spec 0 (length rows)) as [Hlt|Hge].
  - rewrite batchLoop_chunks by lia. by rewrite drop_0.
  - destruct rows; [reflexivity | simpl in Hge; lia].
Qed.

Lemma commitUntilFailure_stops {St A : Type} (commitBatch : St -> list A -> St * bool) :
  forall (before : list (list A)) (st st1 st2 : St) (failing : list A)
         (after : list (list A)),
    allAccepted commitBatch st before = Some st1 ->
    commitBatch st1 failing = (st2, false) ->
    commitUntilFailure commitBatch st (before ++ failing :: after) = st2.
Proof.
  induction before as [|c before IH]; intros st st1 st2 failing after Hacc Hfail.
  - simpl in *. injection Hacc as ->. by rewrite Hfail.
  - simpl in *. destruct (commitBatch st c) as [st' [|]]; [|discriminate].
    by apply (IH st' st1).
Qed.

Lemma commitUntilFailure_all {St A : Type} (commitBatch : St -> list A -> St * bool) :
  forall (cs : list (list A)) (st st1 : St),
    allAccepted commitBatch st cs = Some st1 ->
    commitUntilFailure commitBatch st cs = st1.
Proof.
  induction cs as [|c cs IH]; intros st st1 Hacc; simpl in *.
  - by injection Hacc.
  - destruct (commitBatch st c) as [st' [|]]; [|discriminate]. by apply IH.
Qed.

(** Of 1200 rows the second chunk (the one holding row 501) is rejected:
    only the first chunk is written, the third one, which holds no bad row,
    is not. *)
Lemma failed_insert_chunk_ends_commit :
  length <$> chunks batchSize (seq 1 1200) = [500; 500; 200]
  /\ commitInBatches (atomicBatch (Nat.eqb 501)) [] (seq 1 1200) = seq 1 500
  /\ atomicBatch (Nat.eqb 501) (seq 1 500) (seq 1001 200) = (seq 1 500 ++ seq 1001 200, true).
Proof. repeat split; vm_compute; reflexivity. Qed.

(** C3 (amended). The insert rows are committed in chunks of at most 500
    rows, in order (1200 rows make the chunks 500/500/200).  The chunks
    before the first rejected one stay committed, without rollback; the
    rejected chunk is logged and ends the commit: the chunks after it are not
    attempted.  When no chunk is rejected all of them are committed. *)
Theorem insert_chunks_until_first_failure {St A : Type}
    (commitBatch : St -> list A -> St * bool) (st : St) (rows : list A) :
  commitInBatches commitBatch st rows
    = commitUntilFailure commitBatch st (chunks batchSize rows)
  /\ concat (chunks batchSize rows) = rows
  /\ Forall (fun c => 0 < length c <= 500) (chunks batchSize rows)
  /\ (forall before failing after st1 st2,
        chunks batchSize rows = before ++ failing :: after ->
        allAccepted commitBatch st before = Some st1 ->
        commitBatch st1 failing = (st2, false) ->
        commitInBatches commitBatch st rows = st2)
  /\ (forall st1,
        allAccepted commitBatch st (chunks batchSize rows) = Some st1 ->
        commitInBatches commitBatch st rows = st1).
Proof.
  split; [apply commitInBatches_chunks|].
  split; [apply concat_chunks; unfold batchSize; lia|].
  split; [apply (chunks_sizes batchSize); unfold batchSize; lia|].
  split.
  - intros before failing after st1 st2 Hc Hacc Hfail.
    rewrite commitInBatches_chunks, Hc.
    by apply commitUntilFailure_stops with (st1 := st1).
  - intros st1 Hacc. rewrite commitInBatches_chunks.
    by apply commitUntilFailure_all.
Qed.

(** The update commit of the sync engine meets a bad row: the chunk is
    rejected and none of its rows is written, not even the good ones. *)
Lemma sync_update_has_no_row_fallback :
  commitInBatches (atomicBatch (Nat.eqb 2)) [] [1; 2; 3] = []
  /\ singleRow (Nat.eqb 2) [] 1 = ([1], true).
Proof. split; reflexivity. Qed.

Lemma oneByOne_filter {A : Type} (bad : A -> bool) (rows : list A) :
  forall written updateCount,
    oneByOne (singleRow bad) written updateCount rows =
    (written ++ filter (fun r => bad r = false) rows,
     updateCount + length (filter (fun r => bad r = false) rows)).
Proof.
  induction rows as [|r rows IH]; intros written n; simpl.
  - by rewrite app_nil_r, Nat.add_0_r.
  - rewrite filter_cons. unfold singleRow at 1. destruct (bad r) eqn:E.
    + rewrite IH, decide_False by done. reflexivity.
    + rewrite IH, decide_True by done. rewrite <- app_assoc. simpl.
      f_equal. lia.
Qed.

Lemma existsb_false_filter {A : Type} (bad : A -> bool) (rows : list A) :
  existsb bad rows = false -> filter (fun r => bad r = false) rows = rows.
Proof.
  induction rows as [|r rows IH]; [done|]. simpl.
  intros [Hr Hrows]%orb_false_iff.
  rewrite filter_cons, decide_True by done. f_equal. by apply IH.
Qed.

(** C7 (amended). In the write-back of the transcript pipeline, when the
    batch update is rejected the rows are committed one by one, so that
    every row that can be written is written, whatever the other rows are:
    the store receives exactly the good rows, in order, and [updateCount] is
    their number.  (The chunked update of the sync engine has no such
    fallback.) *)
Theorem write_back_row_fallback {A : Type} (bad : A -> bool) (written rows : list A) :
  writeBack (atomicBatch bad) (singleRow bad) written rows
  = (written ++ filter (fun r => bad r = false) rows,
     length (filter (fun r => bad r = false) rows)).
Proof.
  unfold writeBack. destruct rows as [|r rows].
  - simpl. by rewrite app_nil_r.
  - change (Nat.ltb 0 (length (r :: rows))) with true. cbv iota.
    unfold atomicBatch at 1. destruct (existsb bad (r :: rows)) eqn:E.
    + by rewrite oneByOne_filter.
    + by rewrite existsb_false_filter.
Qed.

Example write_back_skips_bad_row :
  writeBack (atomicBatch (Nat.eqb 2)) (singleRow (Nat.eqb 2)) [] [1; 2; 3] = ([1; 3], 2).
Proof. reflexivity. Qed.


(** ** SubscriptionScheduler *)

Import Scheduler.

(** The first instant, from [cancelAt] on, at which a wait begun at [start]
    reads the flag: the next interval callback (they fire at
    [start + 5000], [start + 10000], ...), or the end of the period when
    that comes first. *)
Definition nextRead (periodMs start cancelAt : Z) : Z :=
  Z.min (start + periodMs)
    (start + pollIntervalMs * ((cancelAt - start + pollIntervalMs - 1) / pollIntervalMs)).

Lemma nextRead_spec (periodMs start cancelAt k : Z) :
  (start + pollIntervalMs * (k - 1) < cancelAt <= start + pollIntervalMs * k)%Z ->
  nextRead periodMs start cancelAt = Z.min (start + periodMs) (start + pollIntervalMs * k).
Proof.
  unfold nextRead, pollIntervalMs. intros Hk. f_equal. f_equal. f_equal.
  pose proof (Z.div_mod (cancelAt - start + 5000 - 1) 5000 ltac:(lia)).
  pose proof (Z.mod_pos_bound (cancelAt - start + 5000 - 1) 5000 ltac:(lia)).
  lia.
Qed.

Lemma nextRead_bounds (periodMs start cancelAt : Z) :
  (start < cancelAt <= start + periodMs)%Z ->
  (cancelAt <= nextRead periodMs start cancelAt < cancelAt + pollIntervalMs)%Z
  /\ (nextRead periodMs start cancelAt <= start + periodMs)%Z.
Proof.
  unfold nextRead, pollIntervalMs. intros Hc.
  pose proof (Z.div_mod (cancelAt - start + 5000 - 1) 5000 ltac:(lia)).
  pose proof (Z.mod_pos_bound (cancelAt - start + 5000 - 1) 5000 ltac:(lia)).
  lia.
Qed.

Lemma waitFrom_nextRead (subRef : Z -> bool) (periodMs start cancelAt : Z) :
  (start < cancelAt <= start + periodMs)%Z ->
  (forall t, (start <= t < cancelAt)%Z -> subRef t = true) ->
  subRef (nextRead periodMs start cancelAt) = false ->
  forall fuel k,
    (1 <= k)%Z ->
    (start + pollIntervalMs * (k - 1) < cancelAt)%Z ->
    (start + periodMs < start + pollIntervalMs * k + pollIntervalMs * Z.of_nat fuel)%Z ->
    waitFrom subRef periodMs fuel start (start + pollIntervalMs * k)
    = nextRead periodMs start cancelAt.
Proof.
  intros Hc Hon Hoff.
  induction fuel as [|fuel IH]; intros k Hk Hprev Hfuel.
  - cbn [waitFrom].
    rewrite (nextRead_spec periodMs start cancelAt k) by (unfold pollIntervalMs in *; lia).
    unfold pollIntervalMs in *. lia.
  - cbn [waitFrom].
    destruct (Z.leb_spec (start + periodMs) (start + pollIntervalMs * k)) as [Hto|Hto].
    + rewrite (nextRead_spec periodMs start cancelAt k) by lia. lia.
    + destruct (Z.lt_ge_cases (start + pollIntervalMs * k) cancelAt) as [Hlt|Hge].
      * rewrite Hon by (unfold pollIntervalMs in *; lia). simpl.
        replace (start + pollIntervalMs * k + pollIntervalMs)%Z
          with (start + pollIntervalMs * (k + 1))%Z by lia.
        apply IH; unfold pollIntervalMs in *; lia.
      * assert (Hn : nextRead periodMs start cancelAt = (start + pollIntervalMs * k)%Z).
        { rewrite (nextRead_spec periodMs start cancelAt k) by lia. lia. }
        rewrite <- Hn, Hoff. reflexivity.
Qed.

(** C8 (amended). When cancellation is requested during the wait of a cycle
    (at [cancelAt], after the cycle began at [start] and before its period
    is over) and the flag is still cleared when the loop next reads it, the
    loop is left at that read: less than one polling interval (5000 ms)
    after the request and not later than the end of the period; and a loop
    that finds the flag cleared at its head is left at once. *)
Theorem cancellation_within_one_poll (subRef : Z -> bool)
    (periodMs start cancelAt : Z) (cycles : nat) :
  (start < cancelAt <= start + periodMs)%Z ->
  (forall t, (start <= t < cancelAt)%Z -> subRef t = true) ->
  subRef (nextRead periodMs start cancelAt) = false ->
  loop subRef periodMs (S (S cycles)) start = Some (nextRead periodMs start cancelAt)
  /\ (cancelAt <= nextRead periodMs start cancelAt < cancelAt + pollIntervalMs)%Z
  /\ (nextRead periodMs start cancelAt <= start + periodMs)%Z
  /\ (forall now, subRef now = false ->
        loop subRef periodMs (S cycles) now = Some now).
Proof.
  intros Hc Hon Hoff.
  assert (Hw : wait subRef periodMs start = nextRead periodMs start cancelAt).
  { unfold wait.
    replace (start + pollIntervalMs)%Z with (start + pollIntervalMs * 1)%Z by lia.
    apply (waitFrom_nextRead subRef periodMs start cancelAt Hc Hon Hoff);
      unfold pollIntervalMs; try lia.
    assert (0 <= periodMs)%Z by lia.
    rewrite Nat2Z.inj_succ, Z2Nat.id by (apply Z.div_pos; lia).
    pose proof (Z.div_mod periodMs 5000 ltac:(lia)).
    pose proof (Z.mod_pos_bound periodMs 5000 ltac:(lia)).
    lia. }
  split; [|split; [|split]].
  - cbn [loop]. rewrite Hon by lia. rewrite Hw, Hoff. reflexivity.
  - apply nextRead_bounds. exact Hc.
  - apply nextRead_bounds. exact Hc.
  - intros now Hnow. cbn [loop]. by rewrite Hnow.
Qed.

(** A 12-hour period begun at 0 and cancelled after 12 seconds: the loop is
    left at the third poll, after 15 seconds. *)
Lemma cancellation_within_one_poll_witness :
  loop (cancelledAt 12000) 43200000 (S (S 0)) 0 = Some 15000%Z
  /\ (12000 <= 15000 < 12000 + pollIntervalMs)%Z
  /\ (15000 <= 0 + 43200000)%Z
  /\ (forall now, cancelledAt 12000 now = false ->
        loop (cancelledAt 12000) 43200000 (S 0) now = Some now).
Proof.
  apply (cancellation_within_one_poll (cancelledAt 12000) 43200000 0 12000 0).
  - lia.
  - intros t Ht. unfold cancelledAt. apply Z.ltb_lt. lia.
  - reflexivity.
Defined.

(** [subRef.current] when [cancelSubscription] runs at [cancelAt] and
    [bloggersSubscribe] runs again at [againAt]. *)
Definition resubscribedAt (cancelAt againAt : Z) (t : Z) : bool :=
  (t <? cancelAt)%Z || (againAt <=? t)%Z.

(** Cancellation is requested 12 seconds into the wait of a 12-hour period
    and the subscription is started again one second later, before the poll
    at 15 seconds: the flag is cleared at the request, yet the wait lasts
    the whole period and the loop goes on with the next cycles. *)
Lemma resubscription_hides_cancellation :
  resubscribedAt 12000 13000 0 = true
  /\ resubscribedAt 12000 13000 12000 = false
  /\ wait (resubscribedAt 12000 13000) 43200000 0 = 43200000%Z
  /\ loop (resubscribedAt 12000 13000) 43200000 3 0 = None.
Proof. repeat split; vm_compute; reflexivity. Qed.

Example cancelled_after_12s_stops_at_15s :
  loop (cancelledAt 12000) 43200000 2 0 = Some 15000%Z.
Proof. vm_compute. reflexivity. Qed.

Example uncancelled_wait_lasts_the_period :
  wait (fun _ => true) 43200000 0 = 43200000%Z.
Proof. vm_compute. reflexivity. Qed.


(** ** Idempotence of the sync pass *)

Import Datastore SyncRun.

(** The canonical id under which a row is indexed, if any. *)
Definition rowKey (fid : string) (row : Row) : option string :=
  if truthy (cellString fid row) then Some (cleanVideoId (cellString fid row)) else None.

(** What the index sees of a table: record ids and canonical ids. *)
Definition signature (fid : string) (table : Table) : list (string * option string) :=
  (fun row => (row_id row, rowKey fid row)) <$> table.

(** The index as a function of the signature. *)
Fixpoint indexOf (sig : list (string * option string)) (m : gmap string string)
    : gmap string string :=
  match sig with
  | [] => m
  | (rid, Some k) :: rest => indexOf rest (<[k := rid]> m)
  | (_, None) :: rest => indexOf rest m
  end.

Definition toRecords (rows : Table) : list IRecord :=
  (fun row => {| recordId := row_id row |}) <$> rows.

Lemma offsetOf_cursor (offset : nat) : offsetOf (Some (cursor offset)) = Some offset.
Proof.
  unfold offsetOf, cursor. rewrite NilEmpty.usu. simpl.
  by rewrite Unsigned.of_to.
Qed.

Lemma fetchAllRecords_table (table : Table) :
  forall fuel offset tok acc,
    offsetOf tok = Some offset ->
    length table < offset + 5000 * fuel ->
    0 < fuel ->
    fetchAllRecords (getRecords table) fuel acc tok
    = Some (acc ++ toRecords (drop offset table)).
Proof.
  induction fuel as [|fuel IH]; intros offset tok acc Htok Hfuel Hpos; [lia|].
  cbn [fetchAllRecords]. unfold getRecords at 1. rewrite Htok.
  cbn [records hasMore pageToken].
  destruct (Nat.ltb_spec (offset + 5000) (length table)) as [Hmore|Hlast].
  - rewrite (IH (offset + 5000) _ _ (offsetOf_cursor _)) by lia.
    f_equal. rewrite <- app_assoc. f_equal. unfold toRecords.
    rewrite <- fmap_app. f_equal.
    rewrite <- drop_drop. apply take_drop.
  - f_equal. f_equal. unfold toRecords. f_equal.
    apply take_ge. rewrite length_drop. lia.
Qed.

Lemma findRow_elem (table : Table) (row : Row) :
  NoDup (row_id <$> table) -> row ∈ table -> findRow table (row_id row) = Some row.
Proof.
  induction table as [|r table IH]; intros Hnd Hin.
  - by apply elem_of_nil in Hin.
  - simpl in *. apply NoDup_cons in Hnd as [Hr Hnd].
    apply elem_of_cons in Hin as [-> | Hin].
    + by rewrite decide_True.
    + rewrite decide_False; [by apply IH|].
      intros Heq. apply Hr. rewrite Heq. apply list_elem_of_fmap. eauto.
Qed.

Lemma indexRecords_table (table : Table) (fid : string) :
  NoDup (row_id <$> table) ->
  forall rows m,
    rows ⊆ table ->
    indexRecords (getCellString table) fid (toRecords rows) m
    = indexOf (signature fid rows) m.
Proof.
  intros Hnd. induction rows as [|row rows IH]; intros m Hsub; [done|].
  simpl. unfold indexRecord. simpl.
  unfold getCellString. rewrite findRow_elem by (done || set_solver). simpl.
  unfold rowKey. destruct (truthy (cellString fid row)); apply IH; set_solver.
Qed.

Lemma scan_table (table : Table) (fid : string) :
  NoDup (row_id <$> table) ->
  buildExistingVideoIds (getRecords table) (getCellString table)
    (S (length table)) (Some fid)
  = Some (indexOf (signature fid table) ∅).
Proof.
  intros Hnd. unfold buildExistingVideoIds.
  rewrite (fetchAllRecords_table table _ 0 None []) by (done || lia).
  rewrite drop_0. simpl. f_equal. by apply indexRecords_table.
Qed.

Lemma indexOf_app sig1 sig2 m :
  indexOf (sig1 ++ sig2) m = indexOf sig2 (indexOf sig1 m).
Proof.
  revert m. induction sig1 as [|[rid [k|]] sig1 IH]; intros m; simpl; auto.
Qed.

Lemma indexOf_lookup_Some sig : forall m k rid,
  indexOf sig m !! k = Some rid -> (rid, Some k) ∈ sig \/ m !! k = Some rid.
Proof.
  induction sig as [|[r [k'|]] sig IH]; intros m k rid Hl; simpl in *.
  - by right.
  - apply IH in Hl as [Hin | Hl]; [left; set_solver|].
    destruct (decide (k' = k)) as [->|Hne].
    + rewrite lookup_insert_eq in Hl. injection Hl as ->. left. set_solver.
    + rewrite lookup_insert_ne in Hl by done. by right.
  - apply IH in Hl as [Hin | Hl]; [left; set_solver | by right].
Qed.

Lemma indexOf_is_Some sig : forall m k,
  ((exists rid, (rid, Some k) ∈ sig) \/ is_Some (m !! k)) ->
  is_Some (indexOf sig m !! k).
Proof.
  induction sig as [|[r [k'|]] sig IH]; intros m k Hk; simpl.
  - destruct Hk as [[rid Hin] | ?]; [by apply elem_of_nil in Hin | done].
  - apply IH. destruct Hk as [[rid Hin] | Hm].
    + apply elem_of_cons in Hin as [[= -> ->] | Hin].
      * right. rewrite lookup_insert_eq. eauto.
      * left. eauto.
    + right. destruct (decide (k' = k)) as [->|Hne].
      * rewrite lookup_insert_eq. eauto.
      * by rewrite lookup_insert_ne.
  - apply IH. destruct Hk as [[rid Hin] | Hm]; [|by right].
    apply elem_of_cons in Hin as [[=] | Hin]. left. eauto.
Qed.

Lemma commitInBatches_total {St A : Type} (f : St -> list A -> St) (st : St)
    (rows : list A) :
  (forall t, f t [] = t) ->
  (forall t a b, f t (a ++ b) = f (f t a) b) ->
  commitInBatches (fun t batch => (f t batch, true)) st rows = f st rows.
Proof.
  intros Hnil Happ. rewrite commitInBatches_chunks.
  rewrite <- (concat_chunks batchSize rows) at 2 by (unfold batchSize; lia).
  generalize (chunks batchSize rows). intros cs. revert st.
  induction cs as [|c cs IH]; intros st; simpl; [by rewrite Hnil|].
  by rewrite IH, Happ.
Qed.

Section Idempotence.
Context `{RecordIdSupply}.

Lemma addRecords_app (table : Table) (a b : list Fields) :
  addRecords table (a ++ b) = addRecords (addRecords table a) b.
Proof. revert table. induction a as [|x a IH]; intros table; simpl; auto. Qed.

Lemma setRecords_app (table : Table) (a b : list UpdateRecord) :
  setRecords table (a ++ b) = setRecords (setRecords table a) b.
Proof. apply foldl_app. Qed.

Lemma addRecords_spec (batch : list Fields) : forall table,
  wellFormed table ->
  exists news,
    addRecords table batch = table ++ news
    /\ row_cells <$> news = batch
    /\ wellFormed (table ++ news).
Proof.
  induction batch as [|fields batch IH]; intros table Hwf; simpl.
  - exists []. by rewrite app_nil_r.
  - set (new := {| row_id := newRecordId (row_id <$> table); row_cells := fields |}).
    assert (Hwf' : wellFormed (table ++ [new])).
    { destruct Hwf as [Hnd Hne]. split.
      - rewrite fmap_app. apply NoDup_app. split; [done|]. split.
        + intros x Hx Hx'. simpl in Hx'. apply list_elem_of_singleton in Hx'.
          subst x. by apply newRecordId_fresh in Hx.
        + apply NoDup_singleton.
      - intros row [Hin | Hin]%elem_of_app; [by apply Hne|].
        apply list_elem_of_singleton in Hin. subst row. apply newRecordId_truthy. }
    destruct (IH _ Hwf') as (news & Heq & Hcells & Hwf'').
    exists (new :: news). rewrite Heq, <- app_assoc. simpl.
    split; [done|]. split; [simpl; f_equal; exact Hcells|].
    by rewrite <- app_assoc in Hwf''.
Qed.

Lemma setRecord_ids (table : Table) (u : UpdateRecord) :
  row_id <$> setRecord table u = row_id <$> table.
Proof.
  unfold setRecord. rewrite <- list_fmap_compose. apply list_fmap_ext.
  intros _ row _. simpl. by destruct (decide (row_id row = upd_recordId u)).
Qed.

(** An update that writes, in the id cell, an id with the canonical form the
    row already has leaves the signature as it is. *)
Lemma setRecord_signature (fid : string) (table : Table) (u : UpdateRecord)
    (a : string) :
  upd_fields u !! fid = Some (FText a) ->
  a <> "" ->
  (forall row, row ∈ table -> row_id row = upd_recordId u ->
               rowKey fid row = Some (cleanVideoId a)) ->
  signature fid (setRecord table u) = signature fid table.
Proof.
  intros Hcell Ha Hrows. unfold signature, setRecord.
  rewrite <- list_fmap_compose. apply list_fmap_ext.
  intros i row Hi. simpl.
  destruct (decide (row_id row = upd_recordId u)) as [Heq|]; [|done].
  simpl. f_equal.
  rewrite (Hrows row) by (done || by eapply list_elem_of_lookup_2).
  unfold rowKey, cellString. simpl.
  rewrite (lookup_union_Some_l _ _ _ _ Hcell).
  apply truthy_true in Ha. by rewrite Ha.
Qed.


Lemma NoDup_fst_functional {A B : Type} (l : list (A * B)) (x : A) (y y' : B) :
  NoDup (fst <$> l) -> (x, y) ∈ l -> (x, y') ∈ l -> y = y'.
Proof.
  induction l as [|[a b] l IH]; intros Hnd H1 H2.
  - by apply elem_of_nil in H1.
  - simpl in Hnd. apply NoDup_cons in Hnd as [Ha Hnd].
    apply elem_of_cons in H1 as [E1 | H1]; apply elem_of_cons in H2 as [E2 | H2].
    + congruence.
    + exfalso. apply Ha. apply list_elem_of_fmap. exists (x, y').
      split; [|done]. simpl. congruence.
    + exfalso. apply Ha. apply list_elem_of_fmap. exists (x, y).
      split; [|done]. simpl. congruence.
    + by apply IH.
Qed.

Lemma signature_ids (fid : string) (table : Table) :
  fst <$> signature fid table = row_id <$> table.
Proof. unfold signature. rewrite <- list_fmap_compose. by apply list_fmap_ext. Qed.

Lemma elem_of_signature (fid : string) (table : Table) (rid : string) (key : option string) :
  (rid, key) ∈ signature fid table <->
  exists row, row ∈ table /\ row_id row = rid /\ rowKey fid row = key.
Proof.
  unfold signature. rewrite list_elem_of_fmap. split.
  - intros (row & [= -> ->] & Hin). eauto.
  - intros (row & Hin & <- & <-). eauto.
Qed.

Lemma setRecords_signature (fid : string) (upds : list UpdateRecord) :
  forall table,
    NoDup (row_id <$> table) ->
    (forall u, u ∈ upds ->
       exists a, upd_fields u !! fid = Some (FText a) /\ a <> ""
                 /\ (upd_recordId u, Some (cleanVideoId a)) ∈ signature fid table) ->
    signature fid (setRecords table upds) = signature fid table.
Proof.
  induction upds as [|u upds IH]; intros table Hnd Hupds; [done|].
  unfold setRecords. simpl. fold (setRecords (setRecord table u) upds).
  assert (Hu : signature fid (setRecord table u) = signature fid table).
  { destruct (Hupds u) as (a & Hcell & Ha & Hin); [set_solver|].
    apply (setRecord_signature fid table u a Hcell Ha).
    intros row Hrow Hid.
    apply (NoDup_fst_functional (signature fid table) (upd_recordId u)).
    - by rewrite signature_ids.
    - apply elem_of_signature. eauto.
    - done. }
  rewrite IH.
  - done.
  - by rewrite setRecord_ids.
  - intros u' Hu'. rewrite Hu. apply Hupds. set_solver.
Qed.

Lemma setRecords_ids (upds : list UpdateRecord) : forall table,
  row_id <$> setRecords table upds = row_id <$> table.
Proof.
  induction upds as [|u upds IH]; intros table; [done|].
  unfold setRecords. simpl. fold (setRecords (setRecord table u) upds).
  by rewrite IH, setRecord_ids.
Qed.

Lemma wellFormed_ids (table : Table) :
  wellFormed table <->
  NoDup (row_id <$> table) /\ forall rid, rid ∈ row_id <$> table -> rid <> "".
Proof.
  unfold wellFormed. split; intros [Hnd Hne]; (split; [done|]).
  - intros rid (row & -> & Hin)%list_elem_of_fmap. by apply Hne.
  - intros row Hin. apply Hne. apply list_elem_of_fmap. eauto.
Qed.

Lemma wellFormed_setRecords (table : Table) (upds : list UpdateRecord) :
  wellFormed table -> wellFormed (setRecords table upds).
Proof. rewrite !wellFormed_ids. by rewrite setRecords_ids. Qed.


(** The field id of the canonical-id column is the id of no other
    column. *)
Definition idColumnUnshared (fieldMap : gmap string string) : Prop :=
  forall name fid,
    name ∈ fieldMappingNames -> name <> col_aweme_id ->
    resolved fieldMap col_aweme_id = Some fid ->
    resolved fieldMap name <> Some fid.

Lemma buildFields_id host fieldMap video fid :
  resolved fieldMap col_aweme_id = Some fid ->
  idColumnUnshared fieldMap ->
  exists fields,
    buildFields host fieldMap video = Some fields
    /\ fields !! fid = Some (FText (aweme_id video)).
Proof.
  intros Hid Hun. unfold buildFields. rewrite Hid.
  eexists. split; [reflexivity|].
  assert (Hne : forall name, name ∈ fieldMappingNames -> name <> col_aweme_id ->
                             resolved fieldMap name <> Some fid)
    by (intros name Hin Hn; by apply Hun).
  rewrite !lookup_assignIf_ne by
    (apply Hne; [unfold fieldMappingNames; set_solver | vm_compute; discriminate]).
  rewrite lookup_assignDate_ne by
    (apply Hne; [unfold fieldMappingNames; set_solver | vm_compute; discriminate]).
  rewrite !lookup_assignIf_ne by
    (apply Hne; [unfold fieldMappingNames; set_solver | vm_compute; discriminate]).
  apply lookup_insert_eq.
Qed.


Variable host : JsDate.Host.
Variable fieldMap : gmap string string.

Lemma commit_total (table : Table) (p : list Fields * list UpdateRecord) :
  commit table p = setRecords (addRecords table (fst p)) (snd p).
Proof.
  unfold commit.
  rewrite (commitInBatches_total addRecords) by (done || apply addRecords_app).
  by rewrite (commitInBatches_total setRecords) by (done || apply setRecords_app).
Qed.

Lemma plan_resolved (table : Table) (videos : list Video) (fid : string) :
  NoDup (row_id <$> table) ->
  resolved fieldMap col_aweme_id = Some fid ->
  plan host fieldMap table videos
  = Some (classifyVideos host fieldMap (indexOf (signature fid table) ∅) videos [] []).
Proof. intros Hnd Hid. unfold plan. by rewrite Hid, scan_table. Qed.

Lemma plan_unresolved (table : Table) (videos : list Video) :
  resolved fieldMap col_aweme_id = None ->
  plan host fieldMap table videos = Some ([], []).
Proof.
  intros Hid. unfold plan. rewrite Hid. simpl. f_equal.
  rewrite classifyVideos_omap. simpl.
  assert (Hskip : forall v, classify host fieldMap ∅ v = Skipped)
    by (intros v; unfold classify, buildFields; by rewrite Hid).
  f_equal; induction videos as [|v l IH]; simpl; rewrite ?Hskip; done.
Qed.

(** What a pass does to the signature: the rows that were there keep their
    canonical ids, and one row is appended per record classified as new. *)
Lemma sync_signature (table : Table) (videos : list Video) (fid : string) :
  wellFormed table ->
  resolved fieldMap col_aweme_id = Some fid ->
  idColumnUnshared fieldMap ->
  (forall v, v ∈ videos -> aweme_id v <> "") ->
  wellFormed (sync host fieldMap table videos)
  /\ exists news,
       signature fid (sync host fieldMap table videos)
       = signature fid table ++ signature fid news
       /\ row_cells <$> news
          = omap (fun v => addOf (classify host fieldMap
                                    (indexOf (signature fid table) ∅) v)) videos.
Proof.
  intros Hwf Hid Hun Hids.
  unfold sync. rewrite (plan_resolved table videos fid) by (done || apply Hwf).
  rewrite commit_total, classifyVideos_omap. simpl.
  set (idx := indexOf (signature fid table) ∅).
  destruct (addRecords_spec
              (omap (fun v => addOf (classify host fieldMap idx v)) videos)
              table Hwf) as (news & Hadd & Hcells & Hwf').
  rewrite Hadd. split; [by apply wellFormed_setRecords|].
  exists news. split; [|done].
  rewrite setRecords_signature.
  - unfold signature. by rewrite fmap_app.
  - apply Hwf'.
  - intros u Hu. apply list_elem_of_omap in Hu as (v & Hv & Hu).
    unfold classify in Hu.
    destruct (buildFields_id host fieldMap v fid Hid Hun) as (fields & Hb & Hcell).
    rewrite Hb in Hu.
    destruct (findExisting idx (aweme_id v)) as [rid|] eqn:Hfind; [|discriminate].
    injection Hu as <-. simpl.
    exists (aweme_id v). split; [done|]. split; [by apply Hids|].
    apply findExisting_Some in Hfind as [Hl _].
    apply indexOf_lookup_Some in Hl as [Hin | Hl]; [|by rewrite lookup_empty in Hl].
    unfold signature. rewrite fmap_app. apply elem_of_app. by left.
Qed.

(** After a pass the canonical id of every record of the batch is the
    canonical id of some row. *)
Lemma sync_covers (table : Table) (videos : list Video) (fid : string) :
  wellFormed table ->
  resolved fieldMap col_aweme_id = Some fid ->
  idColumnUnshared fieldMap ->
  (forall v, v ∈ videos -> aweme_id v <> "") ->
  forall v, v ∈ videos ->
    exists rid, (rid, Some (cleanVideoId (aweme_id v)))
                  ∈ signature fid (sync host fieldMap table videos).
Proof.
  intros Hwf Hid Hun Hids v Hv.
  destruct (sync_signature table videos fid Hwf Hid Hun Hids)
    as (_ & news & -> & Hcells).
  set (idx := indexOf (signature fid table) ∅) in *.
  destruct (buildFields_id host fieldMap v fid Hid Hun) as (fields & Hb & Hcell).
  destruct (findExisting idx (aweme_id v)) as [rid|] eqn:Hfind.
  - apply findExisting_Some in Hfind as [Hl _].
    apply indexOf_lookup_Some in Hl as [Hin | Hl]; [|by rewrite lookup_empty in Hl].
    exists rid. apply elem_of_app. by left.
  - assert (Hin : fields ∈ row_cells <$> news).
    { rewrite Hcells. apply list_elem_of_omap. exists v. split; [done|].
      unfold classify. by rewrite Hb, Hfind. }
    apply list_elem_of_fmap in Hin as (row & Hrow & Hin).
    exists (row_id row). apply elem_of_app. right.
    apply elem_of_signature. exists row. split; [done|]. split; [done|].
    unfold rowKey, cellString. rewrite <- Hrow, Hcell.
    assert (Ht : truthy (aweme_id v) = true) by (apply truthy_true; by apply Hids).
    by rewrite Ht.
Qed.

(** Against a table that holds the canonical id of every record of the
    batch, every record is an update. *)
Lemma covered_all_updates (table : Table) (videos : list Video) (fid : string) :
  wellFormed table ->
  resolved fieldMap col_aweme_id = Some fid ->
  (forall v, v ∈ videos ->
     exists rid, (rid, Some (cleanVideoId (aweme_id v))) ∈ signature fid table) ->
  omap (fun v => addOf (classify host fieldMap (indexOf (signature fid table) ∅) v)) videos
  = []
  /\ length (omap (fun v => updateOf (classify host fieldMap
                                        (indexOf (signature fid table) ∅) v)) videos)
     = length videos.
Proof.
  intros Hwf Hid Hcov.
  set (idx := indexOf (signature fid table) ∅).
  assert (Hupd : forall v, v ∈ videos ->
            exists rid fields, classify host fieldMap idx v = ToUpdate rid fields).
  { intros v Hv. destruct (Hcov v Hv) as (rid0 & Hin).
    destruct (indexOf_is_Some (signature fid table) ∅ (cleanVideoId (aweme_id v)))
      as [rid Hl]; [left; eauto|].
    fold idx in Hl.
    assert (Hrid : rid <> "").
    { apply indexOf_lookup_Some in Hl as [Hin' | Hl]; [|by rewrite lookup_empty in Hl].
      apply elem_of_signature in Hin' as (row & Hrow & <- & _).
      by apply Hwf. }
    assert (Hfind : findExisting idx (aweme_id v) = Some rid)
      by (by apply findExisting_Some).
    unfold classify, buildFields. rewrite Hid, Hfind. eauto. }
  clear Hcov. induction videos as [|v l IH]; [done|].
  destruct (Hupd v) as (rid & fields & Hc); [apply elem_of_cons; by left|].
  simpl. rewrite Hc. simpl.
  destruct IH as [IH1 IH2];
    [intros v' Hv'; apply Hupd; apply elem_of_cons; by right|].
  split; [exact IH1 | by f_equal].
Qed.

End Idempotence.

(** C1. Against a well-formed table, with the canonical-id column's field
    id shared by no other column and every record carrying a non-empty id,
    a second pass over the same batch plans no insert: every record is an
    update (when the id column is resolved, one update per record), and the
    third pass plans exactly what the second did. *)
Theorem sync_is_idempotent `{RecordIdSupply} (host : JsDate.Host)
    (fieldMap : gmap string string) (table : Table) (videos : list Video) :
  wellFormed table ->
  idColumnUnshared fieldMap ->
  (forall v, v ∈ videos -> aweme_id v <> "") ->
  exists updates,
    plan host fieldMap (sync host fieldMap table videos) videos = Some ([], updates)
    /\ (is_Some (resolved fieldMap col_aweme_id) -> length updates = length videos)
    /\ plan host fieldMap
         (sync host fieldMap (sync host fieldMap table videos) videos) videos
       = Some ([], updates).
Proof.
  intros Hwf Hun Hids.
  destruct (resolved fieldMap col_aweme_id) as [fid|] eqn:Hid.
  - destruct (sync_signature host fieldMap table videos fid Hwf Hid Hun Hids)
      as (Hwf1 & _).
    pose proof (sync_covers host fieldMap table videos fid Hwf Hid Hun Hids) as Hcov.
    set (t1 := sync host fieldMap table videos) in *.
    destruct (covered_all_updates host fieldMap t1 videos fid Hwf1 Hid Hcov)
      as [Hadds Hlen].
    destruct (sync_signature host fieldMap t1 videos fid Hwf1 Hid Hun Hids)
      as (Hwf2 & news & Hsig & Hcells).
    rewrite Hadds in Hcells. apply fmap_nil_inv in Hcells. subst news.
    rewrite app_nil_r in Hsig.
    eexists. split; [|split].
    + rewrite (plan_resolved host fieldMap t1 videos fid) by (done || apply Hwf1).
      rewrite classifyVideos_omap, Hadds. reflexivity.
    + intros _. exact Hlen.
    + rewrite (plan_resolved host fieldMap _ videos fid) by (done || apply Hwf2).
      rewrite Hsig, classifyVideos_omap, Hadds. reflexivity.
  - exists []. split; [by apply plan_unresolved|]. split.
    + intros [? ?]. discriminate.
    + by apply plan_unresolved.
Qed.

(** A supply of record ids: an id longer than all the ids in use. *)
Definition longerThanAll (used : list string) : string :=
  String "r" (fold_right String.append "" used).

Lemma length_append (s1 s2 : string) :
  String.length (s1 +:+ s2) = String.length s1 + String.length s2.
Proof. induction s1 as [|c s1 IH]; simpl; [done | by rewrite IH]. Qed.

Lemma longerThanAll_fresh (used : list string) : longerThanAll used ∉ used.
Proof.
  assert (Hlen : forall x, x ∈ used ->
            String.length x <= String.length (fold_right String.append "" used)).
  { induction used as [|y used IH]; intros x Hx.
    - by apply elem_of_nil in Hx.
    - simpl. rewrite length_append.
      apply elem_of_cons in Hx as [-> | Hx]; [lia|].
      specialize (IH x Hx). lia. }
  intros Hin. apply Hlen in Hin. unfold longerThanAll in Hin. simpl in Hin. lia.
Qed.

Lemma longerThanAll_truthy (used : list string) : longerThanAll used <> "".
Proof. discriminate. Qed.

Definition lengthSupply : RecordIdSupply :=
  {| newRecordId := longerThanAll;
     newRecordId_fresh := longerThanAll_fresh;
     newRecordId_truthy := longerThanAll_truthy |}.

Definition secondVideo : Video :=
  {| nickname := "author"; aweme_id := " ABC123 "; share_url := "";
     conv_create_time := JsNumber 1696492800; desc := "";
     digg_count := JsNumber 1; collect_count := JsNumber 0;
     comment_count := JsNumber 0; duration := JsNumber 900;
     play_addr := ""; audio_addr := ""; share_count := JsNumber 0;
     video_text_ori := Some "raw"; video_text_arr := None |}.

(** A table that already holds the second video under another spelling of
    its id. *)
Definition oneRowTable : Table :=
  [ {| row_id := "rec0"; row_cells := {[ "fldId" := FText "abc123" ]} |} ].

Lemma fullFieldMap_unshared : idColumnUnshared fullFieldMap.
Proof.
  intros name fid Hin Hne Hid.
  assert (fid = "fldId") as -> by (vm_compute in Hid; congruence).
  unfold fieldMappingNames in Hin.
  repeat (apply elem_of_cons in Hin as [-> | Hin];
          [first [done | vm_compute; discriminate]|]).
  by apply elem_of_nil in Hin.
Qed.

Lemma sync_is_idempotent_witness :
  exists updates,
    plan JsDate.utcHost fullFieldMap
      (sync (H := lengthSupply) JsDate.utcHost fullFieldMap oneRowTable
         [sampleVideo; secondVideo])
      [sampleVideo; secondVideo] = Some ([], updates)
    /\ (is_Some (resolved fullFieldMap col_aweme_id) ->
        length updates = length [sampleVideo; secondVideo])
    /\ plan JsDate.utcHost fullFieldMap
         (sync (H := lengthSupply) JsDate.utcHost fullFieldMap
            (sync (H := lengthSupply) JsDate.utcHost fullFieldMap oneRowTable
               [sampleVideo; secondVideo])
            [sampleVideo; secondVideo])
         [sampleVideo; secondVideo]
       = Some ([], updates).
Proof.
  apply (sync_is_idempotent (H := lengthSupply) JsDate.utcHost fullFieldMap
           oneRowTable [sampleVideo; secondVideo]).
  - split.
    + simpl. apply NoDup_singleton.
    + intros row Hin. apply list_elem_of_singleton in Hin. subst row. discriminate.
  - exact fullFieldMap_unshared.
  - intros v Hin.
    repeat (apply elem_of_cons in Hin as [-> | Hin]; [discriminate|]).
    by apply elem_of_nil in Hin.
Defined.

Example first_pass_plan :
  plan JsDate.utcHost fullFieldMap oneRowTable [sampleVideo; secondVideo]
  = Some ([ default ∅ (buildFields JsDate.utcHost fullFieldMap sampleVideo) ],
          [ {| upd_recordId := "rec0";
               upd_fields := default ∅ (buildFields JsDate.utcHost fullFieldMap secondVideo) |} ]).
Proof. vm_compute. reflexivity. Qed.

Example second_pass_plan :
  fst <$> plan JsDate.utcHost fullFieldMap
            (sync (H := lengthSupply) JsDate.utcHost fullFieldMap oneRowTable
               [sampleVideo; secondVideo])
            [sampleVideo; secondVideo]
  = Some [].
Proof. vm_compute. reflexivity. Qed.

(** A record whose id is the empty string is written with an empty id cell,
    which the next scan does not index: the hypothesis on the ids is
    needed. *)
Definition namelessVideo : Video :=
  {| nickname := "author"; aweme_id := ""; share_url := "";
     conv_create_time := JsNull; desc := "";
     digg_count := JsNumber 0; collect_count := JsNumber 0;
     comment_count := JsNumber 0; duration := JsNumber 0;
     play_addr := ""; audio_addr := ""; share_count := JsNumber 0;
     video_text_ori := None; video_text_arr := None |}.

Example empty_id_is_inserted_again :
  length <$> (fst <$> plan JsDate.utcHost fullFieldMap
                        (sync (H := lengthSupply) JsDate.utcHost fullFieldMap []
                           [namelessVideo])
                        [namelessVideo])
  = Some 1.
Proof. vm_compute. reflexivity. Qed.


(** * Further properties of the code *)

(** ** Canonical ids are in normal form *)

Lemma trimEnd_idem (s : string) : trimEnd (trimEnd s) = trimEnd s.
Proof.
  induction s as [|c s IH]; simpl; [done|].
  destruct (trimEnd s) as [|d r] eqn:E.
  - destruct (isWhiteSpace c) eqn:W; simpl; [done | by rewrite W].
  - cbn [trimEnd]. fold trimEnd. cbn [trimEnd] in IH. fold trimEnd in IH.
    by rewrite IH.
Qed.

(** The first character of a string, if any, is not white space. *)
Definition startsClean (s : string) : bool :=
  match s with
  | EmptyString => true
  | String c _ => negb (isWhiteSpace c)
  end.

Lemma trimStart_startsClean (s : string) : startsClean (trimStart s) = true.
Proof.
  induction s as [|c s IH]; simpl; [done|].
  destruct (isWhiteSpace c) eqn:W; [done | simpl; by rewrite W].
Qed.

Lemma trimStart_clean (s : string) : startsClean s = true -> trimStart s = s.
Proof.
  destruct s as [|c s]; simpl; [done|].
  destruct (isWhiteSpace c); simpl; [discriminate | done].
Qed.

Lemma trimEnd_startsClean (s : string) :
  startsClean s = true -> startsClean (trimEnd s) = true.
Proof.
  destruct s as [|c s]; simpl; [done|]. intros W.
  destruct (trimEnd s); simpl; [|done].
  destruct (isWhiteSpace c) eqn:E; simpl; [discriminate | by rewrite E].
Qed.

Lemma trim_idem (s : string) : trim (trim s) = trim s.
Proof.
  unfold trim.
  rewrite (trimStart_clean (trimEnd (trimStart s)))
    by (apply trimEnd_startsClean, trimStart_startsClean).
  apply trimEnd_idem.
Qed.

(** The last character of a string, if any, is not white space. *)
Fixpoint endsClean (s : string) : bool :=
  match s with
  | EmptyString => true
  | String c EmptyString => negb (isWhiteSpace c)
  | String _ s' => endsClean s'
  end.

Lemma trimEnd_endsClean (s : string) : endsClean (trimEnd s) = true.
Proof.
  induction s as [|c s IH]; simpl; [done|].
  destruct (trimEnd s) as [|d r] eqn:E.
  - destruct (isWhiteSpace c) eqn:W; simpl; [done | by rewrite W].
  - exact IH.
Qed.

(** No upper-case ASCII letter occurs in the string. *)
Fixpoint noUpperCase (s : string) : bool :=
  match s with
  | EmptyString => true
  | String c s' => negb (Nat.leb 65 (code c) && Nat.leb (code c) 90) && noUpperCase s'
  end.

Lemma noUpperCase_lowerChar (c : ascii) :
  negb (Nat.leb 65 (code (lowerChar c)) && Nat.leb (code (lowerChar c)) 90) = true.
Proof. destruct c as [[] [] [] [] [] [] [] []]; reflexivity. Qed.

Lemma toLowerCase_noUpperCase (s : string) : noUpperCase (toLowerCase s) = true.
Proof.
  induction s as [|c s IH]; [done|].
  cbn [toLowerCase noUpperCase]. by rewrite noUpperCase_lowerChar, IH.
Qed.

Lemma toLowerCase_startsClean (s : string) :
  startsClean (toLowerCase s) = startsClean s.
Proof. destruct s; simpl; [done | by rewrite isWhiteSpace_lowerChar]. Qed.

Lemma toLowerCase_endsClean (s : string) :
  endsClean (toLowerCase s) = endsClean s.
Proof.
  induction s as [|c s IH]; simpl; [done|].
  destruct s as [|d s]; simpl in *; [by rewrite isWhiteSpace_lowerChar | exact IH].
Qed.

(** X1. The canonical id is a normal form: it has no white space at either
    end and no upper-case ASCII letter, and canonicalising it again changes
    nothing, so that an id read back from the table and cleaned again is
    the key it was stored under. *)
Theorem cleanVideoId_normal_form (videoIdString : string) :
  cleanVideoId (cleanVideoId videoIdString) = cleanVideoId videoIdString
  /\ startsClean (cleanVideoId videoIdString) = true
  /\ endsClean (cleanVideoId videoIdString) = true
  /\ noUpperCase (cleanVideoId videoIdString) = true.
Proof.
  unfold cleanVideoId. repeat split.
  - unfold trim at 1.
    rewrite trimStart_toLowerCase, trimEnd_toLowerCase, toLowerCase_idem.
    fold (trim (trim videoIdString)). by rewrite trim_idem.
  - rewrite toLowerCase_startsClean. unfold trim.
    apply trimEnd_startsClean, trimStart_startsClean.
  - rewrite toLowerCase_endsClean. apply trimEnd_endsClean.
  - apply toLowerCase_noUpperCase.
Qed.


(** ** The entry point of [getVideosData]: validation, URL list and the
    loop over the URLs (get_videosdata.ts, lines 232-296 and 570-588) *)

Module Orchestration.
Import JsString SyncEngine.

Definition API_BASE_URL : string := "https://www.ccai.fun".

Definition isLineFeed (c : ascii) : bool := Nat.eqb (code c) 10.

(** [url.split('\n')]: the pieces between the line feeds; a string without
    line feed, the empty one included, is one piece. *)
Fixpoint splitLines (s : string) : list string :=
  match s with
  | EmptyString => [EmptyString]
  | String c s' =>
      if isLineFeed c then EmptyString :: splitLines s'
      else
        match splitLines s' with
        | piece :: rest => String c piece :: rest
        | [] => [String c EmptyString]
        end
  end.

(** [url.split('\n').map(line => line.trim()).filter(line => line)] *)
Definition parseUrls (url : string) : list string :=
  filter (fun line => truthy line = true) (trim <$> splitLines url).

(** The body of the POST request. *)
Record RequestData := {
  req_username : string;
  req_passtoken : string;
  req_platform : string;
  url_type : string;
  url_process_type : string;
  page_turns : Z;
  raw_url_inputs : string
}.

(** [getApiEndpoint]: [None] is the thrown "unsupported platform" error. *)
Definition getApiEndpoint (platform : string) : option string :=
  if String.eqb platform "douyin"
  then Some (API_BASE_URL +:+ "/api/video/douyin-data")
  else if String.eqb platform "tiktok"
  then Some (API_BASE_URL +:+ "/api/video/tiktok-data")
  else None.

Section Loop.
Context {St : Type}.

(** [axios.post(apiEndpoint, requestData)]: the state after the call and
    [None] when it rejects, [Some None] when the answer has no [videos]
    array, [Some (Some videos)] otherwise. *)
Variable post : St -> string -> RequestData -> St * option (option (list Video)).

(** Lines 298-568, run for a non-empty [videos] array: table, field map,
    scan, classification and commit; what it throws is caught by the [catch]
    of the URL, so only the state after it matters here. *)
Variable writeVideos : St -> list Video -> St.

Variables (username passtoken platform linkType updateMethod : string).
Variable pageCount : Z.

(** The body of [for (const singleUrl of urls)], with its [try]/[catch]. *)
Definition processUrl (st : St) (singleUrl : string) : St :=
  let requestData :=
    {| req_username := username; req_passtoken := passtoken;
       req_platform := platform; url_type := linkType;
       url_process_type := updateMethod; page_turns := pageCount;
       raw_url_inputs := singleUrl |} in
  match getApiEndpoint platform with
  | None => st                                   (* thrown, caught, logged *)
  | Some apiEndpoint =>
      match post st apiEndpoint requestData with
      | (st', Some (Some (video :: videos))) => writeVideos st' (video :: videos)
      | (st', _) => st'
      end
  end.

Definition getVideosData (url : string) (st : St) : St :=
  if negb (truthy username) || negb (truthy passtoken) then st
  else if negb (truthy url) then st
  else
    match parseUrls url with
    | [] => st
    | urls => foldl processUrl st urls
    end.

End Loop.


(** [lines.join('\n')] *)
Fixpoint joinLines (lines : list string) : string :=
  match lines with
  | [] => EmptyString
  | [line] => line
  | line :: rest => line +:+ String (ascii_of_nat 10) (joinLines rest)
  end.

(** A server that records every request it receives, with its endpoint, and
    answers as [answer] says. *)
Definition recordingPost (answer : RequestData -> option (option (list Video)))
    (st : list (string * RequestData)) (apiEndpoint : string)
    (requestData : RequestData)
    : list (string * RequestData) * option (option (list Video)) :=
  (st ++ [(apiEndpoint, requestData)], answer requestData).

End Orchestration.

Import Orchestration.





Lemma getApiEndpoint_None (platform : string) :
  getApiEndpoint platform = None <-> platform <> "douyin" /\ platform <> "tiktok".
Proof.
  unfold getApiEndpoint.
  destruct (String.eqb_spec platform "douyin") as [->|H1].
  - split; [discriminate | intros [? _]; done].
  - destruct (String.eqb_spec platform "tiktok") as [->|H2].
    + split; [discriminate | intros [_ ?]; done].
    + split; done.
Qed.

(** X3. Without a user name, a password or a non-blank URL line, or with a
    platform other than douyin and tiktok, the engine sends no request and
    writes nothing: the state of the outside world is left as it was. *)
Theorem getVideosData_rejects_bad_input {St : Type}
    (post : St -> string -> RequestData -> St * option (option (list Video)))
    (writeVideos : St -> list Video -> St)
    (username passtoken platform linkType updateMethod : string)
    (pageCount : Z) (url : string) (st : St) :
  username = "" \/ passtoken = "" \/ parseUrls url = []
  \/ (platform <> "douyin" /\ platform <> "tiktok") ->
  getVideosData post writeVideos username passtoken platform linkType
    updateMethod pageCount url st = st.
Proof.
  intros Hbad. unfold getVideosData.
  destruct (truthy username) eqn:Tu; simpl; [|done].
  destruct (truthy passtoken) eqn:Tp; simpl; [|done].
  destruct (truthy url) eqn:Turl; simpl; [|done].
  apply truthy_true in Tu, Tp.
  destruct Hbad as [? | [? | [Hnil | Hplat]]];
    [contradiction | contradiction | rewrite Hnil; reflexivity |].
  apply getApiEndpoint_None in Hplat.
  assert (Hfold : forall l,
            foldl (processUrl post writeVideos username passtoken platform
                     linkType updateMethod pageCount) st l = st).
  { induction l as [|x l IH]; simpl; [done|].
    unfold processUrl at 2. by rewrite Hplat. }
  destruct (parseUrls url) as [|u urls]; [done | exact (Hfold (u :: urls))].
Qed.

Lemma getVideosData_rejects_bad_input_witness :
  getVideosData (recordingPost (fun _ => None)) (fun st _ => st)
    "user" "secret" "kuaishou" "homepage" "update" 1
    "https://v.example/u1" [] = [].
Proof.
  apply (getVideosData_rejects_bad_input (recordingPost (fun _ => None))
           (fun st _ => st) "user" "secret" "kuaishou" "homepage" "update" 1
           "https://v.example/u1" []).
  right. right. right. split; discriminate.
Defined.

(** X4. With credentials and a supported platform, the engine sends exactly
    one request per non-blank input line, in the order of the lines, to the
    endpoint of the platform and carrying that line, whatever the earlier
    requests returned: a URL that fails does not stop the ones after it. *)
Theorem getVideosData_requests_every_url
    (answer : RequestData -> option (option (list Video)))
    (username passtoken platform linkType updateMethod : string)
    (pageCount : Z) (url apiEndpoint : string) :
  username <> "" -> passtoken <> "" ->
  getApiEndpoint platform = Some apiEndpoint ->
  getVideosData (recordingPost answer) (fun st _ => st)
    username passtoken platform linkType updateMethod pageCount url []
  = (fun u => (apiEndpoint,
               {| req_username := username; req_passtoken := passtoken;
                  req_platform := platform; url_type := linkType;
                  url_process_type := updateMethod; page_turns := pageCount;
                  raw_url_inputs := u |})) <$> parseUrls url.
Proof.
  intros Hu Hp He. unfold getVideosData.
  apply truthy_true in Hu, Hp. rewrite Hu, Hp. simpl.
  destruct (truthy url) eqn:Turl; simpl.
  2:{ apply truthy_false in Turl. subst url. reflexivity. }
  set (mk := fun u => (apiEndpoint, _)).
  assert (Hfold : forall urls st,
            foldl (processUrl (recordingPost answer) (fun st _ => st)
                     username passtoken platform linkType updateMethod pageCount)
              st urls = st ++ (mk <$> urls)).
  { induction urls as [|u urls IH]; intros st; simpl; [by rewrite app_nil_r|].
    rewrite IH. unfold processUrl. rewrite He. unfold recordingPost.
    destruct (answer _) as [[[|? ?]|]|]; by rewrite <- app_assoc. }
  destruct (parseUrls url) as [|u urls] eqn:E; [done|].
  exact (Hfold (u :: urls) []).
Qed.

Lemma getVideosData_requests_every_url_witness :
  getVideosData (recordingPost (fun _ => None)) (fun st _ => st)
    "user" "secret" "douyin" "homepage" "update" 1
    (" https://v.example/u1 " +:+ String (ascii_of_nat 10) ("" +:+
       String (ascii_of_nat 10) "https://v.example/u2")) []
  = (fun u => ("https://www.ccai.fun/api/video/douyin-data",
               {| req_username := "user"; req_passtoken := "secret";
                  req_platform := "douyin"; url_type := "homepage";
                  url_process_type := "update"; page_turns := 1;
                  raw_url_inputs := u |}))
    <$> parseUrls (" https://v.example/u1 " +:+ String (ascii_of_nat 10) ("" +:+
                     String (ascii_of_nat 10) "https://v.example/u2")).
Proof.
  apply (getVideosData_requests_every_url (fun _ => None)
           "user" "secret" "douyin" "homepage" "update" 1 _
           "https://www.ccai.fun/api/video/douyin-data");
    [discriminate | discriminate | reflexivity].
Defined.

Example parseUrls_example :
  parseUrls (" https://v.example/u1 " +:+ String (ascii_of_nat 10) ("" +:+
               String (ascii_of_nat 10) "https://v.example/u2"))
  = ["https://v.example/u1"; "https://v.example/u2"].
Proof. vm_compute. reflexivity. Qed.


(** ** The countdown display ([formatCountdown], index.tsx, lines 200-205) *)

Module Countdown.

(** [Math.floor(seconds / 3600)] *)
Definition hoursOf (seconds : Z) : Z := (seconds / 3600)%Z.

(** [Math.floor((seconds % 3600) / 60)]; [%] is the remainder with the sign
    of the dividend. *)
Definition minutesOf (seconds : Z) : Z := (Z.rem seconds 3600 / 60)%Z.

(** [seconds % 60] *)
Definition secondsOf (seconds : Z) : Z := Z.rem seconds 60.

Definition formatCountdown (seconds : Z) : string :=
  Datastore.decimal (hoursOf seconds) +:+ "小时"
  +:+ Datastore.decimal (minutesOf seconds) +:+ "分"
  +:+ Datastore.decimal (secondsOf seconds) +:+ "秒".

End Countdown.

Import Countdown.

(** X5. For a countdown that is not negative, the hours, minutes and seconds
    shown add up to the countdown, with minutes and seconds below 60. *)
Theorem formatCountdown_parts (seconds : Z) :
  (0 <= seconds)%Z ->
  (hoursOf seconds * 3600 + minutesOf seconds * 60 + secondsOf seconds = seconds)%Z
  /\ (0 <= hoursOf seconds)%Z
  /\ (0 <= minutesOf seconds < 60)%Z
  /\ (0 <= secondsOf seconds < 60)%Z.
Proof.
  intros Hs. unfold hoursOf, minutesOf, secondsOf.
  rewrite !Z.rem_mod_nonneg by lia.
  pose proof (Z.div_mod seconds 3600 ltac:(lia)).
  pose proof (Z.mod_pos_bound seconds 3600 ltac:(lia)).
  pose proof (Z.div_mod (seconds mod 3600) 60 ltac:(lia)).
  pose proof (Z.mod_pos_bound (seconds mod 3600) 60 ltac:(lia)).
  pose proof (Z.div_mod seconds 60 ltac:(lia)).
  pose proof (Z.mod_pos_bound seconds 60 ltac:(lia)).
  assert ((seconds mod 3600) mod 60 = seconds mod 60)%Z.
  { apply (Z.mod_unique_pos seconds 60
             (60 * (seconds / 3600) + seconds mod 3600 / 60)); lia. }
  assert (0 <= seconds / 3600)%Z by (apply Z.div_pos; lia).
  assert (0 <= seconds mod 3600 / 60)%Z by (apply Z.div_pos; lia).
  lia.
Qed.

Lemma formatCountdown_parts_witness :
  (hoursOf 43199 * 3600 + minutesOf 43199 * 60 + secondsOf 43199 = 43199)%Z
  /\ (0 <= hoursOf 43199)%Z
  /\ (0 <= minutesOf 43199 < 60)%Z
  /\ (0 <= secondsOf 43199 < 60)%Z.
Proof. apply (formatCountdown_parts 43199). lia. Defined.

Example formatCountdown_example : formatCountdown 43199 = "11小时59分59秒".
Proof. vm_compute. reflexivity. Qed.

(** ** More on the scheduler *)

Lemma waitFrom_bounds (subRef : Z -> bool) (periodMs start : Z) :
  (0 <= periodMs)%Z ->
  forall fuel tick,
    (start + pollIntervalMs <= tick)%Z ->
    (Z.min (start + pollIntervalMs) (start + periodMs)
     <= waitFrom subRef periodMs fuel start tick <= start + periodMs)%Z.
Proof.
  intros Hp. unfold pollIntervalMs.
  induction fuel as [|fuel IH]; intros tick Htick; cbn [waitFrom].
  - lia.
  - destruct (Z.leb_spec (start + periodMs) tick); [lia|].
    destruct (subRef tick); simpl; [|lia].
    apply IH. unfold pollIntervalMs. lia.
Qed.

Lemma waitFrom_subscribed (subRef : Z -> bool) (periodMs start : Z) :
  (forall t, subRef t = true) ->
  forall fuel tick, waitFrom subRef periodMs fuel start tick = (start + periodMs)%Z.
Proof.
  intros Hon. induction fuel as [|fuel IH]; intros tick; cbn [waitFrom]; [done|].
  destruct (start + periodMs <=? tick)%Z; [done|].
  rewrite Hon. simpl. apply IH.
Qed.

(** X6. Whatever happens to the flag, a wait of the scheduler ends no later
    than the period and no earlier than the first poll (5000 ms) or the
    period, whichever comes first: the loop never spins. *)
Theorem wait_is_bounded (subRef : Z -> bool) (periodMs start : Z) :
  (0 <= periodMs)%Z ->
  (Z.min (start + pollIntervalMs) (start + periodMs)
   <= wait subRef periodMs start <= start + periodMs)%Z.
Proof. intros Hp. unfold wait. apply waitFrom_bounds; lia. Qed.

Lemma wait_is_bounded_witness :
  (Z.min (0 + pollIntervalMs) (0 + 43200000)
   <= wait (cancelledAt 12000) 43200000 0 <= 0 + 43200000)%Z.
Proof. apply (wait_is_bounded (cancelledAt 12000) 43200000 0). lia. Defined.

(** X7. While nobody cancels, every wait lasts exactly the period, so that
    the cycles begin at [start], [start + period], [start + 2 period], ...,
    whatever the time the task of a cycle takes, and the loop is not left
    after any number of cycles. *)
Theorem subscribed_loop_keeps_period (subRef : Z -> bool) (periodMs start : Z)
    (cycles : nat) :
  (forall t, subRef t = true) ->
  wait subRef periodMs start = (start + periodMs)%Z
  /\ loop subRef periodMs (S cycles) start
     = loop subRef periodMs cycles (start + periodMs)%Z
  /\ loop subRef periodMs cycles start = None.
Proof.
  intros Hon.
  assert (Hw : forall s, wait subRef periodMs s = (s + periodMs)%Z)
    by (intros s; unfold wait; by apply waitFrom_subscribed).
  split; [apply Hw|]. split.
  - cbn [loop]. by rewrite Hon, Hw.
  - revert start. induction cycles as [|c IH]; intros start; cbn [loop]; [done|].
    rewrite Hon, Hw. apply IH.
Qed.

Lemma subscribed_loop_keeps_period_witness :
  wait (fun _ => true) 43200000 0 = (0 + 43200000)%Z
  /\ loop (fun _ => true) 43200000 (S 3) 0
     = loop (fun _ => true) 43200000 3 (0 + 43200000)%Z
  /\ loop (fun _ => true) 43200000 3 0 = None.
Proof.
  apply (subscribed_loop_keeps_period (fun _ => true) 43200000 0 3).
  reflexivity.
Defined.

(** ** More on the DateNormalizer *)

(** X8. A numeric timestamp is understood in the same way whether it comes
    in seconds or in milliseconds: from 10,000,000 seconds on, the seconds
    value and the same instant in milliseconds are normalised alike. *)
Theorem seconds_and_milliseconds_agree (host : JsDate.Host) (n : Z) :
  (10000000 <= n < 10000000000)%Z ->
  normalizePublishTime host (JsNumber n)
  = normalizePublishTime host (JsNumber (n * 1000)).
Proof.
  intros Hn. simpl.
  destruct (Z.ltb_spec n 10000000000); [|lia].
  destruct (Z.ltb_spec (n * 1000) 10000000000); [lia|]. reflexivity.
Qed.

Lemma seconds_and_milliseconds_agree_witness :
  normalizePublishTime JsDate.utcHost (JsNumber 1696492800)
  = normalizePublishTime JsDate.utcHost (JsNumber (1696492800 * 1000)).
Proof. apply (seconds_and_milliseconds_agree JsDate.utcHost 1696492800). lia. Defined.

Lemma UTC_midnight (year month day t : Z) :
  JsDate.UTC year month day = Some t -> (t mod JsDate.msPerDay = 0)%Z.
Proof.
  unfold JsDate.UTC, JsDate.timeClip.
  destruct (Z.abs _ <=? JsDate.maxTime)%Z; [|discriminate].
  intros [= <-]. apply Z_mod_mult.
Qed.

Lemma yyyymmdd_host_independent (host host' : JsDate.Host) (s : string) :
  isYYYYMMDD s = true ->
  normalizePublishTime host (JsString s) = normalizePublishTime host' (JsString s).
Proof. intros Hs. simpl. by rewrite Hs. Qed.

(** X9. An 8-digit string that is accepted yields the midnight, in UTC, of
    the very date it spells: the timestamp is a whole number of days and its
    UTC year, month and day are the digits of the string; the time zone of
    the host plays no part. *)
Theorem yyyymmdd_is_utc_midnight (host : JsDate.Host) (s : string) (t : Z) :
  isYYYYMMDD s = true ->
  normalizePublishTime host (JsString s) = Some t ->
  (t mod 86400000 = 0)%Z
  /\ JsDate.getUTCFullYear t = parseInt10 (substring 0 4 s)
  /\ (JsDate.getUTCMonth t + 1)%Z = parseInt10 (substring 4 6 s)
  /\ JsDate.getUTCDate t = parseInt10 (substring 6 8 s)
  /\ normalizePublishTime JsDate.utcHost (JsString s) = Some t.
Proof.
  intros Hs Hn.
  pose proof Hn as Hn'.
  rewrite (yyyymmdd_host_independent host JsDate.utcHost s Hs) in Hn'.
  simpl in Hn. rewrite Hs in Hn.
  destruct (JsDate.UTC _ _ _) as [t'|] eqn:Hutc; [|discriminate].
  destruct (_ && _) eqn:Hchk; [|discriminate].
  injection Hn as ->.
  apply andb_true_iff in Hchk as [[Hy Hm]%andb_true_iff Hd].
  apply Z.eqb_eq in Hy, Hm, Hd.
  split; [exact (UTC_midnight _ _ _ _ Hutc)|].
  split; [done|]. split; [lia|]. split; done.
Qed.

Lemma yyyymmdd_is_utc_midnight_witness :
  (1696464000000 mod 86400000 = 0)%Z
  /\ JsDate.getUTCFullYear 1696464000000 = parseInt10 (substring 0 4 "20231005")
  /\ (JsDate.getUTCMonth 1696464000000 + 1)%Z = parseInt10 (substring 4 6 "20231005")
  /\ JsDate.getUTCDate 1696464000000 = parseInt10 (substring 6 8 "20231005")
  /\ normalizePublishTime JsDate.utcHost (JsString "20231005") = Some 1696464000000%Z.
Proof.
  apply (yyyymmdd_is_utc_midnight JsDate.utcHost "20231005" 1696464000000);
    reflexivity.
Defined.


(** ** More on the writer, the scan and the classification *)

(** X10. Chunking is invisible when the datastore accepts every batch: for a
    write that treats a batch as the succession of its parts, the chunked
    commit leaves the store exactly as one write of all the rows would, with
    the rows in their order. *)
Theorem chunked_commit_is_transparent {St A : Type} (write : St -> list A -> St)
    (st : St) (rows : list A) :
  (forall t, write t [] = t) ->
  (forall t a b, write t (a ++ b) = write (write t a) b) ->
  commitInBatches (fun t batch => (write t batch, true)) st rows = write st rows.
Proof. intros Hnil Happ. by apply commitInBatches_total. Qed.

Lemma chunked_commit_is_transparent_witness :
  commitInBatches (fun t batch => (t ++ batch, true)) [0] (seq 1 1200)
  = [0] ++ seq 1 1200.
Proof.
  apply (chunked_commit_is_transparent (fun t batch => t ++ batch) [0] (seq 1 1200)).
  - intros t. apply app_nil_r.
  - intros t a b. apply app_assoc.
Defined.

(** X11. Against a table of any size the paginated scan returns every row
    exactly once and in table order, as soon as it may issue one request
    per 5000 rows and one more. *)
Theorem scan_returns_every_row (table : Table) (fuel : nat) :
  length table < 5000 * fuel ->
  fetchAllRecords (getRecords table) fuel [] None = Some (toRecords table).
Proof.
  intros Hfuel.
  rewrite (fetchAllRecords_table table fuel 0 None []) by (done || lia).
  by rewrite drop_0.
Qed.

Definition manyRows (n : nat) : Table :=
  (fun i => {| row_id := Datastore.cursor i; row_cells := ∅ |}) <$> seq 0 n.

Lemma scan_returns_every_row_witness :
  fetchAllRecords (getRecords (manyRows 3)) 1 [] None = Some (toRecords (manyRows 3)).
Proof. apply (scan_returns_every_row (manyRows 3) 1). simpl. lia. Defined.


(** X12. When several rows carry the same canonical id, the index points to
    the last of them in scan order: an incoming record with that id updates
    that row. *)
Theorem index_keeps_last_duplicate
    (getCellString : string -> string -> option string)
    (fid : string) (before after : list IRecord) (row : IRecord)
    (stored : string) (m : gmap string string) :
  getCellString fid (recordId row) = Some stored ->
  stored <> "" ->
  (forall r s, r ∈ after -> getCellString fid (recordId r) = Some s ->
               s <> "" -> cleanVideoId s <> cleanVideoId stored) ->
  indexRecords getCellString fid (before ++ row :: after) m
    !! cleanVideoId stored = Some (recordId row).
Proof.
  intros Hcell Hne Hafter.
  rewrite indexRecords_app. simpl.
  rewrite indexRecords_other_keys by done.
  unfold indexRecord. rewrite Hcell.
  apply truthy_true in Hne. rewrite Hne. apply lookup_insert_eq.
Qed.

Lemma index_keeps_last_duplicate_witness :
  indexRecords (fun _ rid => if String.eqb rid "recC" then Some "7002" else Some " ABC ")
    "fldId"
    ([ {| recordId := "recA" |} ] ++ {| recordId := "recB" |} :: [ {| recordId := "recC" |} ])
    ∅ !! cleanVideoId " ABC " = Some (recordId {| recordId := "recB" |}).
Proof.
  apply (index_keeps_last_duplicate
           (fun _ rid => if String.eqb rid "recC" then Some "7002" else Some " ABC ")
           "fldId" [ {| recordId := "recA" |} ] [ {| recordId := "recC" |} ]
           {| recordId := "recB" |} " ABC " ∅).
  - reflexivity.
  - discriminate.
  - intros r s Hin Hs _. apply list_elem_of_singleton in Hin. subst r.
    simpl in Hs. injection Hs as <-. vm_compute. discriminate.
Defined.

(** The dedup index holds the canonical id of the record. *)
Definition indexed (existingVideoIds : gmap string string) (video : Video) : bool :=
  match findExisting existingVideoIds (aweme_id video) with
  | Some _ => true
  | None => false
  end.

(** X13. The index is not extended while a batch is classified: each record
    is judged against the rows that were in the table before the pass.  The
    insert list is, in the order of the batch, the field objects of the
    records whose id the index does not hold (a new id that occurs twice in
    the batch is inserted twice), and the update list is, in order, that of
    the other records, each with its field object and the record id the
    index holds for it. *)
Theorem inserts_are_the_unindexed_records (host : JsDate.Host)
    (fieldMap existingVideoIds : gmap string string) (videos : list Video)
    (idField : string) :
  resolved fieldMap col_aweme_id = Some idField ->
  Forall2 (fun video fields => buildFields host fieldMap video = Some fields)
    (filter (fun v => indexed existingVideoIds v = false) videos)
    (fst (classifyVideos host fieldMap existingVideoIds videos [] []))
  /\ Forall2
       (fun video u =>
          buildFields host fieldMap video = Some (upd_fields u)
          /\ findExisting existingVideoIds (aweme_id video) = Some (upd_recordId u))
       (filter (fun v => indexed existingVideoIds v = true) videos)
       (snd (classifyVideos host fieldMap existingVideoIds videos [] [])).
Proof.
  intros Hid. rewrite classifyVideos_omap. simpl.
  induction videos as [|v l [IH1 IH2]]; [split; constructor|].
  rewrite !filter_cons. cbn [omap list_omap].
  assert (Hc : (indexed existingVideoIds v = true
                /\ exists rid fields,
                     buildFields host fieldMap v = Some fields
                     /\ findExisting existingVideoIds (aweme_id v) = Some rid
                     /\ classify host fieldMap existingVideoIds v = ToUpdate rid fields)
               \/ (indexed existingVideoIds v = false
                   /\ exists fields,
                        buildFields host fieldMap v = Some fields
                        /\ classify host fieldMap existingVideoIds v = ToAdd fields)).
  { unfold indexed, classify.
    destruct (buildFields host fieldMap v) as [fields|] eqn:Hb;
      [|unfold buildFields in Hb; rewrite Hid in Hb; discriminate].
    destruct (findExisting existingVideoIds (aweme_id v)) as [rid|];
      [left | right]; eauto 10. }
  destruct Hc as [[Hi (rid & fields & Hb & Hf & Hc)] | [Hi (fields & Hb & Hc)]];
    rewrite Hc, Hi; simpl.
  - split; [exact IH1|]. constructor; [|exact IH2]. by simpl.
  - split; [|exact IH2]. constructor; [exact Hb | exact IH1].
Qed.

(** An index that holds the id of [sampleVideo], and a video that is not
    in it. *)
Definition indexOfSample : gmap string string := {[ "7001" := "recA" ]}.

Definition newVideo : Video :=
  {| nickname := "author"; aweme_id := "7002"; share_url := "";
     conv_create_time := JsNull; desc := "";
     digg_count := JsNull; collect_count := JsNull;
     comment_count := JsNull; duration := JsNull;
     play_addr := ""; audio_addr := "";
     share_count := JsNull; video_text_ori := None; video_text_arr := None |}.

Lemma inserts_are_the_unindexed_records_witness :
  Forall2 (fun video fields => buildFields JsDate.utcHost fullFieldMap video = Some fields)
    (filter (fun v => indexed indexOfSample v = false) [newVideo; sampleVideo; newVideo])
    (fst (classifyVideos JsDate.utcHost fullFieldMap indexOfSample
            [newVideo; sampleVideo; newVideo] [] []))
  /\ Forall2
       (fun video u =>
          buildFields JsDate.utcHost fullFieldMap video = Some (upd_fields u)
          /\ findExisting indexOfSample (aweme_id video) = Some (upd_recordId u))
       (filter (fun v => indexed indexOfSample v = true) [newVideo; sampleVideo; newVideo])
       (snd (classifyVideos JsDate.utcHost fullFieldMap indexOfSample
               [newVideo; sampleVideo; newVideo] [] [])).
Proof.
  apply (inserts_are_the_unindexed_records JsDate.utcHost fullFieldMap indexOfSample
           [newVideo; sampleVideo; newVideo] "fldId").
  vm_compute. reflexivity.
Defined.

Example duplicate_new_id_is_inserted_twice :
  length (fst (classifyVideos JsDate.utcHost fullFieldMap indexOfSample
                 [newVideo; sampleVideo; newVideo] [] [])) = 2
  /\ upd_recordId <$> snd (classifyVideos JsDate.utcHost fullFieldMap indexOfSample
                            [newVideo; sampleVideo; newVideo] [] []) = [ "recA" ].
Proof. split; vm_compute; reflexivity. Qed.


(** ** More on the fields of a record *)

Lemma assignIf_keeps fieldMap name value (fields : Fields) fid :
  is_Some (fields !! fid) -> is_Some (assignIf fieldMap name value fields !! fid).
Proof.
  intros Hs. unfold assignIf. destruct (resolved fieldMap name) as [id|]; [|done].
  destruct (decide (id = fid)) as [->|Hne].
  - rewrite lookup_insert_eq. eauto.
  - by rewrite lookup_insert_ne.
Qed.

Lemma assignIf_sets fieldMap name value (fields : Fields) fid :
  resolved fieldMap name = Some fid ->
  is_Some (assignIf fieldMap name value fields !! fid).
Proof. intros Hr. rewrite (lookup_assignIf_eq _ _ _ _ _ Hr). eauto. Qed.

Lemma assignDate_keeps host fieldMap video (fields : Fields) fid :
  is_Some (fields !! fid) -> is_Some (assignDate host fieldMap video fields !! fid).
Proof.
  intros Hs. unfold assignDate.
  destruct (resolved fieldMap col_conv_create_time) as [id|]; [|done].
  destruct (normalizePublishTime host (conv_create_time video)); [|done].
  destruct (decide (id = fid)) as [->|Hne].
  - rewrite lookup_insert_eq. eauto.
  - by rewrite lookup_insert_ne.
Qed.

(** X14. A record that is written carries a value for every resolved column
    other than the publish date, a default (the empty text or 0) standing in
    for what the API did not send: no resolved column is left out of a
    record. *)
Theorem every_resolved_column_is_written (host : JsDate.Host)
    (fieldMap : gmap string string) (video : Video) (idField : string) :
  resolved fieldMap col_aweme_id = Some idField ->
  exists fields,
    buildFields host fieldMap video = Some fields
    /\ forall name fid,
         name ∈ fieldMappingNames ->
         name <> col_conv_create_time ->
         resolved fieldMap name = Some fid ->
         is_Some (fields !! fid).
Proof.
  intros Hid. unfold buildFields. rewrite Hid.
  eexists. split; [reflexivity|].
  intros name fid Hin Hdate Hr. unfold fieldMappingNames in Hin.
  repeat (apply elem_of_cons in Hin as [-> | Hin]);
    try (by apply elem_of_nil in Hin); try done;
    repeat first [ apply assignIf_sets; exact Hr
                 | apply assignIf_keeps
                 | apply assignDate_keeps ].
  rewrite Hid in Hr. injection Hr as ->. rewrite lookup_insert_eq. eauto.
Qed.

Lemma every_resolved_column_is_written_witness :
  exists fields,
    buildFields JsDate.utcHost fullFieldMap namelessVideo = Some fields
    /\ forall name fid,
         name ∈ fieldMappingNames ->
         name <> col_conv_create_time ->
         resolved fullFieldMap name = Some fid ->
         is_Some (fields !! fid).
Proof.
  apply (every_resolved_column_is_written JsDate.utcHost fullFieldMap
           namelessVideo "fldId").
  vm_compute. reflexivity.
Defined.

(** X15. The publish-date cell of a record is the normalised timestamp, and
    it is absent from the record when the raw value cannot be normalised:
    an unparseable date never blocks the record and never writes a
    placeholder.  (The field id of the date column is assumed to be the id
    of no other column.) *)
Theorem date_cell_is_the_normalized_time (host : JsDate.Host)
    (fieldMap : gmap string string) (video : Video) (idField dateField : string) :
  resolved fieldMap col_aweme_id = Some idField ->
  resolved fieldMap col_conv_create_time = Some dateField ->
  (forall name, name ∈ fieldMappingNames -> name <> col_conv_create_time ->
                resolved fieldMap name <> Some dateField) ->
  exists fields,
    buildFields host fieldMap video = Some fields
    /\ fields !! dateField
       = FNumber <$> normalizePublishTime host (conv_create_time video).
Proof.
  intros Hid Hdate Hun. unfold buildFields. rewrite Hid.
  eexists. split; [reflexivity|].
  rewrite !lookup_assignIf_ne by
    (apply Hun; [unfold fieldMappingNames; set_solver | vm_compute; discriminate]).
  unfold assignDate. rewrite Hdate.
  destruct (normalizePublishTime host (conv_create_time video)) as [ts|]; simpl.
  - apply lookup_insert_eq.
  - rewrite !lookup_assignIf_ne by
      (apply Hun; [unfold fieldMappingNames; set_solver | vm_compute; discriminate]).
    rewrite lookup_insert_ne, lookup_empty; [done|].
    intros ->. apply (Hun col_aweme_id);
      [unfold fieldMappingNames; set_solver | vm_compute; discriminate | done].
Qed.

Lemma fullFieldMap_date_unshared :
  forall name, name ∈ fieldMappingNames -> name <> col_conv_create_time ->
               resolved fullFieldMap name <> Some "fldDate".
Proof.
  intros name Hin Hne. unfold fieldMappingNames in Hin.
  repeat (apply elem_of_cons in Hin as [-> | Hin];
          [first [done | vm_compute; discriminate]|]).
  by apply elem_of_nil in Hin.
Qed.

Lemma date_cell_is_the_normalized_time_witness :
  exists fields,
    buildFields JsDate.utcHost fullFieldMap namelessVideo = Some fields
    /\ fields !! "fldDate"
       = FNumber <$> normalizePublishTime JsDate.utcHost (conv_create_time namelessVideo).
Proof.
  apply (date_cell_is_the_normalized_time JsDate.utcHost fullFieldMap
           namelessVideo "fldId" "fldDate").
  - vm_compute. reflexivity.
  - vm_compute. reflexivity.
  - exact fullFieldMap_date_unshared.
Defined.

(** ** The end of the transcript pipeline: reconciliation followed by the
    write-back (index.tsx, lines 662-705) *)

(** The store after the write-back, [updateCount] and [failCount], as the
    closing log line reports them. *)
Definition finishPipeline {St : Type}
    (setRecords : St -> list UpdateRecord -> St * bool)
    (setRecord : St -> UpdateRecord -> St * bool)
    (st : St) (textFieldId : string) (processingVideos : list ProcessingVideo)
    : St * nat * nat :=
  let r := reconcile textFieldId processingVideos in
  let w := writeBack setRecords setRecord st (fst r) in
  (fst w, snd w, snd r).

Lemma reconcile_counts_every_item (textFieldId : string)
    (processingVideos : list ProcessingVideo) :
  length (fst (reconcile textFieldId processingVideos))
  + snd (reconcile textFieldId processingVideos) = length processingVideos.
Proof.
  unfold reconcile. rewrite reconcileLoop_contribution. simpl.
  induction processingVideos as [|v l IH]; [done|].
  rewrite filter_cons. simpl.
  destruct (contribution textFieldId v) eqn:E.
  - rewrite decide_False by done. simpl. f_equal. exact IH.
  - rewrite decide_True by done. simpl. rewrite Nat.add_succ_r. f_equal. exact IH.
Qed.

(** X16. At the end of the pipeline the rows that can be written are
    written, and the two counters of the summary account for every item but
    those whose own write was refused: success + failure + refused rows is
    the number of items, so an item whose single-row write fails is counted
    neither as a success nor as a failure. *)
Theorem pipeline_summary_counts (bad : UpdateRecord -> bool)
    (textFieldId : string) (processingVideos : list ProcessingVideo) :
  let planned := fst (reconcile textFieldId processingVideos) in
  let '(written, updateCount, failCount) :=
    finishPipeline (atomicBatch bad) (singleRow bad) [] textFieldId processingVideos in
  written = filter (fun r => bad r = false) planned
  /\ updateCount = length written
  /\ updateCount + failCount + length (filter (fun r => bad r = true) planned)
     = length processingVideos.
Proof.
  unfold finishPipeline.
  pose proof (reconcile_counts_every_item textFieldId processingVideos) as Hsum.
  set (planned := fst (reconcile textFieldId processingVideos)) in *.
  assert (Hw : writeBack (atomicBatch bad) (singleRow bad) [] planned
               = (filter (fun r => bad r = false) planned,
                  length (filter (fun r => bad r = false) planned))).
  { unfold writeBack. destruct planned as [|r rows]; [done|].
    change (Nat.ltb 0 (length (r :: rows))) with true. cbv iota.
    unfold atomicBatch at 1. destruct (existsb bad (r :: rows)) eqn:E.
    - by rewrite oneByOne_filter.
    - by rewrite existsb_false_filter. }
  rewrite Hw. simpl. split; [done|]. split; [done|].
  rewrite <- Hsum.
  assert (Hsplit : length (filter (fun r => bad r = false) planned)
                   + length (filter (fun r => bad r = true) planned)
                   = length planned).
  { clear. induction planned as [|r l IH]; [done|].
    rewrite !filter_cons. destruct (bad r); simpl; lia. }
  lia.
Qed.


(** ** The file name of an exported transcript ([downloadtxt], index.tsx,
    lines 331-337) *)

Module Download.

(** The texts handled here (descriptions, author names) are not ASCII, so a
    JavaScript string is the sequence of its UTF-16 code units: [length]
    and [substring] count code units, and a regular expression without the
    [u] flag matches them one by one. *)
Definition JsText : Type := list N.

(** The code units of an ASCII text. *)
Definition unitsOf (s : string) : JsText := N_of_ascii <$> list_ascii_of_string s.

(** The character class of the sanitising regular expression: backslash,
    slash, colon, asterisk, question mark, double quote, angle brackets and
    vertical bar. *)
Definition isForbidden (u : N) : bool :=
  (u =? 92)%N || (u =? 47)%N || (u =? 58)%N || (u =? 42)%N || (u =? 63)%N
  || (u =? 34)%N || (u =? 60)%N || (u =? 62)%N || (u =? 124)%N.

(** [s.replace(/[...]/g, '_')] over that class. *)
Fixpoint replaceForbidden (s : JsText) : JsText :=
  match s with
  | [] => []
  | u :: s' => (if isForbidden u then 95%N else u) :: replaceForbidden s'
  end.

(** The class [0-9]. *)
Definition isDigitUnit (u : N) : bool := (48 <=? u)%N && (u <=? 57)%N.

(** [s.replace(/[^0-9]/g, '')] *)
Fixpoint keepDigits (s : JsText) : JsText :=
  match s with
  | [] => []
  | u :: s' => if isDigitUnit u then u :: keepDigits s' else keepDigits s'
  end.

(** [s.substring(0, n)] *)
Definition substring0 (n : nat) (s : JsText) : JsText := take n s.

Definition createTimeShort (createTime : JsText) : JsText :=
  substring0 8 (keepDigits createTime).

Definition shortDesc (desc : JsText) : JsText :=
  if Nat.ltb 50 (length desc) then substring0 50 desc else desc.

Definition sanitizedDesc (desc : JsText) : JsText :=
  replaceForbidden (shortDesc desc).

Definition fileName (nickname createTime : JsText) (diggCount commentCount : Z)
    (desc : JsText) : JsText :=
  nickname ++ unitsOf "_" ++ createTimeShort createTime
  ++ unitsOf "_digg" ++ unitsOf (Datastore.decimal diggCount)
  ++ unitsOf "_comt" ++ unitsOf (Datastore.decimal commentCount)
  ++ unitsOf "_" ++ sanitizedDesc desc ++ unitsOf ".txt".

(** No code unit of the forbidden class occurs in the text. *)
Definition noForbidden (s : JsText) : bool := forallb (fun u => negb (isForbidden u)) s.

(** Every code unit is a digit. *)
Definition allDigitUnits (s : JsText) : bool := forallb isDigitUnit s.

End Download.

Import Download.

Lemma allDigitUnits_take (n : nat) (s : JsText) :
  allDigitUnits s = true -> allDigitUnits (take n s) = true.
Proof.
  unfold allDigitUnits.
  revert s. induction n as [|n IH]; intros [|u s]; simpl; auto.
  intros [Hu Hs]%andb_true_iff. rewrite Hu. simpl. by apply IH.
Qed.

Lemma keepDigits_allDigitUnits (s : JsText) : allDigitUnits (keepDigits s) = true.
Proof.
  induction s as [|u s IH]; simpl; [done|].
  destruct (isDigitUnit u) eqn:E; [simpl; by rewrite E | done].
Qed.

Lemma replaceForbidden_length (s : JsText) : length (replaceForbidden s) = length s.
Proof. induction s as [|u s IH]; simpl; [done | by rewrite IH]. Qed.

Lemma replaceForbidden_noForbidden (s : JsText) :
  noForbidden (replaceForbidden s) = true.
Proof.
  induction s as [|u s IH]; [done|]. cbn [replaceForbidden noForbidden forallb].
  fold (noForbidden (replaceForbidden s)). rewrite IH.
  destruct (isForbidden u) eqn:E; [reflexivity | by rewrite E].
Qed.

(** X17. In the name of an exported transcript file, the part taken from
    the description is at most 50 code units long (the first 50 of a longer
    description, a shorter one whole) and holds none of the characters a
    file name may not hold, and the part taken from the publish time is
    made of at most eight digits. *)
Theorem file_name_parts_are_safe (createTime desc : JsText) :
  length (sanitizedDesc desc) = Nat.min 50 (length desc)
  /\ noForbidden (sanitizedDesc desc) = true
  /\ allDigitUnits (createTimeShort createTime) = true
  /\ length (createTimeShort createTime) <= 8.
Proof.
  unfold sanitizedDesc, createTimeShort, shortDesc, substring0. repeat split.
  - rewrite replaceForbidden_length.
    destruct (Nat.ltb_spec 50 (length desc)).
    + rewrite length_take. lia.
    + lia.
  - apply replaceForbidden_noForbidden.
  - apply allDigitUnits_take, keepDigits_allDigitUnits.
  - rewrite length_take. lia.
Qed.

Example fileName_example :
  fileName (unitsOf "author") (unitsOf "2023/10/05 10:00") 12 4 (unitsOf "a/b: c?")
  = unitsOf "author_20231005_digg12_comt4_a_b_ c_.txt".
Proof. vm_compute. reflexivity. Qed.

(** A description of 27 Chinese characters, one code unit each, is kept
    whole; one of 60 is cut after the 50th. *)
Example chinese_description_is_kept :
  sanitizedDesc (replicate 27 27979%N) = replicate 27 27979%N.
Proof. vm_compute. reflexivity. Qed.

Example long_description_is_cut :
  sanitizedDesc (replicate 60 27979%N) = replicate 50 27979%N.
Proof. vm_compute. reflexivity. Qed.

(** ** Field metadata of the datastore *)

Module Schema.

(** An [IFieldMeta] as the code reads it. *)
Record FieldMeta := {
  field_id : string;
  field_name : string;
  field_isPrimary : bool
}.

(** [fields.find(f => f.name === name)] *)
Fixpoint findByName (fields : list FieldMeta) (name : string) : option FieldMeta :=
  match fields with
  | [] => None
  | f :: rest => if String.eqb (field_name f) name then Some f else findByName rest name
  end.

(** [fields.find(f => f.isPrimary)] *)
Fixpoint findPrimary (fields : list FieldMeta) : option FieldMeta :=
  match fields with
  | [] => None
  | f :: rest => if field_isPrimary f then Some f else findPrimary rest
  end.

End Schema.

(** ** The detection of new rows after a cycle
    ([executeSubscriptionTask], index.tsx, lines 786-829) *)

Module Subscription.
Import JsString Schema.

(** What the task reads of one table after the sync: each member is the
    result of an awaited call, [None] when the call rejects. *)
Record TableView := {
  tv_id : string;
  (** [table.getRecordIdList()] *)
  tv_recordIds : option (list string);
  (** [table.getFieldMetaList()] *)
  tv_fields : option (list FieldMeta);
  (** [table.getCellString(fieldId, recordId)] *)
  tv_cellString : string -> string -> option string
}.

(** [currentRecords.filter(id => !initialRecords.includes(id))] *)
Definition newRecordIds (initialRecords currentRecords : list string) : list string :=
  filter (fun id => id ∉ initialRecords) currentRecords.

(** [Promise.all(ids.map(async id => ...))]: rejects as soon as one read
    rejects. *)
Fixpoint readAll (cell : string -> option string) (ids : list string)
    : option (list string) :=
  match ids with
  | [] => Some []
  | id :: rest =>
      match cell id, readAll cell rest with
      | Some s, Some l => Some (s :: l)
      | _, _ => None
      end
  end.

(** [awemeId?.trim() || null], then [filter(Boolean)]. *)
Definition trimmedIds (cells : list string) : list string :=
  filter (fun s => truthy s = true) (trim <$> cells).

(** Step 4, the loop over the tables listed at the start of the cycle:
    [allNewRecords], or [None] when a call rejects (the task then ends in
    its [catch]). *)
Fixpoint detectNew (allInitialRecords : gmap string (list string))
    (tables : list TableView) : option (list (string * list string)) :=
  match tables with
  | [] => Some []
  | table :: rest =>
      let initialRecords := default [] (allInitialRecords !! tv_id table) in
      match tv_recordIds table with
      | None => None
      | Some currentRecords =>
          let new := newRecordIds initialRecords currentRecords in
          match new with
          | [] => detectNew allInitialRecords rest
          | _ =>
              match tv_fields table with
              | None => None
              | Some fields =>
                  match findByName fields "视频编号" with
                  | None => detectNew allInitialRecords rest
                  | Some videoIdField =>
                      match readAll (tv_cellString table (field_id videoIdField)) new with
                      | None => None
                      | Some cells =>
                          match detectNew allInitialRecords rest with
                          | Some l => Some ((tv_id table, trimmedIds cells) :: l)
                          | None => None
                          end
                      end
                  end
              end
          end
      end
  end.

(** Step 5: the [aweme_ids] of the notification that is posted, [Some None]
    when none is posted, [None] when the task failed before. *)
Definition notification (allInitialRecords : gmap string (list string))
    (tables : list TableView) : option (option (list string)) :=
  match detectNew allInitialRecords tables with
  | None => None
  | Some [] => Some None
  | Some allNewRecords => Some (Some (concat (snd <$> allNewRecords)))
  end.

End Subscription.

Import Schema Subscription.

Lemma readAll_elem (cell : string -> option string) (ids cells : list string) (s : string) :
  readAll cell ids = Some cells -> s ∈ cells ->
  exists id, id ∈ ids /\ cell id = Some s.
Proof.
  revert cells. induction ids as [|id ids IH]; intros cells Hr Hin; simpl in Hr.
  - injection Hr as <-. by apply elem_of_nil in Hin.
  - destruct (cell id) as [s0|] eqn:Hc; [|discriminate].
    destruct (readAll cell ids) as [l|]; [|discriminate].
    injection Hr as <-. apply elem_of_cons in Hin as [-> | Hin].
    + exists id. split; [by left | done].
    + destruct (IH l eq_refl Hin) as (id' & ? & ?). exists id'. split; [by right | done].
Qed.

Lemma elem_of_concat {A : Type} (x : A) (ls : list (list A)) :
  x ∈ concat ls -> exists l, x ∈ l /\ l ∈ ls.
Proof.
  induction ls as [|l ls IH]; simpl; intros Hin.
  - by apply elem_of_nil in Hin.
  - apply elem_of_app in Hin as [Hin | Hin].
    + exists l. split; [done | by left].
    + destruct (IH Hin) as (l' & ? & ?). exists l'. split; [done | by right].
Qed.

(** An id of the payload and the new row it was read from. *)
Definition reportedFrom (allInitialRecords : gmap string (list string))
    (tables : list TableView) (awemeId : string) : Prop :=
  exists table currentRecords fields videoIdField rid cell,
    table ∈ tables
    /\ tv_recordIds table = Some currentRecords
    /\ rid ∈ currentRecords
    /\ (rid ∉ default [] (allInitialRecords !! tv_id table))
    /\ tv_fields table = Some fields
    /\ findByName fields "视频编号" = Some videoIdField
    /\ tv_cellString table (field_id videoIdField) rid = Some cell
    /\ awemeId = trim cell.

Lemma detectNew_sound allInitialRecords tables :
  forall allNewRecords tableId awemeIds awemeId,
    detectNew allInitialRecords tables = Some allNewRecords ->
    (tableId, awemeIds) ∈ allNewRecords -> awemeId ∈ awemeIds ->
    awemeId <> "" /\ reportedFrom allInitialRecords tables awemeId.
Proof.
  induction tables as [|table rest IH]; intros l tid ids a Hd Hin Ha; simpl in Hd.
  - injection Hd as <-. by apply elem_of_nil in Hin.
  - assert (Hrest : forall l', detectNew allInitialRecords rest = Some l' ->
              (tid, ids) ∈ l' ->
              a <> "" /\ reportedFrom allInitialRecords (table :: rest) a).
    { intros l' Hl' Hin'. destruct (IH l' tid ids a Hl' Hin' Ha) as [Hne Hrep].
      split; [done|].
      destruct Hrep as (t & cur & fs & f & rid & c & Ht & Hrest).
      exists t, cur, fs, f, rid, c. split; [by right | done]. }
    destruct (tv_recordIds table) as [cur|] eqn:Hcur; [|discriminate].
    destruct (newRecordIds _ cur) as [|n news] eqn:Hnew; [by apply (Hrest l)|].
    destruct (tv_fields table) as [fs|] eqn:Hfs; [|discriminate].
    destruct (findByName fs "视频编号") as [f|] eqn:Hf; [|by apply (Hrest l)].
    destruct (readAll _ (n :: news)) as [cells|] eqn:Hcells; [|discriminate].
    destruct (detectNew allInitialRecords rest) as [l'|] eqn:Hl'; [|discriminate].
    injection Hd as <-. apply elem_of_cons in Hin as [[= -> ->] | Hin].
    + unfold trimmedIds in Ha. apply list_elem_of_filter in Ha as [Ht Ha].
      apply list_elem_of_fmap in Ha as (c & -> & Hc).
      split; [by apply truthy_true|].
      destruct (readAll_elem _ _ _ _ Hcells Hc) as (rid & Hrid & Hcell).
      rewrite <- Hnew in Hrid. unfold newRecordIds in Hrid.
      apply list_elem_of_filter in Hrid as [Hnotin Hrid].
      exists table, cur, fs, f, rid, c. split; [by left | done].
    + by apply (Hrest l').
Qed.

Lemma detectNew_nothing_new allInitialRecords tables :
  (forall table currentRecords rid,
     table ∈ tables -> tv_recordIds table = Some currentRecords ->
     rid ∈ currentRecords -> rid ∈ default [] (allInitialRecords !! tv_id table)) ->
  detectNew allInitialRecords tables = None
  \/ detectNew allInitialRecords tables = Some [].
Proof.
  induction tables as [|table rest IH]; intros Hold; simpl; [by right|].
  destruct (tv_recordIds table) as [cur|] eqn:Hcur; [|by left].
  assert (Hnil : newRecordIds (default [] (allInitialRecords !! tv_id table)) cur = []).
  { unfold newRecordIds.
    assert (Hall : forall rid, rid ∈ cur ->
              rid ∈ default [] (allInitialRecords !! tv_id table))
      by (intros rid Hrid; apply (Hold table cur); [by left | done | done]).
    clear Hcur Hold IH. induction cur as [|rid cur IHc]; [done|].
    rewrite filter_cons, decide_False by (intros Hn; apply Hn, Hall; by left).
    apply IHc. intros r Hr. apply Hall. by right. }
  rewrite Hnil. apply IH. intros t c r Ht. apply Hold. by right.
Qed.

(** X18. The ids of a notification are trimmed and not empty, and each one
    was read from a row that is in a listed table now and was not in its
    snapshot taken at the start of the cycle; when no listed table holds a
    row that its snapshot lacks, no notification is posted. *)
Theorem notification_reports_new_rows_only
    (allInitialRecords : gmap string (list string)) (tables : list TableView) :
  (forall awemeIds awemeId,
     notification allInitialRecords tables = Some (Some awemeIds) ->
     awemeId ∈ awemeIds ->
     awemeId <> "" /\ trim awemeId = awemeId
     /\ reportedFrom allInitialRecords tables awemeId)
  /\ ((forall table currentRecords rid,
         table ∈ tables -> tv_recordIds table = Some currentRecords ->
         rid ∈ currentRecords ->
         rid ∈ default [] (allInitialRecords !! tv_id table)) ->
      forall awemeIds,
        notification allInitialRecords tables <> Some (Some awemeIds)).
Proof.
  split.
  - intros ids a Hn Ha. unfold notification in Hn.
    destruct (detectNew allInitialRecords tables) as [[|p l]|] eqn:Hd;
      [discriminate | | discriminate].
    injection Hn as <-.
    assert (Ha' : a ∈ concat (snd <$> p :: l)) by exact Ha. clear Ha.
    apply elem_of_concat in Ha' as (ids' & Ha & Hin).
    apply list_elem_of_fmap in Hin as ([tid ids''] & -> & Hin). simpl in Ha.
    destruct (detectNew_sound _ _ _ _ _ _ Hd Hin Ha) as [Hne Hrep].
    split; [done|]. split; [|done].
    destruct Hrep as (? & ? & ? & ? & ? & c & _ & _ & _ & _ & _ & _ & _ & ->).
    apply trim_idem.
  - intros Hold ids Hn. unfold notification in Hn.
    destruct (detectNew_nothing_new _ _ Hold) as [Hd | Hd]; rewrite Hd in Hn;
      discriminate.
Qed.

Definition viewWithNewRow : TableView :=
  {| tv_id := "tblA";
     tv_recordIds := Some ["rec0"; "rec1"];
     tv_fields := Some [ {| field_id := "fldId"; field_name := "视频编号";
                            field_isPrimary := true |} ];
     tv_cellString := fun _ rid => if String.eqb rid "rec1" then Some " 7001 " else Some "" |}.

Example notification_example :
  notification {[ "tblA" := ["rec0"] ]} [viewWithNewRow] = Some (Some ["7001"])
  /\ notification {[ "tblA" := ["rec0"; "rec1"] ]} [viewWithNewRow] = Some None.
Proof. split; vm_compute; reflexivity. Qed.

(** ** The choice of the rows that need a transcript
    ([handleVideoText], index.tsx, lines 558-624) *)

Module Selection.
Import JsString Schema Pipeline.

(** The value of a cell as [getCellValue] gives it: [null], a number, or an
    object (the segments of a text cell, always truthy). *)
Inductive CellValue :=
| CellNull
| CellNumber (n : Z)
| CellSegments (text : string).

(** Truthiness of a cell value. *)
Definition truthyCell (v : CellValue) : bool :=
  match v with
  | CellNull => false
  | CellNumber n => negb (n =? 0)%Z
  | CellSegments _ => true
  end.

(** The object pushed to [processingVideos] at line 605. *)
Record NewItem := {
  item_recordId : string;
  item_aweme_id : string;
  item_play_addr : option string;
  item_audio_addr : option string;
  item_duration : option Z;
  item_status : Status
}.

Section Select.
(** [table.getCellValue(fieldId, recordId)], [None] when it rejects. *)
Variable getCellValue : string -> string -> option CellValue.
(** [table.getCellString(fieldId, recordId)], [None] when it rejects. *)
Variable getCellString : string -> string -> option string.

(** Step 3: the records whose transcript cell is falsy; a record whose cell
    cannot be read is passed over with a warning. *)
Fixpoint recordsToFetchDetails (textField : FieldMeta) (recordIdList : list string)
    : list string :=
  match recordIdList with
  | [] => []
  | recordId :: rest =>
      match getCellValue (field_id textField) recordId with
      | Some textValue =>
          if truthyCell textValue then recordsToFetchDetails textField rest
          else recordId :: recordsToFetchDetails textField rest
      | None => recordsToFetchDetails textField rest
      end
  end.

(** [field ? await table.getCellString(field.id, recordId) : null]; the
    outer [None] is the rejected call. *)
Definition optionalCell (field : option FieldMeta) (recordId : string)
    : option (option string) :=
  match field with
  | Some f =>
      match getCellString (field_id f) recordId with
      | Some s => Some (Some s)
      | None => None
      end
  | None => Some None
  end.

(** The duration read for an item; only a number is kept. *)
Definition optionalDuration (field : option FieldMeta) (recordId : string)
    : option (option Z) :=
  match field with
  | Some f =>
      match getCellValue (field_id f) recordId with
      | Some (CellNumber n) => Some (Some n)
      | Some _ => Some None
      | None => None
      end
  | None => Some None
  end.

(** The body of the loop of step 4: [None] when the record is skipped (no
    video id, or a call rejected). *)
Definition buildItem (videoIdField : FieldMeta)
    (playAddrField audioAddrField durationField : option FieldMeta)
    (recordId : string) : option NewItem :=
  match getCellString (field_id videoIdField) recordId with
  | None => None
  | Some videoIdValue =>
      if truthy videoIdValue then
        match optionalCell playAddrField recordId with
        | None => None
        | Some playAddr =>
            match optionalCell audioAddrField recordId with
            | None => None
            | Some audioAddr =>
                match optionalDuration durationField recordId with
                | None => None
                | Some duration =>
                    Some {| item_recordId := recordId;
                            item_aweme_id := videoIdValue;
                            item_play_addr := playAddr;
                            item_audio_addr := audioAddr;
                            item_duration := duration;
                            item_status := pending |}
                end
            end
        end
      else None
  end.

(** Steps 2 to 4: the items the pipeline will work on; [None] when the
    table lacks the transcript column or the video-id column. *)
Definition selectItems (fields : list FieldMeta) (recordIdList : list string)
    : option (list NewItem) :=
  match findByName fields "文案", findByName fields "视频编号" with
  | Some textField, Some videoIdField =>
      Some (omap (buildItem videoIdField
                    (findByName fields "下载链接")
                    (findByName fields "音频链接")
                    (findByName fields "时长"))
              (recordsToFetchDetails textField recordIdList))
  | _, _ => None
  end.

End Select.

End Selection.

Import Selection.

Lemma recordsToFetchDetails_spec getCellValue textField recordIdList rid :
  rid ∈ recordsToFetchDetails getCellValue textField recordIdList ->
  rid ∈ recordIdList
  /\ exists v, getCellValue (field_id textField) rid = Some v /\ truthyCell v = false.
Proof.
  induction recordIdList as [|r l IH]; simpl; intros Hin.
  - by apply elem_of_nil in Hin.
  - destruct (getCellValue (field_id textField) r) as [v|] eqn:Hv.
    + destruct (truthyCell v) eqn:T.
      * destruct (IH Hin) as [? ?]. split; [by right | done].
      * apply elem_of_cons in Hin as [-> | Hin].
        -- split; [by left | eauto].
        -- destruct (IH Hin) as [? ?]. split; [by right | done].
    + destruct (IH Hin) as [? ?]. split; [by right | done].
Qed.

Lemma recordsToFetchDetails_sublist getCellValue textField recordIdList :
  recordsToFetchDetails getCellValue textField recordIdList `sublist_of` recordIdList.
Proof.
  induction recordIdList as [|r l IH]; simpl; [done|].
  destruct (getCellValue (field_id textField) r) as [v|].
  - destruct (truthyCell v); [by apply sublist_cons | by apply sublist_skip].
  - by apply sublist_cons.
Qed.

Lemma buildItem_spec getCellValue getCellString videoIdField p a d rid item :
  buildItem getCellValue getCellString videoIdField p a d rid = Some item ->
  item_recordId item = rid /\ item_status item = pending
  /\ item_aweme_id item <> ""
  /\ getCellString (field_id videoIdField) rid = Some (item_aweme_id item).
Proof.
  unfold buildItem.
  destruct (getCellString (field_id videoIdField) rid) as [s|]; [|discriminate].
  destruct (truthy s) eqn:T; [|discriminate].
  destruct (optionalCell _ p rid); [|discriminate].
  destruct (optionalCell _ a rid); [|discriminate].
  destruct (optionalDuration _ d rid); [|discriminate].
  intros [= <-]. simpl. by apply truthy_true in T.
Qed.

Lemma omap_buildItem_sublist {A B : Type} (f : A -> option B) (g : B -> A) (l : list A) :
  (forall x y, f x = Some y -> g y = x) ->
  g <$> omap f l `sublist_of` l.
Proof.
  intros Hg. induction l as [|x l IH]; simpl; [done|].
  destruct (f x) as [y|] eqn:E; simpl.
  - rewrite (Hg x y E). by apply sublist_skip.
  - by apply sublist_cons.
Qed.

(** X19. The pipeline works only on rows that need it: every item it builds
    is [pending], has a non-empty video id read from its row, and belongs to
    a row whose transcript cell was read and found empty; the items follow
    the order of the rows, each row at most once.  A row that already has a
    transcript, or whose cells cannot be read, is left alone. *)
Theorem selected_items_need_a_transcript
    (getCellValue : string -> string -> option CellValue)
    (getCellString : string -> string -> option string)
    (fields : list FieldMeta) (recordIdList : list string) (items : list NewItem) :
  selectItems getCellValue getCellString fields recordIdList = Some items ->
  exists textField videoIdField,
    findByName fields "文案" = Some textField
    /\ findByName fields "视频编号" = Some videoIdField
    /\ item_recordId <$> items `sublist_of` recordIdList
    /\ forall item, item ∈ items ->
         item_status item = pending
         /\ item_aweme_id item <> ""
         /\ getCellString (field_id videoIdField) (item_recordId item)
            = Some (item_aweme_id item)
         /\ exists v, getCellValue (field_id textField) (item_recordId item) = Some v
                      /\ truthyCell v = false.
Proof.
  unfold selectItems.
  destruct (findByName fields "文案") as [textField|]; [|discriminate].
  destruct (findByName fields "视频编号") as [videoIdField|]; [|discriminate].
  intros [= <-]. exists textField, videoIdField.
  split; [done|]. split; [done|]. split.
  - etrans; [|apply (recordsToFetchDetails_sublist getCellValue textField)].
    apply omap_buildItem_sublist. intros rid item Hb.
    by apply buildItem_spec in Hb as [? _].
  - intros item (rid & Hrid & Hb)%list_elem_of_omap.
    apply buildItem_spec in Hb as (<- & Hst & Hne & Hcell).
    split; [done|]. split; [done|]. split; [done|].
    by apply recordsToFetchDetails_spec in Hrid as [_ ?].
Qed.

Definition sampleFields : list FieldMeta :=
  [ {| field_id := "fldId"; field_name := "视频编号"; field_isPrimary := true |};
    {| field_id := "fldText"; field_name := "文案"; field_isPrimary := false |};
    {| field_id := "fldDur"; field_name := "时长"; field_isPrimary := false |} ].

(** Row [rec0] has a transcript, row [rec1] has none, row [rec2] has neither
    transcript nor video id. *)
Definition sampleCellValue (fid rid : string) : option CellValue :=
  if String.eqb fid "fldText"
  then (if String.eqb rid "rec0" then Some (CellSegments "done") else Some CellNull)
  else Some (CellNumber 15).

Definition sampleCellString (fid rid : string) : option string :=
  if String.eqb rid "rec2" then Some "" else Some "7001".

Lemma selected_items_need_a_transcript_witness :
  exists textField videoIdField,
    findByName sampleFields "文案" = Some textField
    /\ findByName sampleFields "视频编号" = Some videoIdField
    /\ item_recordId <$>
         [ {| item_recordId := "rec1"; item_aweme_id := "7001";
              item_play_addr := None; item_audio_addr := None;
              item_duration := Some 15%Z; item_status := pending |} ]
       `sublist_of` ["rec0"; "rec1"; "rec2"]
    /\ forall item,
         item ∈ [ {| item_recordId := "rec1"; item_aweme_id := "7001";
                     item_play_addr := None; item_audio_addr := None;
                     item_duration := Some 15%Z; item_status := pending |} ] ->
         item_status item = pending
         /\ item_aweme_id item <> ""
         /\ sampleCellString (field_id videoIdField) (item_recordId item)
            = Some (item_aweme_id item)
         /\ exists v, sampleCellValue (field_id textField) (item_recordId item) = Some v
                      /\ truthyCell v = false.
Proof.
  apply (selected_items_need_a_transcript sampleCellValue sampleCellString
           sampleFields ["rec0"; "rec1"; "rec2"]).
  vm_compute. reflexivity.
Defined.


(** ** The table and its columns: [getOrCreateTable] and
    [ensureFieldsExist] (get_videosdata.ts, lines 53-207) *)

Module FieldMapper.
Import JsString Schema SyncEngine.

(** The field types [fieldMapping] uses. *)
Inductive FieldType := Text | Url | DateTime | Number.

(** [fieldMapping], in the order of its keys: column name and type. *)
Definition fieldMapping : list (string * FieldType) :=
  [ (col_nickname, Text); (col_aweme_id, Text); (col_share_url, Url);
    (col_conv_create_time, DateTime); (col_desc, Text);
    (col_digg_count, Number); (col_collect_count, Number);
    (col_comment_count, Number); (col_duration, Number);
    (col_play_addr, Url); (col_audio_addr, Url); (col_share_count, Number);
    (col_video_text_arr, Text) ].

(** What [table.addField] gives back. *)
Inductive AddFieldResult :=
| AddRejected                  (* the promise rejects *)
| AddedWithId (id : string)    (* an object with an [id] member *)
| AddedOther.                  (* any other value, such as the bare id *)

(** [fields.forEach(field => { fieldMap[field.name] = field.id })] *)
Definition recordFields (fields : list FieldMeta) (fieldMap : gmap string string)
    : gmap string string :=
  foldl (fun m field => <[field_name field := field_id field]> m) fieldMap fields.

(** [existingFieldNames.has(name)] *)
Definition hasName (fieldsMeta : list FieldMeta) (name : string) : bool :=
  existsb (fun field => String.eqb (field_name field) name) fieldsMeta.

(** [fieldMap[name]] as a condition. *)
Definition mapped (fieldMap : gmap string string) (name : string) : bool :=
  match fieldMap !! name with
  | Some id => truthy id
  | None => false
  end.

(** The two [if (!fieldMap[name])] blocks: take the id of the first field of
    that name in the first listing. *)
Definition patchFromListing (fieldsMeta : list FieldMeta)
    (fieldMap : gmap string string) (name : string) : gmap string string :=
  if mapped fieldMap name then fieldMap
  else
    match findByName fieldsMeta name with
    | Some field => <[name := field_id field]> fieldMap
    | None => fieldMap
    end.

Section Ensure.
Context {St : Type}.
(** [table.getFieldMetaList()], [None] when it rejects. *)
Variable getFieldMetaList : St -> option (list FieldMeta).
(** [table.getName()], [None] when it rejects. *)
Variable getName : St -> option string.
(** [table.addField({type, name})] *)
Variable addField : St -> FieldType -> string -> St * AddFieldResult.

(** The body of [for (const key in fieldMapping)]. *)
Definition ensureField (fieldsMeta : list FieldMeta)
    (acc : St * gmap string string) (entry : string * FieldType)
    : St * gmap string string :=
  let '(st, fieldMap) := acc in
  let '(targetFieldName, type) := entry in
  if negb (hasName fieldsMeta targetFieldName)
     && negb (String.eqb targetFieldName "视频编号")
  then
    match addField st type targetFieldName with
    | (st', AddRejected) => (st', fieldMap)
    | (st', AddedWithId id) => (st', <[targetFieldName := id]> fieldMap)
    | (st', AddedOther) =>
        match getFieldMetaList st' with
        | Some updatedFieldsMeta => (st', recordFields updatedFieldsMeta fieldMap)
        | None => (st', fieldMap)               (* caught with the rest *)
        end
    end
  else if hasName fieldsMeta targetFieldName
  then (st, patchFromListing fieldsMeta fieldMap targetFieldName)
  else if String.eqb targetFieldName "视频编号"
  then (st, patchFromListing fieldsMeta fieldMap targetFieldName)
  else (st, fieldMap).

(** [ensureFieldsExist]: the state of the datastore afterwards and the
    field map, [None] when the function throws (the first listing or
    [getName] rejects). *)
Definition ensureFieldsExist (st : St) : St * option (gmap string string) :=
  match getFieldMetaList st with
  | None => (st, None)
  | Some fieldsMeta =>
      match getName st with
      | None => (st, None)
      | Some _ =>
          let '(st', fieldMap) :=
            foldl (ensureField fieldsMeta) (st, recordFields fieldsMeta ∅) fieldMapping in
          (st', Some fieldMap)
      end
  end.

End Ensure.

(** A [TableMeta] as [getOrCreateTable] reads it. *)
Record TableMeta := { table_id : string; table_name : string }.

(** [tables.find(t => t.name === tableName)] *)
Fixpoint findTable (tables : list TableMeta) (tableName : string) : option TableMeta :=
  match tables with
  | [] => None
  | t :: rest => if String.eqb (table_name t) tableName then Some t else findTable rest tableName
  end.

Section GetOrCreate.
Context {St : Type}.
(** [base.getTableMetaList()], [None] when it rejects. *)
Variable getTableMetaList : St -> option (list TableMeta).
(** [base.addTable({name, fields: []})]: the new table id, [None] when it
    rejects. *)
Variable addTable : St -> string -> St * option string.
(** [base.getTableById(id)]: [None] when it rejects, [Some false] when it
    resolves to no table object. *)
Variable getTableById : St -> string -> option bool.
(** [table.getFieldMetaList()] of the table with that id. *)
Variable getFieldMetaList : St -> string -> option (list FieldMeta).
(** [table.setField(fieldId, {name})]: [false] when it rejects. *)
Variable setField : St -> string -> string -> string -> St * bool.

(** The rename of the primary field of a new table, in its [try]. *)
Definition renamePrimary (st : St) (tableId : string) : St :=
  match getFieldMetaList st tableId with
  | None => st
  | Some initialFields =>
      match findPrimary initialFields with
      | Some primaryField =>
          fst (setField st tableId (field_id primaryField) "视频编号")
      | None => st
      end
  end.

(** [getOrCreateTable]: the state afterwards and the id of the table,
    [None] when the function throws. *)
Definition getOrCreateTable (tableName : string) (st : St) : St * option string :=
  match getTableMetaList st with
  | None => (st, None)
  | Some tables =>
      match findTable tables tableName with
      | None =>
          match addTable st tableName with
          | (st1, None) => (st1, None)
          | (st1, Some tableId) =>
              match getTableById st1 tableId with
              | Some true => (renamePrimary st1 tableId, Some tableId)
              | _ => (st1, None)
              end
          end
      | Some tableMeta =>
          match getTableById st (table_id tableMeta) with
          | Some true => (st, Some (table_id tableMeta))
          | _ => (st, None)
          end
      end
  end.

End GetOrCreate.

End FieldMapper.

Import FieldMapper.

Lemma hasName_elem (fieldsMeta : list FieldMeta) (name : string) :
  hasName fieldsMeta name = true <-> name ∈ field_name <$> fieldsMeta.
Proof.
  unfold hasName. induction fieldsMeta as [|f l IH]; simpl.
  - split; [discriminate | intros H; by apply elem_of_nil in H].
  - rewrite orb_true_iff, IH, elem_of_cons.
    destruct (String.eqb_spec (field_name f) name); split; intros [?|?]; auto;
      try discriminate; congruence.
Qed.

Lemma recordFields_app fields1 fields2 fieldMap :
  recordFields (fields1 ++ fields2) fieldMap
  = recordFields fields2 (recordFields fields1 fieldMap).
Proof. apply foldl_app. Qed.

Lemma recordFields_lookup (fields : list FieldMeta) : forall fieldMap name id,
  recordFields fields fieldMap !! name = Some id ->
  (exists f, f ∈ fields /\ field_name f = name /\ field_id f = id)
  \/ fieldMap !! name = Some id.
Proof.
  induction fields as [|f l IH]; intros m name id Hl; [by right|].
  unfold recordFields in Hl. simpl in Hl. fold (recordFields l) in Hl.
  apply IH in Hl as [(f' & ? & ? & ?) | Hl].
  - left. exists f'. split; [by right | done].
  - destruct (decide (field_name f = name)) as [<-|Hne].
    + rewrite lookup_insert_eq in Hl. injection Hl as <-.
      left. exists f. split; [by left | done].
    + rewrite lookup_insert_ne in Hl by done. by right.
Qed.

Lemma recordFields_is_Some (fields : list FieldMeta) : forall fieldMap name,
  name ∈ field_name <$> fields \/ is_Some (fieldMap !! name) ->
  is_Some (recordFields fields fieldMap !! name).
Proof.
  induction fields as [|f l IH]; intros m name Hn.
  - destruct Hn as [Hn | ?]; [by apply elem_of_nil in Hn | done].
  - unfold recordFields. simpl. fold (recordFields l). apply IH.
    simpl in Hn. destruct Hn as [Hn | Hm].
    + apply elem_of_cons in Hn as [-> | Hn]; [|by left].
      right. rewrite lookup_insert_eq. eauto.
    + right. destruct (decide (field_name f = name)) as [<-|Hne].
      * rewrite lookup_insert_eq. eauto.
      * by rewrite lookup_insert_ne.
Qed.

Lemma mapped_true (fieldMap : gmap string string) (name : string) :
  mapped fieldMap name = true <-> is_Some (resolved fieldMap name).
Proof.
  unfold mapped, resolved. destruct (fieldMap !! name) as [id|].
  - destruct (truthy id); split; intros Hx; try done; by destruct Hx.
  - split; [done | intros [? ?]; done].
Qed.

(** Every field has an id that is not empty. *)
Definition idsNotEmpty (fields : list FieldMeta) : Prop :=
  forall f, f ∈ fields -> field_id f <> "".

Lemma recordFields_mapped (fields : list FieldMeta) (name : string) :
  idsNotEmpty fields -> name ∈ field_name <$> fields ->
  mapped (recordFields fields ∅) name = true.
Proof.
  intros Hids Hn.
  destruct (recordFields_is_Some fields ∅ name (or_introl Hn)) as [id Hid].
  unfold mapped. rewrite Hid. apply truthy_true.
  apply recordFields_lookup in Hid as [(f & Hf & _ & <-) | Hid].
  - by apply Hids.
  - by rewrite lookup_empty in Hid.
Qed.

Lemma foldl_fixed {A B : Type} (f : A -> B -> A) (a : A) (l : list B) :
  (forall x, x ∈ l -> f a x = a) -> foldl f a l = a.
Proof.
  induction l as [|x l IH]; intros Hf; simpl; [done|].
  rewrite Hf by (by left). apply IH. intros y Hy. apply Hf. by right.
Qed.

Lemma fieldMapping_names : fst <$> fieldMapping = fieldMappingNames.
Proof. reflexivity. Qed.

(** X20. On a table that already has every column of the mapping,
    [ensureFieldsExist] changes nothing in the datastore (no column is
    added) and returns the ids of the listing: running it again is
    harmless. *)
Theorem ensureFieldsExist_complete_table {St : Type}
    (getFieldMetaList : St -> option (list FieldMeta))
    (getName : St -> option string)
    (addField : St -> FieldType -> string -> St * AddFieldResult)
    (st : St) (fieldsMeta : list FieldMeta) (tableName : string) :
  getFieldMetaList st = Some fieldsMeta ->
  getName st = Some tableName ->
  idsNotEmpty fieldsMeta ->
  (forall name, name ∈ fieldMappingNames -> name ∈ field_name <$> fieldsMeta) ->
  ensureFieldsExist getFieldMetaList getName addField st
  = (st, Some (recordFields fieldsMeta ∅))
  /\ forall name, name ∈ fieldMappingNames ->
       is_Some (resolved (recordFields fieldsMeta ∅) name).
Proof.
  intros Hlist Hname Hids Hall. split.
  - unfold ensureFieldsExist. rewrite Hlist, Hname.
    assert (Hstep : forall entry, entry.1 ∈ fieldMappingNames ->
              ensureField getFieldMetaList addField fieldsMeta
                (st, recordFields fieldsMeta ∅) entry
              = (st, recordFields fieldsMeta ∅)).
    { intros [name type] Hin. simpl in Hin. unfold ensureField.
      assert (Hhas : hasName fieldsMeta name = true) by (apply hasName_elem; auto).
      rewrite Hhas. simpl. unfold patchFromListing.
      by rewrite recordFields_mapped by auto. }
    rewrite foldl_fixed; [done|].
    intros entry Hin. apply Hstep. rewrite <- fieldMapping_names.
    apply list_elem_of_fmap. eauto.
  - intros name Hin. apply mapped_true, recordFields_mapped; auto.
Qed.

(** *** A table kept in memory *)

Module MemorySchema.
Import Schema FieldMapper Datastore.

Section Memory.
Context `{RecordIdSupply}.
(** The columns the datastore refuses to create. *)
Variable refuses : string -> bool.
(** Whether [addField] answers with an object that carries the id. *)
Variable returnsObject : bool.

(** Modelled from the spec: "list/describe columns" of the datastore
    interface: the table is the list of its columns. *)
Definition listFields (schema : list FieldMeta) : option (list FieldMeta) :=
  Some schema.

(** Modelled from the spec: the name of the table, which the code only
    logs. *)
Definition tableName (schema : list FieldMeta) : option string := Some "table".

(** Modelled from the spec: "add column(name, type) -> id": a refused column
    leaves the table as it is; otherwise a column with a new, non-empty id
    is appended. *)
Definition addColumn (schema : list FieldMeta) (type : FieldType) (name : string)
    : list FieldMeta * AddFieldResult :=
  if refuses name then (schema, AddRejected)
  else
    let id := newRecordId (field_id <$> schema) in
    (schema ++ [{| field_id := id; field_name := name; field_isPrimary := false |}],
     if returnsObject then AddedWithId id else AddedOther).

(** [ensureFieldsExist] on a table kept in memory. *)
Definition ensure (schema : list FieldMeta)
    : list FieldMeta * option (gmap string string) :=
  ensureFieldsExist listFields tableName addColumn schema.

End Memory.

End MemorySchema.

Import MemorySchema.

Lemma findByName_None (fieldsMeta : list FieldMeta) (name : string) :
  hasName fieldsMeta name = false -> findByName fieldsMeta name = None.
Proof.
  unfold hasName. induction fieldsMeta as [|f l IH]; simpl; [done|].
  intros [Hf Hl]%orb_false_iff. rewrite Hf. by apply IH.
Qed.

Section EnsureInvariant.
Context `{RecordIdSupply}.
Variable refuses : string -> bool.
Variable returnsObject : bool.
Variable schema : list FieldMeta.

(** What holds of the table and of the field map after the columns
    [processed] have been dealt with. *)
Definition ensured (processed : list string)
    (acc : list FieldMeta * gmap string string) : Prop :=
  let '(cur, fieldMap) := acc in
  schema `prefix_of` cur
  /\ idsNotEmpty cur
  /\ (forall name id, fieldMap !! name = Some id ->
        id <> "" /\ exists f, f ∈ cur /\ field_name f = name /\ field_id f = id)
  /\ (forall f, f ∈ cur -> is_Some (fieldMap !! field_name f))
  /\ (forall f, f ∈ cur ->
        field_name f ∈ field_name <$> schema
        \/ (field_name f ∈ processed /\ field_name f <> col_aweme_id
            /\ refuses (field_name f) = false))
  /\ (forall name, name ∈ processed -> name <> col_aweme_id ->
        refuses name = false -> name ∈ field_name <$> cur).

Lemma ensured_initial : idsNotEmpty schema -> ensured [] (schema, recordFields schema ∅).
Proof.
  intros Hids. repeat split.
  - done.
  - done.
  - apply recordFields_lookup in H0 as [(f & Hf & _ & <-) | Hl];
      [by apply Hids | by rewrite lookup_empty in Hl].
  - apply recordFields_lookup in H0 as [(f & Hf & Hn & Hi) | Hl];
      [eauto | by rewrite lookup_empty in Hl].
  - intros f Hf. apply recordFields_is_Some. left.
    apply list_elem_of_fmap. eauto.
  - intros f Hf. left. apply list_elem_of_fmap. eauto.
  - intros name Hin. by apply elem_of_nil in Hin.
Qed.

Lemma ensured_mapped processed cur fieldMap name :
  ensured processed (cur, fieldMap) ->
  name ∈ field_name <$> cur -> mapped fieldMap name = true.
Proof.
  intros (_ & _ & H3 & H4 & _) (f & -> & Hf)%list_elem_of_fmap.
  destruct (H4 f Hf) as [id Hid]. unfold mapped. rewrite Hid.
  apply truthy_true. by apply (H3 _ _ Hid).
Qed.

Lemma ensured_step processed acc entry :
  ensured processed acc ->
  ensured (entry.1 :: processed)
    (ensureField listFields (addColumn refuses returnsObject) schema acc entry).
Proof.
  destruct acc as [cur fieldMap], entry as [name type]. simpl fst.
  intros Hinv. pose proof Hinv as (H1 & H2 & H3 & H4 & H5 & H6).
  assert (Hmono : forall cur' fieldMap',
            cur' = cur -> fieldMap' = fieldMap ->
            (name <> col_aweme_id -> refuses name = false ->
             name ∈ field_name <$> cur) ->
            ensured (name :: processed) (cur', fieldMap')).
  { intros ? ? -> -> Hname. repeat split; auto.
    - by apply (H3 _ _ H0).
    - by apply (H3 _ _ H0).
    - intros f Hf. destruct (H5 f Hf) as [? | (? & ? & ?)]; [by left|].
      right. split; [by right | done].
    - intros n [-> | Hn]%elem_of_cons; auto. }
  unfold ensureField.
  destruct (hasName schema name) eqn:Hhas; simpl.
  - (* the column is in the first listing *)
    assert (Hin : name ∈ field_name <$> cur).
    { apply hasName_elem in Hhas. destruct H1 as [k ->].
      rewrite fmap_app. apply elem_of_app. by left. }
    apply Hmono; [done | | done].
    unfold patchFromListing. by rewrite (ensured_mapped _ _ _ _ Hinv Hin).
  - destruct (String.eqb_spec name "视频编号") as [Hid | Hid]; simpl.
    + (* the canonical-id column, absent: never created *)
      apply Hmono; [done | | intros Hne; by destruct Hne].
      unfold patchFromListing. rewrite (findByName_None _ _ Hhas).
      by destruct (mapped fieldMap name).
    + unfold addColumn. destruct (refuses name) eqn:Href.
      * apply Hmono; [done | done | intros _ ?; congruence].
      * set (id := newRecordId (field_id <$> cur)).
        set (new := {| field_id := id; field_name := name; field_isPrimary := false |}).
        assert (Hidne : id <> "") by apply newRecordId_truthy.
        assert (Hids' : idsNotEmpty (cur ++ [new])).
        { intros f [Hf | Hf]%elem_of_app; [by apply H2|].
          apply list_elem_of_singleton in Hf. by subst f. }
        assert (Hpre : schema `prefix_of` cur ++ [new])
          by (by apply prefix_app_r).
        assert (H5' : forall f, f ∈ cur ++ [new] ->
                  field_name f ∈ field_name <$> schema
                  \/ (field_name f ∈ name :: processed
                      /\ field_name f <> col_aweme_id
                      /\ refuses (field_name f) = false)).
        { intros f [Hf | Hf]%elem_of_app.
          - destruct (H5 f Hf) as [? | (? & ? & ?)]; [by left|].
            right. split; [by right | done].
          - apply list_elem_of_singleton in Hf. subst f. simpl.
            right. split; [by left | done]. }
        assert (H6' : forall n, n ∈ name :: processed -> n <> col_aweme_id ->
                  refuses n = false -> n ∈ field_name <$> cur ++ [new]).
        { intros n Hn Hne Hr. rewrite fmap_app. apply elem_of_app.
          apply elem_of_cons in Hn as [-> | Hn]; [right; simpl; by left|].
          left. by apply H6. }
        destruct returnsObject.
        -- (* the answer carries the id *)
           split; [done|]. split; [done|]. split; [|split; [|split; done]].
           ++ intros n i Hl. destruct (decide (name = n)) as [<- | Hne].
              ** rewrite lookup_insert_eq in Hl. injection Hl as <-.
                 split; [done|]. exists new. split; [|done].
                 apply elem_of_app. right. by left.
              ** rewrite lookup_insert_ne in Hl by done.
                 destruct (H3 _ _ Hl) as (? & f & ? & ? & ?).
                 split; [done|]. exists f. split; [|done].
                 apply elem_of_app. by left.
           ++ intros f [Hf | Hf]%elem_of_app.
              ** destruct (decide (name = field_name f)) as [-> | Hne].
                 --- rewrite lookup_insert_eq. eauto.
                 --- rewrite lookup_insert_ne by done. by apply H4.
              ** apply list_elem_of_singleton in Hf. subst f. simpl.
                 rewrite lookup_insert_eq. eauto.
        -- (* the answer carries no id: the columns are listed again *)
           unfold listFields.
           split; [done|]. split; [done|]. split; [|split; [|split; done]].
           ++ intros n i Hl.
              apply recordFields_lookup in Hl as [(f & Hf & Hn & Hi) | Hl].
              ** split; [subst i; by apply Hids' | eauto].
              ** destruct (H3 _ _ Hl) as (? & f & ? & ? & ?).
                 split; [done|]. exists f. split; [|done].
                 apply elem_of_app. by left.
           ++ intros f Hf. apply recordFields_is_Some. left.
              apply list_elem_of_fmap. eauto.
Qed.

Lemma ensured_foldl (entries : list (string * FieldType)) :
  forall processed acc,
    ensured processed acc ->
    ensured (rev (fst <$> entries) ++ processed)
      (foldl (ensureField listFields (addColumn refuses returnsObject) schema)
         acc entries).
Proof.
  induction entries as [|entry entries IH]; intros processed acc Hinv; [done|].
  simpl. rewrite <- app_assoc. simpl.
  apply IH. by apply ensured_step.
Qed.

End EnsureInvariant.

Lemma ensureFieldsExist_resolves_aux `{RecordIdSupply}
    (refuses : string -> bool) (returnsObject : bool) (schema : list FieldMeta) :
  idsNotEmpty schema ->
  exists schema' fieldMap,
    ensure refuses returnsObject schema = (schema', Some fieldMap)
    /\ schema `prefix_of` schema'
    /\ idsNotEmpty schema'
    /\ (forall name, name ∈ fieldMappingNames ->
          (is_Some (resolved fieldMap name) <->
           name ∈ field_name <$> schema
           \/ (name <> col_aweme_id /\ refuses name = false)))
    /\ (forall name id, resolved fieldMap name = Some id ->
          exists f, f ∈ schema' /\ field_name f = name /\ field_id f = id)
    /\ (col_aweme_id ∈ field_name <$> schema' <->
        col_aweme_id ∈ field_name <$> schema).
Proof.
  intros Hids. unfold ensure, ensureFieldsExist, listFields, tableName.
  fold listFields.
  pose proof (ensured_foldl refuses returnsObject schema fieldMapping []
                _ (ensured_initial refuses schema Hids)) as Hinv.
  destruct (foldl _ _ fieldMapping) as [schema' fieldMap].
  exists schema', fieldMap. split; [done|].
  destruct Hinv as (H1 & H2 & H3 & H4 & H5 & H6).
  assert (Hres : forall name id, resolved fieldMap name = Some id ->
            fieldMap !! name = Some id).
  { intros name id. unfold resolved. destruct (fieldMap !! name) as [i|]; [|done].
    by destruct (truthy i). }
  assert (Hmapped : forall name, name ∈ field_name <$> schema' ->
            is_Some (resolved fieldMap name)).
  { intros name (f & -> & Hf)%list_elem_of_fmap.
    destruct (H4 f Hf) as [id Hid]. unfold resolved. rewrite Hid.
    destruct (H3 _ _ Hid) as [Hne%truthy_true _]. rewrite Hne. eauto. }
  split; [done|]. split; [done|]. split; [|split].
  - intros name Hin. split.
    + intros [id Hid]. apply Hres in Hid.
      destruct (H3 _ _ Hid) as (_ & f & Hf & <- & _).
      destruct (H5 f Hf) as [? | (_ & ? & ?)]; [by left | by right].
    + intros [Hs | [Hne Href]]; apply Hmapped.
      * destruct H1 as [k ->]. rewrite fmap_app. apply elem_of_app. by left.
      * apply H6; [|done|done]. rewrite app_nil_r.
        apply list_elem_of_In, in_rev. rewrite rev_involutive.
        apply list_elem_of_In. by rewrite fieldMapping_names.
  - intros name id Hid. apply Hres in Hid. by apply (H3 _ _ Hid).
  - split.
    + intros (f & Hn & Hf)%list_elem_of_fmap.
      destruct (H5 f Hf) as [? | (_ & ? & _)]; [by rewrite Hn | congruence].
    + intros Hs. destruct H1 as [k ->]. rewrite fmap_app. apply elem_of_app. by left.
Qed.

(** X21. On a table kept in memory whose columns have non-empty ids,
    [ensureFieldsExist] keeps every column that was there, in place, and
    returns a map in which a column of the mapping is resolved exactly when
    it was there already or it is not the canonical-id column and the
    datastore did not refuse to create it; every id of the map is the id of
    a column of the table with that name, and the canonical-id column is
    never created. *)
Theorem ensureFieldsExist_resolves `{RecordIdSupply}
    (refuses : string -> bool) (returnsObject : bool) (schema : list FieldMeta) :
  idsNotEmpty schema ->
  exists schema' fieldMap,
    ensure refuses returnsObject schema = (schema', Some fieldMap)
    /\ schema `prefix_of` schema'
    /\ idsNotEmpty schema'
    /\ (forall name, name ∈ fieldMappingNames ->
          (is_Some (resolved fieldMap name) <->
           name ∈ field_name <$> schema
           \/ (name <> col_aweme_id /\ refuses name = false)))
    /\ (forall name id, resolved fieldMap name = Some id ->
          exists f, f ∈ schema' /\ field_name f = name /\ field_id f = id)
    /\ (col_aweme_id ∈ field_name <$> schema' <->
        col_aweme_id ∈ field_name <$> schema).
Proof. apply ensureFieldsExist_resolves_aux. Qed.

(** A table as a manual creation leaves it: a primary column with another
    name, and the nickname column. *)
Definition foreignSchema : list FieldMeta :=
  [ {| field_id := "fldP"; field_name := "标题"; field_isPrimary := true |};
    {| field_id := "fldN"; field_name := "昵称"; field_isPrimary := false |} ].

Lemma foreignSchema_ids : idsNotEmpty foreignSchema.
Proof.
  intros f Hf. unfold foreignSchema in Hf.
  repeat (apply elem_of_cons in Hf as [-> | Hf]; [discriminate|]).
  by apply elem_of_nil in Hf.
Qed.

Lemma ensureFieldsExist_resolves_witness :
  exists schema' fieldMap,
    ensure (H := lengthSupply) (String.eqb "描述") false foreignSchema
    = (schema', Some fieldMap)
    /\ foreignSchema `prefix_of` schema'
    /\ idsNotEmpty schema'
    /\ (forall name, name ∈ fieldMappingNames ->
          (is_Some (resolved fieldMap name) <->
           name ∈ field_name <$> foreignSchema
           \/ (name <> col_aweme_id /\ String.eqb "描述" name = false)))
    /\ (forall name id, resolved fieldMap name = Some id ->
          exists f, f ∈ schema' /\ field_name f = name /\ field_id f = id)
    /\ (col_aweme_id ∈ field_name <$> schema' <->
        col_aweme_id ∈ field_name <$> foreignSchema).
Proof.
  apply (ensureFieldsExist_resolves (H := lengthSupply) (String.eqb "描述") false
           foreignSchema).
  exact foreignSchema_ids.
Defined.


(** X22. A table that has no column named 视频编号 (a table created by hand,
    or a new table whose primary column could not be renamed) never gets
    one from [ensureFieldsExist], and then the engine writes nothing to it:
    every record of every batch is skipped. *)
Theorem table_without_id_column_gets_no_rows `{RecordIdSupply}
    (refuses : string -> bool) (returnsObject : bool) (schema : list FieldMeta)
    (host : JsDate.Host) (existingVideoIds : gmap string string)
    (videos : list Video) :
  idsNotEmpty schema ->
  col_aweme_id ∉ field_name <$> schema ->
  exists schema' fieldMap,
    ensure refuses returnsObject schema = (schema', Some fieldMap)
    /\ resolved fieldMap col_aweme_id = None
    /\ classifyVideos host fieldMap existingVideoIds videos [] [] = ([], []).
Proof.
  intros Hids Hno.
  destruct (ensureFieldsExist_resolves_aux refuses returnsObject schema Hids)
    as (schema' & fieldMap & He & _ & _ & Hres & _).
  exists schema', fieldMap. split; [done|].
  assert (Hnone : resolved fieldMap col_aweme_id = None).
  { destruct (resolved fieldMap col_aweme_id) as [id|] eqn:E; [|done].
    exfalso.
    assert (Hin : col_aweme_id ∈ fieldMappingNames)
      by (apply elem_of_cons; right; apply elem_of_cons; by left).
    destruct (proj1 (Hres col_aweme_id Hin) (mk_is_Some _ _ E)) as [? | [? _]]; done. }
  split; [done | by apply classifyVideos_all_skipped].
Qed.

Lemma table_without_id_column_gets_no_rows_witness :
  exists schema' fieldMap,
    ensure (H := lengthSupply) (fun _ => false) true foreignSchema
    = (schema', Some fieldMap)
    /\ resolved fieldMap col_aweme_id = None
    /\ classifyVideos JsDate.utcHost fieldMap ∅ [sampleVideo] [] [] = ([], []).
Proof.
  apply (table_without_id_column_gets_no_rows (H := lengthSupply) (fun _ => false)
           true foreignSchema JsDate.utcHost ∅ [sampleVideo]).
  - exact foreignSchema_ids.
  - vm_compute. intros Hin.
    repeat (apply elem_of_cons in Hin as [Hin | Hin]; [discriminate|]).
    by apply elem_of_nil in Hin.
Defined.

Example ensure_example :
  (fun r => (field_name <$> r.1, (fun m => resolved m col_desc) <$> r.2))
    (ensure (H := lengthSupply) (String.eqb "描述") false foreignSchema)
  = ([ "标题"; "昵称"; "分享链接"; "发布日期"; "点赞数"; "收藏数"; "评论数"; "时长";
       "下载链接"; "音频链接"; "分享数"; "文案" ], Some None).
Proof. vm_compute. reflexivity. Qed.

Lemma findTable_Some (tables : list TableMeta) (tableName : string) (t : TableMeta) :
  findTable tables tableName = Some t -> t ∈ tables /\ table_name t = tableName.
Proof.
  induction tables as [|x l IH]; simpl; [discriminate|].
  destruct (String.eqb_spec (table_name x) tableName) as [Heq | Hne].
  - intros [= <-]. split; [by left | done].
  - intros Hf. destruct (IH Hf) as [? ?]. split; [by right | done].
Qed.

Lemma findTable_None (tables : list TableMeta) (tableName : string) :
  (forall t, t ∈ tables -> table_name t <> tableName) ->
  findTable tables tableName = None.
Proof.
  induction tables as [|x l IH]; intros Hall; simpl; [done|].
  destruct (String.eqb_spec (table_name x) tableName) as [Heq | Hne].
  - exfalso. by apply (Hall x); [left|].
  - apply IH. intros t Ht. apply Hall. by right.
Qed.

(** X23. When a table with the wanted name exists, [getOrCreateTable]
    reuses it: it creates no table, renames no column and leaves the
    datastore as it was, and it returns the id of a listed table of that
    name (or throws when the table object cannot be had). *)
Theorem getOrCreateTable_reuses_existing {St : Type}
    (getTableMetaList : St -> option (list TableMeta))
    (addTable : St -> string -> St * option string)
    (getTableById : St -> string -> option bool)
    (getFieldMetaList : St -> string -> option (list FieldMeta))
    (setField : St -> string -> string -> string -> St * bool)
    (tableName : string) (st : St) (tables : list TableMeta) (t : TableMeta) :
  getTableMetaList st = Some tables ->
  t ∈ tables -> table_name t = tableName ->
  fst (getOrCreateTable getTableMetaList addTable getTableById getFieldMetaList
         setField tableName st) = st
  /\ forall tableId,
       snd (getOrCreateTable getTableMetaList addTable getTableById getFieldMetaList
              setField tableName st) = Some tableId ->
       getTableById st tableId = Some true
       /\ exists t', t' ∈ tables /\ table_name t' = tableName /\ table_id t' = tableId.
Proof.
  intros Hlist Hin Hname. unfold getOrCreateTable. rewrite Hlist.
  destruct (findTable tables tableName) as [meta|] eqn:Hfind.
  - apply findTable_Some in Hfind as [Hmeta Hmn].
    destruct (getTableById st (table_id meta)) as [[|]|] eqn:Hget; simpl;
      (split; [done|]); intros tid [= <-]. eauto.
  - exfalso. clear -Hfind Hin Hname. induction tables as [|x l IH].
    + by apply elem_of_nil in Hin.
    + simpl in Hfind. destruct (String.eqb_spec (table_name x) tableName); [done|].
      apply elem_of_cons in Hin as [-> | Hin]; [done | by apply IH].
Qed.

(** A base with two tables; every table object can be had, a new table
    gets the id [tblNew] and a primary column [fldP], whose rename is
    refused. *)
Definition sampleTables : list TableMeta :=
  [ {| table_id := "tblA"; table_name := "author" |};
    {| table_id := "tblB"; table_name := "other" |} ].

Definition sampleAddTable (st : list string) (name : string)
    : list string * option string :=
  (st ++ ["addTable " +:+ name], Some "tblNew").

Definition sampleSetField (st : list string) (tableId fieldId name : string)
    : list string * bool :=
  (st ++ ["setField " +:+ fieldId +:+ " " +:+ name], false).

Definition sampleInitialFields (st : list string) (tableId : string)
    : option (list FieldMeta) :=
  Some [ {| field_id := "fldP"; field_name := "文本"; field_isPrimary := true |} ].

Lemma getOrCreateTable_reuses_existing_witness :
  fst (getOrCreateTable (fun _ => Some sampleTables) sampleAddTable
         (fun _ _ => Some true) sampleInitialFields sampleSetField "other" []) = []
  /\ forall tableId,
       snd (getOrCreateTable (fun _ => Some sampleTables) sampleAddTable
              (fun _ _ => Some true) sampleInitialFields sampleSetField "other" [])
       = Some tableId ->
       (fun (_ : list string) (_ : string) => Some true) [] tableId = Some true
       /\ exists t', t' ∈ sampleTables /\ table_name t' = "other" /\ table_id t' = tableId.
Proof.
  apply (getOrCreateTable_reuses_existing (fun _ => Some sampleTables) sampleAddTable
           (fun _ _ => Some true) sampleInitialFields sampleSetField "other" []
           sampleTables {| table_id := "tblB"; table_name := "other" |}).
  - reflexivity.
  - apply elem_of_cons. right. apply elem_of_cons. by left.
  - reflexivity.
Defined.

(** X24. When no table has the wanted name, [getOrCreateTable] creates one
    and returns it whatever becomes of the rename of its primary column:
    the rename is asked for the primary column only, and neither a refused
    rename, nor a column listing that fails, nor the lack of a primary
    column makes the function throw. *)
Theorem getOrCreateTable_creates_missing {St : Type}
    (getTableMetaList : St -> option (list TableMeta))
    (addTable : St -> string -> St * option string)
    (getTableById : St -> string -> option bool)
    (getFieldMetaList : St -> string -> option (list FieldMeta))
    (setField : St -> string -> string -> string -> St * bool)
    (tableName : string) (st st1 : St) (tables : list TableMeta) (tableId : string) :
  getTableMetaList st = Some tables ->
  (forall t, t ∈ tables -> table_name t <> tableName) ->
  addTable st tableName = (st1, Some tableId) ->
  getTableById st1 tableId = Some true ->
  snd (getOrCreateTable getTableMetaList addTable getTableById getFieldMetaList
         setField tableName st) = Some tableId
  /\ fst (getOrCreateTable getTableMetaList addTable getTableById getFieldMetaList
            setField tableName st)
     = match getFieldMetaList st1 tableId with
       | Some initialFields =>
           match findPrimary initialFields with
           | Some primaryField =>
               fst (setField st1 tableId (field_id primaryField) col_aweme_id)
           | None => st1
           end
       | None => st1
       end.
Proof.
  intros Hlist Hnone Hadd Hget. unfold getOrCreateTable.
  rewrite Hlist, (findTable_None _ _ Hnone), Hadd, Hget. simpl.
  split; [done|]. reflexivity.
Qed.

Lemma getOrCreateTable_creates_missing_witness :
  snd (getOrCreateTable (fun _ => Some sampleTables) sampleAddTable
         (fun _ _ => Some true) sampleInitialFields sampleSetField "fresh" [])
  = Some "tblNew"
  /\ fst (getOrCreateTable (fun _ => Some sampleTables) sampleAddTable
            (fun _ _ => Some true) sampleInitialFields sampleSetField "fresh" [])
     = match sampleInitialFields ["addTable fresh"] "tblNew" with
       | Some initialFields =>
           match findPrimary initialFields with
           | Some primaryField =>
               fst (sampleSetField ["addTable fresh"] "tblNew"
                      (field_id primaryField) col_aweme_id)
           | None => ["addTable fresh"]
           end
       | None => ["addTable fresh"]
       end.
Proof.
  apply (getOrCreateTable_creates_missing (fun _ => Some sampleTables) sampleAddTable
           (fun _ _ => Some true) sampleInitialFields sampleSetField "fresh" []
           ["addTable fresh"] sampleTables "tblNew").
  - reflexivity.
  - intros t Hin. unfold sampleTables in Hin.
    repeat (apply elem_of_cons in Hin as [-> | Hin]; [discriminate|]).
    by apply elem_of_nil in Hin.
  - reflexivity.
  - reflexivity.
Defined.

Example getOrCreateTable_example :
  getOrCreateTable (fun _ => Some sampleTables) sampleAddTable
    (fun _ _ => Some true) sampleInitialFields sampleSetField "fresh" []
  = (["addTable fresh"; "setField fldP 视频编号"], Some "tblNew").
Proof. vm_compute. reflexivity. Qed.

(** *** A new table kept in memory *)

Module MemoryBase.
Import Schema FieldMapper MemorySchema Datastore.

(** Modelled from the spec: "rename" of a column, the [table.setField] of
    the code: the column with that id takes the new name. *)
Definition renameColumn (schema : list FieldMeta) (fieldId name : string)
    : list FieldMeta :=
  (fun f =>
     if String.eqb (field_id f) fieldId
     then {| field_id := field_id f; field_name := name;
             field_isPrimary := field_isPrimary f |}
     else f) <$> schema.

Section NewTable.
Context `{RecordIdSupply}.
(** Modelled from the spec: "a newly created table has its default primary
    column": the columns a table has when it is created. *)
Variable defaultFields : list FieldMeta.

(** A base that has no table of the wanted name and accepts every call; its
    state is the list of columns of the table it creates (none before the
    creation). *)
Definition createAndEnsure (tableName : string)
    : list FieldMeta * option (gmap string string) :=
  match getOrCreateTable
          (fun _ => Some [])
          (fun _ _ => (defaultFields, Some "tblNew"))
          (fun _ _ => Some true)
          (fun st _ => Some st)
          (fun st _ fieldId name => (renameColumn st fieldId name, true))
          tableName [] with
  | (schema, Some _) => ensure (fun _ => false) false schema
  | (schema, None) => (schema, None)
  end.

End NewTable.

End MemoryBase.

Import MemoryBase.

Lemma findPrimary_Some (fields : list FieldMeta) (p : FieldMeta) :
  findPrimary fields = Some p -> p ∈ fields.
Proof.
  induction fields as [|f l IH]; simpl; [discriminate|].
  destruct (field_isPrimary f).
  - intros [= <-]. by left.
  - intros Hp. right. by apply IH.
Qed.

Lemma renameColumn_ids (schema : list FieldMeta) (fieldId name : string) :
  idsNotEmpty schema -> idsNotEmpty (renameColumn schema fieldId name).
Proof.
  intros Hids f (g & -> & Hg)%list_elem_of_fmap.
  destruct (String.eqb (field_id g) fieldId); simpl; by apply Hids.
Qed.

Lemma renameColumn_name (schema : list FieldMeta) (p : FieldMeta) (name : string) :
  p ∈ schema -> name ∈ field_name <$> renameColumn schema (field_id p) name.
Proof.
  intros Hp. apply list_elem_of_fmap.
  exists {| field_id := field_id p; field_name := name;
            field_isPrimary := field_isPrimary p |}.
  split; [done|]. apply list_elem_of_fmap. exists p. split; [|done].
  by rewrite String.eqb_refl.
Qed.

(** X25. For a table that does not exist yet, when the datastore accepts
    every call and the new table has a primary column, [getOrCreateTable]
    followed by [ensureFieldsExist] gives a field map in which all thirteen
    columns are resolved, the canonical-id column included (it is the
    renamed primary column): no record will be skipped for a missing
    column. *)
Theorem new_table_gets_every_column `{RecordIdSupply}
    (defaultFields : list FieldMeta) (primaryField : FieldMeta) (tableName : string) :
  idsNotEmpty defaultFields ->
  findPrimary defaultFields = Some primaryField ->
  exists schema fieldMap,
    createAndEnsure defaultFields tableName = (schema, Some fieldMap)
    /\ (forall name, name ∈ fieldMappingNames -> is_Some (resolved fieldMap name))
    /\ exists f, f ∈ schema /\ field_name f = col_aweme_id
                 /\ resolved fieldMap col_aweme_id = Some (field_id f).
Proof.
  intros Hids Hprim. unfold createAndEnsure, getOrCreateTable, renamePrimary.
  simpl. rewrite Hprim. simpl.
  set (schema1 := renameColumn defaultFields (field_id primaryField) "视频编号").
  assert (Hids1 : idsNotEmpty schema1) by (by apply renameColumn_ids).
  assert (Hname : col_aweme_id ∈ field_name <$> schema1)
    by (apply renameColumn_name; by apply findPrimary_Some).
  destruct (ensureFieldsExist_resolves_aux (fun _ => false) false schema1 Hids1)
    as (schema' & fieldMap & He & _ & _ & Hres & Hsound & _).
  exists schema', fieldMap. split; [exact He|].
  assert (Hall : forall name, name ∈ fieldMappingNames ->
            is_Some (resolved fieldMap name)).
  { intros name Hin. apply (Hres name Hin).
    destruct (decide (name = col_aweme_id)) as [-> | Hne]; [by left | by right]. }
  split; [exact Hall|].
  destruct (Hall col_aweme_id) as [id Hid];
    [apply elem_of_cons; right; apply elem_of_cons; by left|].
  destruct (Hsound _ _ Hid) as (f & Hf & Hn & <-).
  exists f. split; [done|]. split; done.
Qed.

Definition sampleDefaultFields : list FieldMeta :=
  [ {| field_id := "fldP"; field_name := "文本"; field_isPrimary := true |} ].

Lemma new_table_gets_every_column_witness :
  exists schema fieldMap,
    createAndEnsure (H := lengthSupply) sampleDefaultFields "author"
    = (schema, Some fieldMap)
    /\ (forall name, name ∈ fieldMappingNames -> is_Some (resolved fieldMap name))
    /\ exists f, f ∈ schema /\ field_name f = col_aweme_id
                 /\ resolved fieldMap col_aweme_id = Some (field_id f).
Proof.
  apply (new_table_gets_every_column (H := lengthSupply) sampleDefaultFields
           {| field_id := "fldP"; field_name := "文本"; field_isPrimary := true |}
           "author").
  - intros f Hf. apply list_elem_of_singleton in Hf. subst f. discriminate.
  - reflexivity.
Defined.

Example createAndEnsure_example :
  (fun r => (length r.1, (fun m => resolved m col_aweme_id) <$> r.2))
    (createAndEnsure (H := lengthSupply) sampleDefaultFields "author")
  = (13, Some (Some "fldP")).
Proof. vm_compute. reflexivity. Qed.

(** A table that has the thirteen columns of the mapping. *)
Definition completeSchema : list FieldMeta :=
  (fun name => {| field_id := "fld_" +:+ name; field_name := name;
                  field_isPrimary := String.eqb name col_aweme_id |})
    <$> fieldMappingNames.

Lemma completeSchema_names : field_name <$> completeSchema = fieldMappingNames.
Proof. reflexivity. Qed.

Lemma ensureFieldsExist_complete_table_witness :
  ensureFieldsExist listFields tableName
    (addColumn (H := lengthSupply) (fun _ => false) true) completeSchema
  = (completeSchema, Some (recordFields completeSchema ∅))
  /\ forall name, name ∈ fieldMappingNames ->
       is_Some (resolved (recordFields completeSchema ∅) name).
Proof.
  apply (ensureFieldsExist_complete_table listFields tableName
           (addColumn (H := lengthSupply) (fun _ => false) true)
           completeSchema completeSchema "table").
  - reflexivity.
  - reflexivity.
  - intros f (name & -> & _)%list_elem_of_fmap. discriminate.
  - intros name Hin. by rewrite completeSchema_names.
Defined.
